(** * A shallow embedding of the particle-life physics engine

    Sources: [src/src/simulation.js] (class [ParticleSimulation]) and
    [src/unnamed/part_000] (the constants module and class [SpatialHash]).

    Numbers.  JavaScript numbers (and the [Float32Array] slots the engine
    stores them in) are modelled as exact rationals [Q]; [Math.sqrt] is the
    one operation of the engine that leaves the rationals, and it is kept
    abstract: every engine definition takes it as a parameter [sqrt].
    Comparisons use [Qle_bool]/[qlt], so they respect [==] ([Qeq]).

    Exceptions.  A JavaScript [TypeError]/[RangeError] thrown by the code
    (reading a property of [undefined], [new Array] of a negative length) is
    modelled by [None] in the [option] monad below.

    Typed arrays.  Writes to a typed array at an index outside it are ignored
    ([set_nth]); particle arrays all have length [count] (they are allocated
    together in [initialize]), so loop reads [a[i]] with [i < count] are in
    range and are modelled with [nth i a 0]. *)

From Stdlib Require Import QArith Qround Qabs Lqa ZArith Lia List Bool Permutation.
Import ListNotations.

Open Scope Q_scope.

(** ** JavaScript helpers *)
Module JS.

(** [a < b] on numbers, as a boolean. *)
Definition qlt (a b : Q) : bool := negb (Qle_bool b a).

(** [Math.min(a, b)] and [Math.max(a, b)] on non-NaN numbers. *)
Definition min (a b : Q) : Q := if qlt b a then b else a.
Definition max (a b : Q) : Q := if qlt a b then b else a.

(** [Math.abs]. *)
Definition abs (a : Q) : Q := Qabs a.

(** Writing [a[i] = v] into a typed array: out-of-range writes are
    ignored. *)
Fixpoint set_nth {A} (l : list A) (i : nat) (v : A) : list A :=
  match l, i with
  | [], _ => []
  | _ :: t, O => v :: t
  | h :: t, S i' => h :: set_nth t i' v
  end.

(** Storing an integral number into a [Uint8Array] slot (ToUint8). *)
Definition toUint8 (v : Z) : Z := Z.modulo v 256.

(** The error monad: [None] is a thrown exception. *)
Definition bind {A B} (m : option A) (k : A -> option B) : option B :=
  match m with Some a => k a | None => None end.

(** [l.map(f)] for an [f] that may throw. *)
Fixpoint mapM {A B} (f : A -> option B) (l : list A) : option (list B) :=
  match l with
  | [] => Some []
  | a :: rest =>
      match f a with
      | Some b => match mapM f rest with
                  | Some bs => Some (b :: bs)
                  | None => None
                  end
      | None => None
      end
  end.

(** The counter values [0, 1, ..., n - 1] of [for (let i = 0; i < n; i++)]. *)
Definition zseq (n : Z) : list Z := map Z.of_nat (seq 0 (Z.to_nat n)).

End JS.

Import JS.

Notation "'let*' x ':=' m 'in' k" := (JS.bind m (fun x => k))
  (at level 200, x name, m at level 100, k at level 200).

(** ** The constants module (constants.js, [src/unnamed/part_000] l.1-57) *)
Module Constants.
Definition PARTICLE_RADIUS : Q := 4.
Definition INTERACTION_RADIUS : Q := 300.
Definition REPULSION_RADIUS : Q := PARTICLE_RADIUS * 2.
Definition REPULSION_STRENGTH : Q := 5 # 10.
Definition FRICTION : Q := 98 # 100.
Definition MAX_VELOCITY : Q := 5.
Definition FORCE_SCALE : Q := 1 # 1000.
Definition CELL_SIZE : Q := INTERACTION_RADIUS.
Definition DEFAULT_USE_BRUTE_FORCE : bool := true.
Definition MATRIX_MIN : Q := -5.
Definition MATRIX_MAX : Q := 5.
End Constants.

Import Constants.

(** ** Class [SpatialHash] ([src/unnamed/part_000] l.66-186) *)
Module SpatialHash.

Record t := mk {
  cellSize : Q;
  width : Q;
  height : Q;
  cols : Z;
  rows : Z;
  grid : list (list nat)
}.

(** [clear()]: every cell becomes a fresh empty array. *)
Definition clear (h : t) : t :=
  mk (cellSize h) (width h) (height h) (cols h) (rows h)
     (map (fun _ => []) (grid h)).

(** [new Array(n)] followed by [clear()]: a [RangeError] for a length that
    is not a non-negative integer.  [Math.ceil(w / 0)] is [Infinity] or
    [NaN] in JavaScript, so a zero cell size fails as well. *)
Definition alloc (n : Z) : option (list (list nat)) :=
  if (n <? 0)%Z then None else Some (repeat [] (Z.to_nat n)).

(** [constructor(cellSize, width, height)]. *)
Definition new (cs w h : Q) : option t :=
  if Qeq_bool cs 0 then None else
  let c := Qceiling (w / cs) in
  let r := Qceiling (h / cs) in
  let* g := alloc (c * r)%Z in
  Some (mk cs w h c r g).

(** [resize(width, height)]. *)
Definition resize (hs : t) (w h : Q) : option t :=
  new (cellSize hs) w h.

(** [getCellIndex(x, y)]. *)
Definition getCellIndex (h : t) (x y : Q) : Z :=
  let col := Qfloor (x / cellSize h) in
  let row := Qfloor (y / cellSize h) in
  let clampedCol := Z.max 0 (Z.min (cols h - 1) col) in
  let clampedRow := Z.max 0 (Z.min (rows h - 1) row) in
  (clampedRow * cols h + clampedCol)%Z.

(** [this.grid[i]] for a plain array: [undefined] (here [None]) outside. *)
Definition cell (h : t) (i : Z) : option (list nat) :=
  if (i <? 0)%Z then None else nth_error (grid h) (Z.to_nat i).

(** [insert(particleIndex, x, y)]: [grid[cellIndex].push(particleIndex)];
    pushing onto [undefined] throws. *)
Definition insert (h : t) (k : nat) (x y : Q) : option t :=
  let ci := getCellIndex h x y in
  let* c := cell h ci in
  Some (mk (cellSize h) (width h) (height h) (cols h) (rows h)
           (set_nth (grid h) (Z.to_nat ci) (c ++ [k]))).

(** The loop bounds of [getNearby]: [dr] outer, [dc] inner. *)
Definition offsets : list Z := [(-1)%Z; 0%Z; 1%Z].

Definition block (row col : Z) : list (Z * Z) :=
  flat_map (fun dr => map (fun dc => ((row + dr)%Z, (col + dc)%Z)) offsets)
           offsets.

(** The body of the double loop, over the cells of the block in loop
    order: cells passing the bounds test are appended to [nearby]. *)
Fixpoint collect (h : t) (cs : list (Z * Z)) : option (list nat) :=
  match cs with
  | [] => Some []
  | (r, c) :: rest =>
      if ((0 <=? c) && (c <? cols h) && (0 <=? r) && (r <? rows h))%Z
      then let* cl := cell h (r * cols h + c)%Z in
           let* tl := collect h rest in
           Some (cl ++ tl)
      else collect h rest
  end.

(** [getNearby(x, y)]. *)
Definition getNearby (h : t) (x y : Q) : option (list nat) :=
  let col := Qfloor (x / cellSize h) in
  let row := Qfloor (y / cellSize h) in
  collect h (block row col).

(** Inserting a list of indexed points in order. *)
Fixpoint insertAll (h : t) (pts : list (nat * (Q * Q))) : option t :=
  match pts with
  | [] => Some h
  | (k, (x, y)) :: rest =>
      let* h' := insert h k x y in insertAll h' rest
  end.

(** The positions [(x[i], y[i])] for the indices [is]; a missing entry is
    [undefined], and [insert(i, undefined, ...)] computes the cell index NaN
    and pushes onto [grid[NaN]] ([undefined]): a [TypeError]. *)
Fixpoint readPoints (x y : list Q) (is : list nat)
  : option (list (nat * (Q * Q))) :=
  match is with
  | [] => Some []
  | i :: rest =>
      let* xi := nth_error x i in
      let* yi := nth_error y i in
      let* tl := readPoints x y rest in
      Some ((i, (xi, yi)) :: tl)
  end.

(** [getAllNearby(x, y, count)] (l.172-185): the rebuilt grid and the
    result array. *)
Definition getAllNearby (h : t) (x y : list Q) (count : nat)
  : option (t * list (list nat)) :=
  let* pts := readPoints x y (seq 0 count) in
  let* h' := insertAll (clear h) pts in
  let* result := JS.mapM (fun p => getNearby h' (fst (snd p)) (snd (snd p))) pts in
  Some (h', result).

(** The shape [new] gives a grid: a positive cell size, at least one
    column and one row, and [cols * rows] cells. *)
Definition wf (h : t) : Prop :=
  0 < cellSize h /\ (1 <= cols h)%Z /\ (1 <= rows h)%Z /\
  length (grid h) = Z.to_nat (cols h * rows h).

(** Index [k] is stored in the cell [insert] picks for position (x, y). *)
Definition mem (h : t) (k : nat) (x y : Q) : Prop :=
  exists cl, cell h (getCellIndex h x y) = Some cl /\ In k cl.

(** The bounds test of the [getNearby] loop. *)
Definition inRange (h : t) (r c : Z) : bool :=
  ((0 <=? c) && (c <? cols h) && (0 <=? r) && (r <? rows h))%Z.

(** Every index stored in the grid is below [n]. *)
Definition indices_below (n : nat) (h : t) : Prop :=
  forall c k, In c (grid h) -> In k c -> (k < n)%nat.

End SpatialHash.

(** ** Class [ParticleSimulation] ([src/src/simulation.js]) *)
Module Sim.

Record t := mk {
  width : Q;
  height : Q;
  xs : list Q;            (* Float32Array x *)
  ys : list Q;            (* Float32Array y *)
  vxs : list Q;           (* Float32Array vx *)
  vys : list Q;           (* Float32Array vy *)
  types : list Z;         (* Uint8Array types *)
  count : nat;
  typeCount : Z;
  interactionMatrix : list (list Q);
  spatialHash : SpatialHash.t;
  fxs : list Q;           (* Float32Array fx *)
  fys : list Q;           (* Float32Array fy *)
  useBruteForce : bool;
  interactionRadius : Q
}.

(** Field updates. *)
Definition with_particles (s : t) (x y vx vy : list Q) : t :=
  mk (width s) (height s) x y vx vy (types s) (count s) (typeCount s)
     (interactionMatrix s) (spatialHash s) (fxs s) (fys s)
     (useBruteForce s) (interactionRadius s).

Definition with_types (s : t) (ty : list Z) : t :=
  mk (width s) (height s) (xs s) (ys s) (vxs s) (vys s) ty (count s)
     (typeCount s) (interactionMatrix s) (spatialHash s) (fxs s) (fys s)
     (useBruteForce s) (interactionRadius s).

Definition with_forces (s : t) (f : list Q * list Q) : t :=
  mk (width s) (height s) (xs s) (ys s) (vxs s) (vys s) (types s) (count s)
     (typeCount s) (interactionMatrix s) (spatialHash s) (fst f) (snd f)
     (useBruteForce s) (interactionRadius s).

Definition with_hash (s : t) (h : SpatialHash.t) : t :=
  mk (width s) (height s) (xs s) (ys s) (vxs s) (vys s) (types s) (count s)
     (typeCount s) (interactionMatrix s) h (fxs s) (fys s)
     (useBruteForce s) (interactionRadius s).

Definition with_flag (s : t) (b : bool) : t :=
  mk (width s) (height s) (xs s) (ys s) (vxs s) (vys s) (types s) (count s)
     (typeCount s) (interactionMatrix s) (spatialHash s) (fxs s) (fys s)
     b (interactionRadius s).

Definition with_radius (s : t) (r : Q) : t :=
  mk (width s) (height s) (xs s) (ys s) (vxs s) (vys s) (types s) (count s)
     (typeCount s) (interactionMatrix s) (spatialHash s) (fxs s) (fys s)
     (useBruteForce s) r.

Definition with_config (s : t) (tc : Z) (m : list (list Q)) : t :=
  mk (width s) (height s) (xs s) (ys s) (vxs s) (vys s) (types s) (count s)
     tc m (spatialHash s) (fxs s) (fys s) (useBruteForce s)
     (interactionRadius s).

(** Particle [i]'s lane of the four state arrays: (x, y, vx, vy). *)
Definition particle (s : t) (i : nat) : Q * Q * Q * Q :=
  (nth i (xs s) 0, nth i (ys s) 0, nth i (vxs s) 0, nth i (vys s) 0).

Definition setParticle (s : t) (i : nat) (p : Q * Q * Q * Q) : t :=
  let '(x, y, vx, vy) := p in
  with_particles s (set_nth (xs s) i x) (set_nth (ys s) i y)
                   (set_nth (vxs s) i vx) (set_nth (vys s) i vy).

(** A monadic loop over a list. *)
Fixpoint foldM {A B} (f : A -> B -> option A) (l : list B) (a : A)
  : option A :=
  match l with
  | [] => Some a
  | b :: rest => let* a' := f a b in foldM f rest a'
  end.

(** [this.interactionMatrix[a][b]]: a missing row throws a [TypeError]; a
    missing column reads [undefined], whose arithmetic gives NaN, which
    the model does not represent and reports as [None] too. *)
Definition entry (m : list (list Q)) (a b : Z) : option Q :=
  if ((a <? 0) || (b <? 0))%Z then None else
  let* row := nth_error m (Z.to_nat a) in
  nth_error row (Z.to_nat b).

(** [(m[typeI][typeJ] + m[typeJ][typeI]) / 2]. *)
Definition avgAttraction (m : list (list Q)) (ti tj : Z) : option Q :=
  let* a := entry m ti tj in
  let* b := entry m tj ti in
  Some ((a + b) / 2).

(** [fx[i] += fx; fy[i] += fy; fx[j] -= fx; fy[j] -= fy]. *)
Definition applyPair (i j : nat) (f : Q * Q) (acc : list Q * list Q)
  : list Q * list Q :=
  let '(fx, fy) := f in
  let '(ax, ay) := acc in
  let ax1 := set_nth ax i (nth i ax 0 + fx) in
  let ay1 := set_nth ay i (nth i ay 0 + fy) in
  (set_nth ax1 j (nth j ax1 0 - fx), set_nth ay1 j (nth j ay1 0 - fy)).

(** [this.x.map((_, i) => i)] as (index, position) pairs: what the
    spatial-hash rebuild inserts. *)
Definition points (s : t) : list (nat * (Q * Q)) :=
  map (fun i => (i, (nth i (xs s) 0, nth i (ys s) 0))) (seq 0 (count s)).

Definition damping : Q := 8 # 10.

(** The bounce of one axis in [handleBoundaries]. *)
Definition boundAxis (lo hi p v : Q) : Q * Q :=
  if qlt p lo then (lo, JS.abs v * damping)
  else if qlt hi p then (hi, - JS.abs v * damping)
  else (p, v).

Definition handleOne (w h : Q) (p : Q * Q * Q * Q) : Q * Q * Q * Q :=
  let '(x, y, vx, vy) := p in
  let '(x1, vx1) := boundAxis PARTICLE_RADIUS (w - PARTICLE_RADIUS) x vx in
  let '(y1, vy1) := boundAxis PARTICLE_RADIUS (h - PARTICLE_RADIUS) y vy in
  (x1, y1, vx1, vy1).

(** [handleBoundaries()] (l.414-436). *)
Definition handleBoundaries (s : t) : t :=
  fold_left (fun s' i => setParticle s' i
                (handleOne (width s) (height s) (particle s' i)))
            (seq 0 (count s)) s.

(** [setBruteForce(useBruteForce)] (l.169-171). *)
Definition setBruteForce (s : t) (b : bool) : t := with_flag s b.

(** [setInteractionRadius(radius)] (l.177-183). *)
Definition setInteractionRadius (s : t) (r : Q) : option t :=
  let s1 := with_radius s r in
  if negb (useBruteForce s1) then
    let* h := SpatialHash.new r (width s1) (height s1) in
    Some (with_hash s1 h)
  else Some s1.

(** [setInteractionMatrix(matrix)] (l.160-162). *)
Definition setInteractionMatrix (s : t) (m : list (list Q)) : t :=
  with_config s (typeCount s) m.

(** The per-particle body of [removeParticleType]: [r] is the value of
    [Math.random()] drawn for this particle. *)
Definition remapType (removedIndex newTypeCount : Z) (r : Q) (cur : Z) : Z :=
  if (cur =? removedIndex)%Z
  then toUint8 (Qfloor (r * inject_Z newTypeCount))
  else if (removedIndex <? cur)%Z then toUint8 (cur - 1)
  else cur.

(** [removeParticleType(removedIndex, newTypeCount, newMatrix)]
    (l.192-209); [rnd i] is the random draw made for particle [i]. *)
Definition removeParticleType (rnd : nat -> Q) (s : t)
           (removedIndex newTypeCount : Z) (newMatrix : list (list Q)) : t :=
  let s1 := with_config s newTypeCount newMatrix in
  with_types s1
    (fold_left (fun ty i =>
                  set_nth ty i (remapType removedIndex newTypeCount (rnd i)
                                          (nth i ty 0%Z)))
               (seq 0 (count s1)) (types s1)).

(** [constructor(width, height)] (l.34-60): the arrays are [null] until
    [initialize] and are modelled as empty lists. *)
Definition new (w h : Q) : option t :=
  let* sh := SpatialHash.new CELL_SIZE w h in
  Some (mk w h [] [] [] [] [] 0 0 [] sh [] [] DEFAULT_USE_BRUTE_FORCE
           INTERACTION_RADIUS).

Section Engine.
(** [Math.sqrt]. *)
Variable sqrt : Q -> Q.

(** The body of the inner loop of [calculateForcesBruteForce]
    (l.344-367): [Some None] is [continue], [Some (Some f)] the force
    [f] added to particle i (and subtracted from particle j). *)
Definition bfContribution (m : list (list Q)) (xi yi : Q) (ti : Z)
           (xj yj : Q) (tj : Z) : option (option (Q * Q)) :=
  let repulsionRadiusSq := REPULSION_RADIUS * REPULSION_RADIUS in
  let dx := xj - xi in
  let dy := yj - yi in
  let distSq := dx * dx + dy * dy in
  if qlt distSq (1 # 10000) then Some None else
  let dist := sqrt distSq in
  let nx := dx / dist in
  let ny := dy / dist in
  let* attraction := avgAttraction m ti tj in
  let falloff := REPULSION_RADIUS / dist in
  let fm := attraction * FORCE_SCALE * falloff * falloff in
  let forceMagnitude :=
    if qlt distSq repulsionRadiusSq
    then let overlap := 1 - dist / REPULSION_RADIUS in
         fm - REPULSION_STRENGTH * overlap * overlap
    else fm in
  Some (Some (forceMagnitude * nx, forceMagnitude * ny)).

(** The body of the inner loop of [calculateForces] (l.289-324). *)
Definition shContribution (ir : Q) (m : list (list Q)) (xi yi : Q) (ti : Z)
           (xj yj : Q) (tj : Z) : option (option (Q * Q)) :=
  let interactionRadiusSq := ir * ir in
  let repulsionRadiusSq := REPULSION_RADIUS * REPULSION_RADIUS in
  let dx := xj - xi in
  let dy := yj - yi in
  let distSq := dx * dx + dy * dy in
  if qlt interactionRadiusSq distSq || qlt distSq (1 # 10000)
  then Some None else
  let dist := sqrt distSq in
  let nx := dx / dist in
  let ny := dy / dist in
  let t := (dist - REPULSION_RADIUS) / (ir - REPULSION_RADIUS) in
  let falloff := JS.max 0 (1 - t) in
  let* attraction := avgAttraction m ti tj in
  let fm := attraction * FORCE_SCALE * falloff in
  let forceMagnitude :=
    if qlt distSq repulsionRadiusSq
    then let overlap := 1 - dist / REPULSION_RADIUS in
         fm - REPULSION_STRENGTH * overlap * overlap
    else fm in
  Some (Some (forceMagnitude * nx, forceMagnitude * ny)).

(** One (i, j) iteration on the accumulators. *)
Definition pairStep (contrib : Q -> Q -> Z -> Q -> Q -> Z ->
                               option (option (Q * Q)))
           (s : t) (i j : nat) (acc : list Q * list Q)
  : option (list Q * list Q) :=
  let* c := contrib (nth i (xs s) 0) (nth i (ys s) 0) (nth i (types s) 0%Z)
                    (nth j (xs s) 0) (nth j (ys s) 0) (nth j (types s) 0%Z) in
  match c with
  | None => Some acc
  | Some f => Some (applyPair i j f acc)
  end.

(** [calculateForcesBruteForce()] (l.334-379). *)
Definition calculateForcesBruteForce (s : t) : option t :=
  let n := count s in
  let step := pairStep (bfContribution (interactionMatrix s)) s in
  let* acc := foldM (fun acc i =>
                       foldM (fun acc j => step i j acc)
                             (seq (S i) (n - S i)) acc)
                    (seq 0 n) (fxs s, fys s) in
  Some (with_forces s acc).

(** [calculateForces()] (l.275-327). *)
Definition calculateForces (s : t) : option t :=
  let step := pairStep (shContribution (interactionRadius s)
                                       (interactionMatrix s)) s in
  let* acc := foldM (fun acc i =>
                       let* nearby := SpatialHash.getNearby (spatialHash s)
                                        (nth i (xs s) 0) (nth i (ys s) 0) in
                       foldM (fun acc j =>
                                if (j <=? i)%nat then Some acc
                                else step i j acc) nearby acc)
                    (seq 0 (count s)) (fxs s, fys s) in
  Some (with_forces s acc).

(** The per-particle body of [integrate] (l.388-408). *)
Definition integrateOne (dtScale fx fy : Q) (p : Q * Q * Q * Q)
  : Q * Q * Q * Q :=
  let '(x, y, vx, vy) := p in
  let vx1 := vx + fx * dtScale in
  let vy1 := vy + fy * dtScale in
  let vx2 := vx1 * FRICTION in
  let vy2 := vy1 * FRICTION in
  let speed := sqrt (vx2 * vx2 + vy2 * vy2) in
  let '(vx3, vy3) :=
    if qlt MAX_VELOCITY speed
    then let scale := MAX_VELOCITY / speed in (vx2 * scale, vy2 * scale)
    else (vx2, vy2) in
  (x + vx3 * dtScale, y + vy3 * dtScale, vx3, vy3).

(** [integrate(dt)] (l.385-409); the loop does not write [fx]/[fy]. *)
Definition integrate (dt : Q) (s : t) : t :=
  let dtScale := dt * 60 in
  fold_left (fun s' i => setParticle s' i
                (integrateOne dtScale (nth i (fxs s) 0) (nth i (fys s) 0)
                              (particle s' i)))
            (seq 0 (count s)) s.

(** The force phase of [update] (l.245-259). *)
Definition computeForces (s : t) : option t :=
  let s0 := with_forces s (map (fun _ => 0) (fxs s),
                           map (fun _ => 0) (fys s)) in
  if useBruteForce s0 then calculateForcesBruteForce s0
  else
    let* h := SpatialHash.insertAll (SpatialHash.clear (spatialHash s0))
                                    (points s0) in
    calculateForces (with_hash s0 h).

(** [update(dt)] (l.239-266). *)
Definition update (s : t) (dt : Q) : option t :=
  if (count s =? 0)%nat then Some s else
  let normalizedDt := JS.min dt (1 # 30) in
  let* s1 := computeForces s in
  Some (handleBoundaries (integrate normalizedDt s1)).

End Engine.

(** ** Initialization ([initialize], l.71-91, and
    [placeParticlesNoOverlap], l.97-154) *)

(** [this.types[i] = i % this.typeCount] into a [Uint8Array]: with a zero
    type count [%] gives NaN, stored as 0. *)
Definition roundRobin (i : nat) (tc : Z) : Z :=
  if (tc =? 0)%Z then 0%Z else toUint8 (Z.rem (Z.of_nat i) tc).

Definition minDist : Q := PARTICLE_RADIUS.
Definition padding : Q := PARTICLE_RADIUS.

(** The state of the rejection-sampling loop. *)
Record placement := mkPlacement {
  pxs : list Q;
  pys : list Q;
  ptypes : list Z;
  phash : SpatialHash.t;
  placed : nat;
  attempts : nat
}.

(** The collision scan over [nearby] (l.123-133); the [break] does not
    change the boolean. *)
Definition collides (xs ys : list Q) (x y : Q) (nearby : list nat) : bool :=
  existsb (fun idx =>
             let dx := x - nth idx xs 0 in
             let dy := y - nth idx ys 0 in
             qlt (dx * dx + dy * dy) (minDist * minDist)) nearby.

Section Placement.
(** The values returned by [Math.random()], in call order: attempt [a]
    of the loop draws [rnd (2a)] and [rnd (2a+1)]. *)
Variable rnd : nat -> Q.
Variables (w h : Q) (n : nat) (tc : Z).

(** The [while] loop (l.112-142); [fuel] counts the attempts left before
    [maxAttempts]. *)
Fixpoint placeLoop (fuel : nat) (st : placement) : option placement :=
  match fuel with
  | O => Some st
  | S fuel' =>
      if (placed st <? n)%nat then
        let a := attempts st in
        let x := padding + rnd (2 * a)%nat * (w - 2 * padding) in
        let y := padding + rnd (2 * a + 1)%nat * (h - 2 * padding) in
        let* nearby := SpatialHash.getNearby (phash st) x y in
        if collides (pxs st) (pys st) x y nearby
        then placeLoop fuel'
               (mkPlacement (pxs st) (pys st) (ptypes st) (phash st)
                            (placed st) (S a))
        else
          let k := placed st in
          let* h' := SpatialHash.insert (phash st) k x y in
          placeLoop fuel'
            (mkPlacement (set_nth (pxs st) k x) (set_nth (pys st) k y)
                         (set_nth (ptypes st) k (roundRobin k tc)) h'
                         (S k) (S a))
      else Some st
  end.

(** The placement hash and the loop, from fresh arrays. *)
Definition placementRun : option placement :=
  let* ph := SpatialHash.new minDist w h in
  placeLoop (n * 100)%nat
    (mkPlacement (repeat 0 n) (repeat 0 n) (repeat 0%Z n) ph 0 0).

(** The random fallback (l.146-153): particle [i] draws the values
    following the loop's. *)
Definition fallback (st : placement) : list Q * list Q * list Z :=
  fold_left (fun acc i =>
               let '(xs, ys, ty) := acc in
               let d := (2 * attempts st + 2 * (i - placed st))%nat in
               (set_nth xs i (padding + rnd d * (w - 2 * padding)),
                set_nth ys i (padding + rnd (S d) * (h - 2 * padding)),
                set_nth ty i (roundRobin i tc)))
            (seq (placed st) (n - placed st))
            (pxs st, pys st, ptypes st).

Definition placeParticlesNoOverlap : option (list Q * list Q * list Z) :=
  let* st := placementRun in
  Some (fallback st).

End Placement.

(** [initialize(particleCount, typeCount, interactionMatrix)]. *)
Definition initialize (rnd : nat -> Q) (s : t) (n : nat) (tc : Z)
           (m : list (list Q)) : option t :=
  let* r := placeParticlesNoOverlap rnd (width s) (height s) n tc in
  let '(x, y, ty) := r in
  Some (mk (width s) (height s) x y (repeat 0 n) (repeat 0 n) ty n tc m
           (spatialHash s) (repeat 0 n) (repeat 0 n) (useBruteForce s)
           (interactionRadius s)).

(** ** Configuration calls *)
Inductive call :=
| SetBruteForce (b : bool)
| SetInteractionRadius (r : Q).

Definition runCall (s : t) (c : call) : option t :=
  match c with
  | SetBruteForce b => Some (setBruteForce s b)
  | SetInteractionRadius r => setInteractionRadius s r
  end.

Fixpoint runCalls (s : t) (cs : list call) : option t :=
  match cs with
  | [] => Some s
  | c :: rest => let* s' := runCall s c in runCalls s' rest
  end.

(** The number of complete particle lanes of the four state arrays. *)
Definition lanes (s : t) : nat :=
  Nat.min (length (xs s))
    (Nat.min (length (ys s)) (Nat.min (length (vxs s)) (length (vys s)))).

(** Everything but the four state arrays. *)
Definition frame (s : t) : Q * Q * list Z * nat * Z * list (list Q) *
                           SpatialHash.t * list Q * list Q * bool * Q * nat :=
  (width s, height s, types s, count s, typeCount s, interactionMatrix s,
   spatialHash s, fxs s, fys s, useBruteForce s, interactionRadius s, lanes s).

(** The force phase changes only the accumulators and the grid. *)
Definition kinematics (s : t) :=
  (width s, height s, xs s, ys s, vxs s, vys s, types s, count s,
   interactionMatrix s).

(** A loop over the particles updating each from its own lane. *)
Definition loop (f : nat -> Q * Q * Q * Q -> Q * Q * Q * Q) (s : t) : t :=
  fold_left (fun s' i => setParticle s' i (f i (particle s' i)))
            (seq 0 (count s)) s.

(** [Math.max(lo, Math.min(hi, v))]. *)
Definition clampTo (lo hi v : Q) : Q := JS.max lo (JS.min hi v).

(** [resize(width, height)] (l.216-233).  With a zero old dimension the
    scale factor [width / this.width] is infinite or NaN, which the model
    does not represent: reported as [None] once the loop uses it. *)
Definition resize (s : t) (w h : Q) : option t :=
  let scaleX := w / width s in
  let scaleY := h / height s in
  let* sh := SpatialHash.resize (spatialHash s) w h in
  if ((0 <? count s)%nat && (Qeq_bool (width s) 0 || Qeq_bool (height s) 0))
  then None else
  let s1 := mk w h (xs s) (ys s) (vxs s) (vys s) (types s) (count s)
               (typeCount s) (interactionMatrix s) sh (fxs s) (fys s)
               (useBruteForce s) (interactionRadius s) in
  Some (loop (fun _ p =>
                let '(x, y, vx, vy) := p in
                (clampTo PARTICLE_RADIUS (w - PARTICLE_RADIUS) (x * scaleX),
                 clampTo PARTICLE_RADIUS (h - PARTICLE_RADIUS) (y * scaleY),
                 vx, vy)) s1).

End Sim.

(** ** The matrix editor ([src/src/ui.js], class [UIController]) and its
    callback in [src/src/main.js] *)
Module UI.

(** [Math.round(v)]: the nearest integer, halves rounded up. *)
Definition round (v : Q) : Z := Qfloor (v + (1 # 2)).

(** [Math.round((MATRIX_MIN + r * (MATRIX_MAX - MATRIX_MIN)) * 10) / 10]
    for the draw [r] of [Math.random()]. *)
Definition randomValue (r : Q) : Q :=
  inject_Z (round ((MATRIX_MIN + r * (MATRIX_MAX - MATRIX_MIN)) * 10)) / 10.

(** [removeParticleType(typeIndex)] (ui.js l.237-269) on the editor's
    [typeCount] and [interactionMatrix]: [Some None] is an early return,
    [Some (Some (tc, m))] the new type count and matrix, passed with
    [typeIndex] to [onTypeRemoved].  [this.interactionMatrix[i][j]] is read
    with [Sim.entry]. *)
Definition removeParticleType (typeCount : Z) (m : list (list Q))
           (typeIndex : Z) : option (option (Z * list (list Q))) :=
  let minTypes := 2%Z in
  if (typeCount <=? minTypes)%Z then Some None else
  if ((typeIndex <? 0) || (typeCount <=? typeIndex))%Z then Some None else
  let newSize := (typeCount - 1)%Z in
  let kept := filter (fun i => negb (i =? typeIndex)%Z) (zseq typeCount) in
  let* newMatrix := JS.mapM (fun i => JS.mapM (fun j => Sim.entry m i j) kept)
                            kept in
  Some (Some (newSize, newMatrix)).

(** One cell of the expanded matrix of [addParticleType]: [k] counts the
    draws of [Math.random()] made so far. *)
Definition addCell (rnd : nat -> Q) (typeCount : Z) (m : list (list Q))
           (i : Z) (acc : list Q * nat) (j : Z) : option (list Q * nat) :=
  let '(row, k) := acc in
  if ((i <? typeCount) && (j <? typeCount))%Z
  then let* v := Sim.entry m i j in Some (row ++ [v], k)
  else Some (row ++ [randomValue (rnd k)], S k).

Definition addRow (rnd : nat -> Q) (typeCount : Z) (m : list (list Q))
           (newSize : Z) (acc : list (list Q) * nat) (i : Z)
  : option (list (list Q) * nat) :=
  let '(rows, k) := acc in
  let* r := Sim.foldM (addCell rnd typeCount m i) (zseq newSize) ([], k) in
  Some (rows ++ [fst r], snd r).

(** [addParticleType()] (ui.js l.199-230): [Some None] is the early return
    at [maxTypes], [Some (Some (tc, m))] the new type count and matrix passed
    to the callback. *)
Definition addParticleType (rnd : nat -> Q) (typeCount : Z)
           (m : list (list Q)) : option (option (Z * list (list Q))) :=
  let maxTypes := 8%Z in
  if (maxTypes <=? typeCount)%Z then Some None else
  let newSize := (typeCount + 1)%Z in
  let* r := Sim.foldM (addRow rnd typeCount m newSize) (zseq newSize) ([], 0%nat) in
  Some (Some (newSize, fst r)).

(** A click removing type [typeIndex]: the editor's [removeParticleType]
    and then, through [onTypeRemoved], [handleTypeRemoved] of main.js
    (l.229-237), which calls the engine's [removeParticleType]. *)
Definition removeTypeClick (rnd : nat -> Q) (s : Sim.t) (typeCount : Z)
           (m : list (list Q)) (typeIndex : Z)
  : option (option (Z * list (list Q) * Sim.t)) :=
  let* r := removeParticleType typeCount m typeIndex in
  match r with
  | None => Some None
  | Some (tc, m') =>
      Some (Some (tc, m', Sim.removeParticleType rnd s typeIndex tc m'))
  end.

End UI.

(** ** Concrete inputs used by the witnesses and counterexamples *)
Module Demo.

(** The grid [new SpatialHash(300, 800, 600)] builds. *)
Definition hash800x600 : SpatialHash.t :=
  SpatialHash.mk 300 800 600 3 2 (repeat [] 6).

(** An engine state of an 800 x 600 world. *)
Definition state (xs ys vxs vys : list Q) (types : list Z) (tc : Z)
           (m : list (list Q)) (bf : bool) : Sim.t :=
  Sim.mk 800 600 xs ys vxs vys types (length xs) tc m hash800x600
         (repeat 0 (length xs)) (repeat 0 (length xs)) bf 300.

(** The state of a fresh [new ParticleSimulation(800, 600)]. *)
Definition empty : Sim.t := state [] [] [] [] [] 0 [] true.

(** Four draws of [Math.random()] placing two particles at (10, 10) and
    (700, 10) in a 1000 x 100 world. *)
Definition rnd_two (k : nat) : Q :=
  match k with
  | 0%nat => 6 # 992
  | 1%nat => 6 # 92
  | 2%nat => 696 # 992
  | 3%nat => 6 # 92
  | _ => 0
  end.

(** The state of a fresh [new ParticleSimulation(40, 40)]. *)
Definition empty40 : Sim.t :=
  Sim.mk 40 40 [] [] [] [] [] 0 0 [] (SpatialHash.mk 300 40 40 1 1 [[]])
         [] [] true 300.

(** Four draws placing two particles at (8, 8) and (30, 30) in a 40 x 40
    world. *)
Definition rnd_far (k : nat) : Q :=
  match k with
  | 0%nat => 4 # 32
  | 1%nat => 4 # 32
  | 2%nat => 26 # 32
  | 3%nat => 26 # 32
  | _ => 0
  end.

(** Four draws placing two particles at (10, 10) and (15, 10) in a 40 x 40
    world. *)
Definition rnd_close (k : nat) : Q :=
  match k with
  | 0%nat => 6 # 32
  | 1%nat => 6 # 32
  | 2%nat => 11 # 32
  | 3%nat => 6 # 32
  | _ => 0
  end.

(** [new ParticleSimulation(1000, 100)], [initialize(2, 1, [[1]])], then the
    order of calls of the application's start-up: [setInteractionRadius(1000)]
    (in the default brute-force mode) and [setBruteForce(false)]. *)
Definition staleRun : option Sim.t :=
  let* s := Sim.new 1000 100 in
  let* s := Sim.initialize rnd_two s 2 1 [[1]] in
  Sim.runCalls s [Sim.SetInteractionRadius 1000; Sim.SetBruteForce false].

(** Two moving particles near opposite corners of the 800 x 600 world. *)
Definition pair : Sim.t :=
  state [10; 790] [10; 590] [1; 2] [3; -4] [0%Z; 1%Z] 2 [[1; 2]; [-1; 0]] true.

(** Three particles of types 0, 1 and 2. *)
Definition pair3 : Sim.t :=
  state [10; 400; 790] [10; 300; 590] [0; 0; 0] [0; 0; 0] [0%Z; 1%Z; 2%Z] 3
        [[1; 2; 3]; [4; 5; 6]; [7; 8; 9]] true.

End Demo.

(** ** Predicates of the verification *)

(** All entries are zero. *)
Definition zeros (l : list Q) : Prop := forall k, nth k l 0 == 0.

(** The per-axis rule, stated on (position, velocity) before and after. *)
Definition axis_rule (lo hi p v p' v' : Q) : Prop :=
  (p < lo -> p' = lo /\ v' = Qabs v * (8 # 10) /\ 0 <= v') /\
  (lo <= p -> hi < p -> p' = hi /\ v' = - Qabs v * (8 # 10) /\ v' <= 0) /\
  (lo <= p -> p <= hi -> p' = p /\ v' = v).

(** Pairwise spacing of the first [p] entries. *)
Definition spaced (xs ys : list Q) (p : nat) : Prop :=
  forall i j, (i < p)%nat -> (j < p)%nat -> i <> j ->
    Sim.minDist * Sim.minDist <=
      (nth i xs 0 - nth j xs 0) * (nth i xs 0 - nth j xs 0) +
      (nth i ys 0 - nth j ys 0) * (nth i ys 0 - nth j ys 0).

(** The invariant of the rejection-sampling loop. *)
Definition placement_inv (w h : Q) (n : nat) (st : Sim.placement) : Prop :=
  SpatialHash.wf (Sim.phash st) /\ SpatialHash.cellSize (Sim.phash st) = 4 /\
  SpatialHash.cols (Sim.phash st) = Qceiling (w / 4) /\
  SpatialHash.rows (Sim.phash st) = Qceiling (h / 4) /\
  (Sim.placed st <= n)%nat /\ length (Sim.pxs st) = n /\ length (Sim.pys st) = n /\
  (forall k, (k < Sim.placed st)%nat ->
     SpatialHash.mem (Sim.phash st) k (nth k (Sim.pxs st) 0) (nth k (Sim.pys st) 0)) /\
  spaced (Sim.pxs st) (Sim.pys st) (Sim.placed st).

(** A square root on [Q] that is exact on squares of rationals; it stands in
    for [Math.sqrt] when the engine is run on concrete inputs. *)
Definition sqrtQ (q : Q) : Q :=
  let r := Qred q in
  Z.sqrt (Qnum r) # Z.to_pos (Z.sqrt (Zpos (Qden r))).

(** A square root on [Q] that never underestimates: [1 / den] above the
    integer square root of [num * den], over [den]. *)
Definition sqrtUp (q : Q) : Q :=
  (Z.sqrt (Qnum q * Zpos (Qden q)) + 1) # Qden q.

(** The indices stored in a grid, cell after cell. *)
Definition contents (h : SpatialHash.t) : list nat := concat (SpatialHash.grid h).

(** The sum of an array's entries. *)
Definition sumQ (l : list Q) : Q := fold_right Qplus 0 l.

(** A position in the box [[lo, w - lo]] x [[lo, h - lo]]. *)
Definition inBox (lo w h x y : Q) : Prop := lo <= x <= w - lo /\ lo <= y <= h - lo.

(** A [typeCount] x [typeCount] matrix. *)
Definition square (tc : Z) (m : list (list Q)) : Prop :=
  length m = Z.to_nat tc /\ forall row, In row m -> length row = Z.to_nat tc.



(** What [addParticleType] puts in cell (i, j) of the expanded matrix. *)
Definition addedCell (tc : Z) (m : list (list Q)) (i j : Z) (v : Q) : Prop :=
  ((i < tc /\ j < tc)%Z -> Sim.entry m i j = Some v) /\
  (~ (i < tc /\ j < tc)%Z -> MATRIX_MIN <= v <= MATRIX_MAX).

(** The accumulators as [update] leaves them: fixed lengths, zero sums. *)
Definition balanced (Lx Ly : nat) (acc : list Q * list Q) : Prop :=
  length (fst acc) = Lx /\ length (snd acc) = Ly /\
  sumQ (fst acc) == 0 /\ sumQ (snd acc) == 0.

(** [new Array(cols * rows)] in the [SpatialHash] constructor throws a
    [RangeError] for a length above [2^32 - 1]; [SpatialHash.alloc] does not
    model that bound, so a theorem that builds grids states it. *)
Definition gridFits (cs w h : Q) : Prop :=
  (Qceiling (w / cs) * Qceiling (h / cs) <= 4294967295)%Z.


(** * Proofs *)

(** ** Lists *)
Section ListFacts.
Context {A : Type}.

Lemma length_set_nth (l : list A) i v : length (set_nth l i v) = length l.
Proof. revert i; induction l; intros [|i]; simpl; auto. Qed.

Lemma nth_set_nth_same (l : list A) i v d :
  (i < length l)%nat -> nth i (set_nth l i v) d = v.
Proof.
  revert i; induction l; intros [|i] Hi; simpl in *; try lia; auto.
  apply IHl; lia.
Qed.

Lemma nth_set_nth_other (l : list A) i j v d :
  i <> j -> nth j (set_nth l i v) d = nth j l d.
Proof.
  revert i j; induction l; intros [|i] [|j] Hij; simpl; auto; try lia.
Qed.

Lemma nth_error_set_nth (l : list A) i j v :
  nth_error (set_nth l i v) j =
  if Nat.eqb i j then (if Nat.ltb i (length l) then Some v else None)
  else nth_error l j.
Proof.
  revert i j; induction l; intros [|i] [|j]; simpl; auto;
    try (destruct (_ =? _)%nat; reflexivity).
Qed.

End ListFacts.

(** ** Floors of quotients *)
Lemma floor_close (a b : Q) : a - b <= 1 -> (Qfloor a <= Qfloor b + 1)%Z.
Proof.
  intros H.
  pose proof (Qfloor_le a) as Ha. pose proof (Qlt_floor b) as Hb.
  assert (Hlt : inject_Z (Qfloor a) < inject_Z (Qfloor b + 2)).
  { rewrite !inject_Z_plus in *. change (inject_Z 2) with 2.
    change (inject_Z 1) with 1 in Hb. lra. }
  rewrite <- Zlt_Qlt in Hlt. lia.
Qed.

Lemma div_close (x1 x2 c : Q) : 0 < c -> x1 - x2 <= c -> x1 / c - x2 / c <= 1.
Proof.
  intros Hc H.
  assert (E : x1 / c - x2 / c == (x1 - x2) * / c) by (field; lra).
  rewrite E.
  assert (E1 : 1 == c * / c) by (field; lra).
  rewrite E1. apply Qmult_le_compat_r; [exact H|].
  apply Qinv_le_0_compat; lra.
Qed.

Lemma div_nonneg (x c : Q) : 0 < c -> 0 <= x -> 0 <= x / c.
Proof.
  intros Hc Hx. unfold Qdiv.
  apply Qmult_le_0_compat; [exact Hx|]. apply Qinv_le_0_compat; lra.
Qed.

Lemma div_mono (x y c : Q) : 0 < c -> x <= y -> x / c <= y / c.
Proof.
  intros Hc H. unfold Qdiv. apply Qmult_le_compat_r; [exact H|].
  apply Qinv_le_0_compat; lra.
Qed.

Lemma floor_nonneg (a : Q) : 0 <= a -> (0 <= Qfloor a)%Z.
Proof. intros H. change 0%Z with (Qfloor 0). now apply Qfloor_resp_le. Qed.

Lemma floor_le_ceiling (a b : Q) : a <= b -> (Qfloor a <= Qceiling b)%Z.
Proof.
  intros H. pose proof (Qfloor_resp_le _ _ H).
  pose proof (Qle_floor_ceiling b) as Hb. rewrite <- Zle_Qle in Hb. lia.
Qed.

Lemma ceiling_pos (a : Q) : 0 < a -> (1 <= Qceiling a)%Z.
Proof.
  intros H. pose proof (Qle_ceiling a) as Ha.
  assert (0 < inject_Z (Qceiling a)) by lra.
  change 0 with (inject_Z 0) in H0. rewrite <- Zlt_Qlt in H0. lia.
Qed.

Lemma div_pos (x c : Q) : 0 < c -> 0 < x -> 0 < x / c.
Proof. intros Hc Hx. apply Qlt_shift_div_l; [exact Hc|]. lra. Qed.

(** ** The spatial hash *)
Module HashFacts.
Import SpatialHash.

Lemma new_wf cs w h h0 :
  0 < cs -> 0 < w -> 0 < h -> new cs w h = Some h0 ->
  wf h0 /\ cellSize h0 = cs /\ cols h0 = Qceiling (w / cs) /\
  rows h0 = Qceiling (h / cs).
Proof.
  intros Hc Hw Hh E. unfold new in E.
  destruct (Qeq_bool cs 0) eqn:Ez.
  { apply Qeq_bool_iff in Ez. lra. }
  pose proof (ceiling_pos _ (div_pos w cs Hc Hw)) as Cw.
  pose proof (ceiling_pos _ (div_pos h cs Hc Hh)) as Ch.
  unfold alloc in E; simpl in E.
  destruct (Qceiling (w / cs) * Qceiling (h / cs) <? 0)%Z eqn:En.
  { apply Z.ltb_lt in En. nia. }
  simpl in E. inversion E; subst; clear E.
  unfold wf; simpl. rewrite repeat_length. repeat split; auto.
Qed.

Lemma getCellIndex_range h x y :
  wf h -> (0 <= getCellIndex h x y < cols h * rows h)%Z.
Proof.
  intros (Hc & Hcols & Hrows & Hlen). unfold getCellIndex.
  set (cc := Z.max 0 (Z.min (cols h - 1) (Qfloor (x / cellSize h)))).
  set (cr := Z.max 0 (Z.min (rows h - 1) (Qfloor (y / cellSize h)))).
  assert (0 <= cc <= cols h - 1)%Z by lia.
  assert (0 <= cr <= rows h - 1)%Z by lia.
  nia.
Qed.

Lemma cell_inrange h i :
  wf h -> (0 <= i < cols h * rows h)%Z -> exists cl, cell h i = Some cl.
Proof.
  intros W Hi. pose proof W as (Hc & Hcols & Hrows & Hlen). unfold cell.
  destruct (i <? 0)%Z eqn:E; [apply Z.ltb_lt in E; lia|].
  destruct (nth_error (grid h) (Z.to_nat i)) eqn:N; [eauto|].
  apply nth_error_None in N. lia.
Qed.

Lemma getCellIndex_shape h h' x y :
  cellSize h' = cellSize h -> cols h' = cols h -> rows h' = rows h ->
  getCellIndex h' x y = getCellIndex h x y.
Proof. intros E1 E2 E3. unfold getCellIndex. now rewrite E1, E2, E3. Qed.

(** [insert] keeps the shape of the grid. *)
Lemma insert_shape h k x y h' :
  insert h k x y = Some h' ->
  cellSize h' = cellSize h /\ cols h' = cols h /\ rows h' = rows h /\
  length (grid h') = length (grid h).
Proof.
  unfold insert. destruct (cell h (getCellIndex h x y)); simpl; intros E;
    inversion E; subst; simpl; repeat split; auto using length_set_nth.
Qed.

Lemma insert_wf h k x y h' : wf h -> insert h k x y = Some h' -> wf h'.
Proof.
  intros (Hc & Hcols & Hrows & Hlen) E.
  destruct (insert_shape _ _ _ _ _ E) as (E1 & E2 & E3 & E4).
  unfold wf. rewrite E1, E2, E3, E4. auto.
Qed.

Lemma insert_total h k x y : wf h -> exists h', insert h k x y = Some h'.
Proof.
  intros W. destruct (cell_inrange h (getCellIndex h x y) W
                        (getCellIndex_range h x y W)) as [cl E].
  unfold insert. rewrite E. simpl. eauto.
Qed.

Lemma cell_nonneg h i cl : cell h i = Some cl -> (0 <= i)%Z.
Proof. unfold cell. destruct (i <? 0)%Z eqn:E; [discriminate|]. lia. Qed.

Lemma insert_mem_new h k x y h' : insert h k x y = Some h' -> mem h' k x y.
Proof.
  intros E. pose proof (insert_shape _ _ _ _ _ E) as (E1 & E2 & E3 & _).
  unfold mem. rewrite (getCellIndex_shape h h' x y E1 E2 E3).
  unfold insert in E.
  destruct (cell h (getCellIndex h x y)) as [c|] eqn:C; [|discriminate].
  simpl in E. inversion E; subst; clear E.
  exists (c ++ [k]). split; [|apply in_or_app; simpl; auto].
  pose proof (cell_nonneg _ _ _ C) as Hnn.
  unfold cell in *. simpl.
  destruct (getCellIndex h x y <? 0)%Z; [discriminate|].
  rewrite nth_error_set_nth, Nat.eqb_refl.
  assert (Z.to_nat (getCellIndex h x y) < length (grid h))%nat.
  { apply nth_error_Some. congruence. }
  apply Nat.ltb_lt in H. now rewrite H.
Qed.

Lemma insert_mem_old h k x y h' k2 x2 y2 :
  insert h k x y = Some h' -> mem h k2 x2 y2 -> mem h' k2 x2 y2.
Proof.
  intros E [cl [C2 I2]].
  pose proof (insert_shape _ _ _ _ _ E) as (E1 & E2 & E3 & _).
  unfold mem. rewrite (getCellIndex_shape h h' x2 y2 E1 E2 E3).
  unfold insert in E.
  destruct (cell h (getCellIndex h x y)) as [c|] eqn:C; [|discriminate].
  simpl in E. inversion E; subst; clear E.
  unfold cell in *; simpl.
  destruct (getCellIndex h x2 y2 <? 0)%Z; [discriminate|].
  destruct (getCellIndex h x y <? 0)%Z; [discriminate|].
  rewrite nth_error_set_nth.
  destruct (Z.to_nat (getCellIndex h x y) =? Z.to_nat (getCellIndex h x2 y2))%nat
    eqn:Eq.
  - apply Nat.eqb_eq in Eq. rewrite Eq in C. rewrite C in C2.
    inversion C2; subst.
    assert (Z.to_nat (getCellIndex h x y) < length (grid h))%nat.
    { apply nth_error_Some. congruence. }
    apply Nat.ltb_lt in H. rewrite H.
    exists (cl ++ [k]). split; auto. apply in_or_app; auto.
  - exists cl. auto.
Qed.

Lemma insertAll_shape h pts h' :
  insertAll h pts = Some h' ->
  cellSize h' = cellSize h /\ cols h' = cols h /\ rows h' = rows h /\
  length (grid h') = length (grid h).
Proof.
  revert h; induction pts as [|[k [x y]] rest IH]; intros h E; simpl in E.
  - inversion E; auto.
  - destruct (insert h k x y) as [h1|] eqn:E1; [|discriminate].
    simpl in E. destruct (IH _ E) as (A1 & A2 & A3 & A4).
    destruct (insert_shape _ _ _ _ _ E1) as (B1 & B2 & B3 & B4).
    repeat split; congruence.
Qed.

Lemma insertAll_wf h pts h' : wf h -> insertAll h pts = Some h' -> wf h'.
Proof.
  intros (Hc & Hcols & Hrows & Hlen) E.
  destruct (insertAll_shape _ _ _ E) as (E1 & E2 & E3 & E4).
  unfold wf. rewrite E1, E2, E3, E4. auto.
Qed.

Lemma insertAll_mem_old h pts h' k x y :
  insertAll h pts = Some h' -> mem h k x y -> mem h' k x y.
Proof.
  revert h; induction pts as [|[k0 [x0 y0]] rest IH]; intros h E M;
    simpl in E.
  - now inversion E; subst.
  - destruct (insert h k0 x0 y0) as [h1|] eqn:E1; [|discriminate].
    simpl in E. eapply IH; [exact E|]. eapply insert_mem_old; eauto.
Qed.

Lemma insertAll_mem h pts h' k x y :
  insertAll h pts = Some h' -> In (k, (x, y)) pts -> mem h' k x y.
Proof.
  revert h; induction pts as [|[k0 [x0 y0]] rest IH]; intros h E I;
    simpl in E.
  - destruct I.
  - destruct (insert h k0 x0 y0) as [h1|] eqn:E1; [|discriminate].
    simpl in E. destruct I as [I|I].
    + inversion I; subst. eapply insertAll_mem_old; [exact E|].
      eapply insert_mem_new; eauto.
    + eapply IH; eauto.
Qed.

Lemma inRange_iff h r c :
  inRange h r c = true <-> (0 <= c < cols h /\ 0 <= r < rows h)%Z.
Proof.
  unfold inRange. rewrite !andb_true_iff, !Z.leb_le, !Z.ltb_lt. tauto.
Qed.

Lemma collect_in h cs r c cl k l :
  collect h cs = Some l -> In (r, c) cs -> inRange h r c = true ->
  cell h (r * cols h + c)%Z = Some cl -> In k cl -> In k l.
Proof.
  revert l; induction cs as [|[r0 c0] rest IH]; intros l E I R C K;
    [destruct I|].
  simpl in E. fold (inRange h r0 c0) in E.
  destruct (inRange h r0 c0) eqn:R0.
  - destruct (cell h (r0 * cols h + c0)%Z) as [cl0|] eqn:C0; [|discriminate].
    simpl in E. destruct (collect h rest) as [tl|] eqn:T; [|discriminate].
    simpl in E. inversion E; subst. apply in_or_app.
    destruct I as [I|I].
    + inversion I; subst. rewrite C in C0. inversion C0; subst. auto.
    + right. eapply IH; eauto.
  - destruct I as [I|I].
    + inversion I; subst. congruence.
    + eapply IH; eauto.
Qed.

Lemma collect_total h cs :
  wf h -> exists l, collect h cs = Some l.
Proof.
  intros W. pose proof W as (Hc & Hcols & Hrows & Hlen).
  induction cs as [|[r c] rest IH]; simpl; [eauto|].
  fold (inRange h r c).
  destruct (inRange h r c) eqn:R; [|exact IH].
  apply inRange_iff in R.
  destruct (cell_inrange h (r * cols h + c) W) as [cl C]; [nia|].
  rewrite C. simpl. destruct IH as [tl T]. rewrite T. simpl. eauto.
Qed.

Lemma getNearby_total h x y : wf h -> exists l, getNearby h x y = Some l.
Proof. intros W. apply collect_total, W. Qed.

Lemma block_in row col r c :
  (row - 1 <= r <= row + 1)%Z -> (col - 1 <= c <= col + 1)%Z ->
  In (r, c) (block row col).
Proof.
  intros Hr Hc. unfold block, offsets; simpl.
  assert (r = row + -1 \/ r = row + 0 \/ r = row + 1)%Z as Dr by lia.
  assert (c = col + -1 \/ c = col + 0 \/ c = col + 1)%Z as Dc by lia.
  destruct Dr as [-> | [-> | ->]]; destruct Dc as [-> | [-> | ->]];
    tauto.
Qed.

(** The clamped cell of a point lies within one cell of the unclamped cell
    of any query point within [cellSize] whose cell is at most one cell
    outside the grid. *)
Lemma clamp_near (n col1 col2 : Z) :
  (1 <= n)%Z -> (-1 <= col1 <= n)%Z -> (col2 <= col1 + 1)%Z ->
  (col1 <= col2 + 1)%Z ->
  let cc := Z.max 0 (Z.min (n - 1) col2) in
  (col1 - 1 <= cc <= col1 + 1 /\ 0 <= cc < n)%Z.
Proof. intros; simpl; lia. Qed.

Lemma getNearby_sound h x1 y1 x2 y2 k l :
  wf h ->
  (-1 <= Qfloor (x1 / cellSize h) <= cols h)%Z ->
  (-1 <= Qfloor (y1 / cellSize h) <= rows h)%Z ->
  Qabs (x1 - x2) <= cellSize h -> Qabs (y1 - y2) <= cellSize h ->
  mem h k x2 y2 -> getNearby h x1 y1 = Some l -> In k l.
Proof.
  intros W Hx Hy Dx Dy [cl [C K]] G.
  pose proof W as (Hc & Hcols & Hrows & Hlen).
  apply Qabs_Qle_condition in Dx, Dy.
  assert (X1 : (Qfloor (x1 / cellSize h) <= Qfloor (x2 / cellSize h) + 1)%Z)
    by (apply floor_close, div_close; lra).
  assert (X2 : (Qfloor (x2 / cellSize h) <= Qfloor (x1 / cellSize h) + 1)%Z)
    by (apply floor_close, div_close; lra).
  assert (Y1 : (Qfloor (y1 / cellSize h) <= Qfloor (y2 / cellSize h) + 1)%Z)
    by (apply floor_close, div_close; lra).
  assert (Y2 : (Qfloor (y2 / cellSize h) <= Qfloor (y1 / cellSize h) + 1)%Z)
    by (apply floor_close, div_close; lra).
  pose proof (clamp_near _ _ _ Hcols Hx X2 X1) as Cc.
  pose proof (clamp_near _ _ _ Hrows Hy Y2 Y1) as Cr.
  simpl in Cc, Cr.
  unfold getNearby in G. unfold getCellIndex in C.
  eapply collect_in; [exact G| | | exact C | exact K].
  - apply block_in; lia.
  - apply inRange_iff; lia.
Qed.

(** Positions of the world rectangle have their cell at most one cell
    outside the grid. *)
Lemma world_cell_range (cs w x : Q) :
  0 < cs -> 0 < w -> 0 <= x <= w ->
  (-1 <= Qfloor (x / cs) <= Qceiling (w / cs))%Z.
Proof.
  intros Hc Hw Hx.
  pose proof (floor_nonneg _ (div_nonneg x cs Hc (proj1 Hx))).
  pose proof (floor_le_ceiling _ _ (div_mono x w cs Hc (proj2 Hx))).
  lia.
Qed.

End HashFacts.

(** Concrete comparisons of rationals, decided by evaluation. *)
Ltac qcheck :=
  repeat split;
  vm_compute;
  first [ reflexivity | discriminate | (intro; discriminate) ].

(** One direction of the soundness of [getNearby] for a freshly built and
    filled grid. *)
Lemma getNearby_finds_inserted (cs w hgt : Q) h0 h pts k2 x1 y1 x2 y2 :
  0 < cs -> 0 < w -> 0 < hgt ->
  SpatialHash.new cs w hgt = Some h0 ->
  SpatialHash.insertAll h0 pts = Some h ->
  In (k2, (x2, y2)) pts ->
  0 <= x1 <= w -> 0 <= y1 <= hgt ->
  Qabs (x1 - x2) <= cs -> Qabs (y1 - y2) <= cs ->
  exists l, SpatialHash.getNearby h x1 y1 = Some l /\ In k2 l.
Proof.
  intros Hc Hw Hh N I P Hx1 Hy1 Dx Dy.
  destruct (HashFacts.new_wf _ _ _ _ Hc Hw Hh N) as (W0 & Ecs & Ecols & Erows).
  pose proof (HashFacts.insertAll_wf _ _ _ W0 I) as W.
  destruct (HashFacts.insertAll_shape _ _ _ I) as (S1 & S2 & S3 & _).
  destruct (HashFacts.getNearby_total h x1 y1 W) as [l G].
  exists l. split; [exact G|].
  eapply HashFacts.getNearby_sound; [exact W | | | | |
    eapply HashFacts.insertAll_mem; eauto | exact G].
  - rewrite S1, S2, Ecs, Ecols. apply HashFacts.world_cell_range; auto.
  - rewrite S1, S3, Ecs, Erows. apply HashFacts.world_cell_range; auto.
  - rewrite S1, Ecs. exact Dx.
  - rewrite S1, Ecs. exact Dy.
Qed.

(** Extra X17.  Soundness of the spatial index on the world rectangle: for a grid built by [new SpatialHash(cellSize, width, height)]
    with positive sizes and filled by [insert], any two inserted points lying
    in [0, width] x [0, height] and within [cellSize] of each other along both
    axes each appear in the [getNearby] result at the other's position. *)
Theorem getNearby_sound_in_world (cs w hgt : Q) h0 h pts k1 x1 y1 k2 x2 y2 :
  0 < cs -> 0 < w -> 0 < hgt ->
  SpatialHash.new cs w hgt = Some h0 ->
  SpatialHash.insertAll h0 pts = Some h ->
  In (k1, (x1, y1)) pts -> In (k2, (x2, y2)) pts ->
  0 <= x1 <= w -> 0 <= y1 <= hgt -> 0 <= x2 <= w -> 0 <= y2 <= hgt ->
  Qabs (x1 - x2) <= cs -> Qabs (y1 - y2) <= cs ->
  (exists l1, SpatialHash.getNearby h x1 y1 = Some l1 /\ In k2 l1) /\
  (exists l2, SpatialHash.getNearby h x2 y2 = Some l2 /\ In k1 l2).
Proof.
  intros Hc Hw Hh N I P1 P2 Hx1 Hy1 Hx2 Hy2 Dx Dy. split.
  - exact (getNearby_finds_inserted cs w hgt h0 h pts k2 x1 y1 x2 y2
             Hc Hw Hh N I P2 Hx1 Hy1 Dx Dy).
  - apply (getNearby_finds_inserted cs w hgt h0 h pts k1 x2 y2 x1 y1
             Hc Hw Hh N I P1 Hx2 Hy2).
    + now rewrite Qabs_Qminus.
    + now rewrite Qabs_Qminus.
Qed.

(** Witness for [getNearby_sound_in_world]: a 1 x 1 grid holding two points
    at opposite corners. *)
Lemma getNearby_sound_in_world_witness :
  SpatialHash.new 1 1 1 = Some (SpatialHash.mk 1 1 1 1 1 [[]]) /\
  SpatialHash.insertAll (SpatialHash.mk 1 1 1 1 1 [[]])
    [(0%nat, (0, 0)); (1%nat, (1, 1))] =
    Some (SpatialHash.mk 1 1 1 1 1 [[0%nat; 1%nat]]) /\
  ((exists l1, SpatialHash.getNearby (SpatialHash.mk 1 1 1 1 1 [[0%nat; 1%nat]])
                 0 0 = Some l1 /\ In 1%nat l1) /\
   (exists l2, SpatialHash.getNearby (SpatialHash.mk 1 1 1 1 1 [[0%nat; 1%nat]])
                 1 1 = Some l2 /\ In 0%nat l2)).
Proof.
  split; [reflexivity|]. split; [reflexivity|].
  apply (getNearby_sound_in_world 1 1 1 (SpatialHash.mk 1 1 1 1 1 [[]])
           (SpatialHash.mk 1 1 1 1 1 [[0%nat; 1%nat]])
           [(0%nat, (0, 0)); (1%nat, (1, 1))] 0%nat 0 0 1%nat 1 1);
    try reflexivity; try (simpl; tauto); qcheck.
Defined.

(** Claim C1: code bug.  [getNearby] does not clamp the query cell as
    [getCellIndex] clamps the cell [insert] stores into: in a 1 x 1 grid of
    cell size 1, points inserted at (-2, 0) and (-1.5, 0), within [cellSize]
    of each other, are both stored in the clamped cell 0, while the query at
    (-2, 0) scans columns -3..-1 only and returns nothing, not even the
    queried particle's own cell that its documentation promises. *)
Lemma getNearby_misses_outside_grid :
  (let* h0 := SpatialHash.new 1 1 1 in
   let* h := SpatialHash.insertAll h0 [(0%nat, (-2, 0)); (1%nat, (-3 # 2, 0))] in
   SpatialHash.getNearby h (-2) 0) = Some [] /\
  Qabs (-2 - (-3 # 2)) <= 1 /\ Qabs (0 - 0) <= 1.
Proof. split; [vm_compute; reflexivity|]. qcheck. Qed.

(** ** Loops that update each index from its own previous value *)
Section Lanes.
Variables (St P : Type) (get : St -> nat -> P) (set : St -> nat -> P -> St)
          (size : St -> nat).
Hypothesis get_set_same : forall s i p, (i < size s)%nat -> get (set s i p) i = p.
Hypothesis get_set_other : forall s i j p, i <> j -> get (set s i p) j = get s j.
Hypothesis size_set : forall s i p, size (set s i p) = size s.
Variable f : nat -> P -> P.

Lemma fold_lanes a m s k :
  (a + m <= size s)%nat ->
  get (fold_left (fun s' i => set s' i (f i (get s' i))) (seq a m) s) k =
  if ((a <=? k) && (k <? a + m))%nat then f k (get s k) else get s k.
Proof.
  revert a s; induction m as [|m IH]; intros a s Hs; simpl.
  - destruct ((a <=? k) && (k <? a + 0))%nat eqn:E; auto.
    apply andb_true_iff in E as [E1 E2].
    apply Nat.leb_le in E1; apply Nat.ltb_lt in E2; lia.
  - rewrite IH by (rewrite size_set; lia).
    destruct (Nat.eq_dec a k) as [->|Hne].
    + rewrite (Nat.leb_refl k).
      replace ((S k <=? k)%nat) with false by (symmetry; apply Nat.leb_gt; lia).
      replace ((k <? k + S m)%nat) with true by (symmetry; apply Nat.ltb_lt; lia).
      simpl. apply get_set_same; lia.
    + rewrite get_set_other by exact Hne.
      destruct (Nat.le_gt_cases (S a) k) as [H1|H1].
      * replace ((S a <=? k)%nat) with true by (symmetry; apply Nat.leb_le; lia).
        replace ((a <=? k)%nat) with true by (symmetry; apply Nat.leb_le; lia).
        replace ((k <? S a + m)%nat) with ((k <? a + S m)%nat)
          by (f_equal; lia).
        reflexivity.
      * replace ((S a <=? k)%nat) with false by (symmetry; apply Nat.leb_gt; lia).
        replace ((a <=? k)%nat) with false by (symmetry; apply Nat.leb_gt; lia).
        reflexivity.
Qed.

End Lanes.

Lemma fold_set_nth_pointwise {A} (f : nat -> A -> A) (d : A) (l : list A) n k :
  (n <= length l)%nat ->
  nth k (fold_left (fun acc i => set_nth acc i (f i (nth i acc d))) (seq 0 n) l) d =
  if (k <? n)%nat then f k (nth k l d) else nth k l d.
Proof.
  intros Hn.
  rewrite (fold_lanes (list A) A (fun l i => nth i l d) set_nth (@length A)).
  - simpl. reflexivity.
  - intros. now apply nth_set_nth_same.
  - intros. now apply nth_set_nth_other.
  - intros. apply length_set_nth.
  - simpl. exact Hn.
Qed.

Lemma fold_invariant {A B} (P : A -> Prop) (g : A -> B -> A) (l : list B) (a : A) :
  P a -> (forall a b, P a -> P (g a b)) -> P (fold_left g l a).
Proof. revert a; induction l; simpl; auto. Qed.

(** ** Type removal *)

Lemma remapType_bounds (removedIndex newTypeCount : Z) (r : Q) (t : Z) :
  0 <= r < 1 -> (0 <= removedIndex)%Z -> (1 <= newTypeCount)%Z ->
  (0 <= t < 256)%Z ->
  let t' := Sim.remapType removedIndex newTypeCount r t in
  (t = removedIndex -> 0 <= t' < newTypeCount)%Z /\
  (removedIndex < t -> t' = t - 1)%Z /\
  (t < removedIndex -> t' = t)%Z.
Proof.
  intros Hr Hri Hn Ht. cbv zeta. unfold Sim.remapType, toUint8.
  destruct (Z.eqb_spec t removedIndex) as [E|E].
  - split; [|split; intros; lia]. intros _.
    set (v := Qfloor (r * inject_Z newTypeCount)).
    assert (Hv : (0 <= v < newTypeCount)%Z).
    { assert (Hn' : 1 <= inject_Z newTypeCount)
        by (change 1 with (inject_Z 1); rewrite <- Zle_Qle; exact Hn).
      split.
      - apply floor_nonneg. apply Qmult_le_0_compat; lra.
      - pose proof (Qfloor_le (r * inject_Z newTypeCount)) as F.
        fold v in F.
        assert (0 < (1 - r) * inject_Z newTypeCount)
          by (apply Qmult_lt_0_compat; lra).
        assert (Hlt : inject_Z v < inject_Z newTypeCount) by lra.
        rewrite <- Zlt_Qlt in Hlt. exact Hlt. }
    pose proof (Z.mod_le v 256 (proj1 Hv) ltac:(lia)).
    pose proof (Z.mod_pos_bound v 256 ltac:(lia)). lia.
  - destruct (Z.ltb_spec removedIndex t) as [L|L].
    + split; [intros; lia|]. split; [|intros; lia]. intros _.
      rewrite Z.mod_small by lia. reflexivity.
    + split; [intros; lia|]. split; intros; [lia|reflexivity].
Qed.

(** Claim C7.  For the indices the only caller passes (the editor's
    [removeParticleType] returns early unless [0 <= typeIndex < typeCount]
    and [typeCount > 2], and passes [newTypeCount = typeCount - 1]) and
    random draws in [0, 1), [removeParticleType] gives every particle of the
    removed type a type in [0, newTypeCount), decrements every type above
    [removedIndex], keeps every type below it, and each new type is a
    function of the particle's own prior type (and its own random draw).
    When moreover [newTypeCount = typeCount - 1], [removedIndex < typeCount]
    and all prior types lie in [0, typeCount), no particle ends with a type
    outside [0, newTypeCount). *)
Theorem removeParticleType_remaps (rnd : nat -> Q) (s : Sim.t)
        (removedIndex newTypeCount : Z) (newMatrix : list (list Q)) :
  (forall i, 0 <= rnd i < 1) ->
  (0 <= removedIndex)%Z -> (1 <= newTypeCount)%Z ->
  length (Sim.types s) = Sim.count s ->
  (forall i, (i < Sim.count s)%nat -> 0 <= nth i (Sim.types s) 0 < 256)%Z ->
  let s' := Sim.removeParticleType rnd s removedIndex newTypeCount newMatrix in
  Sim.typeCount s' = newTypeCount /\
  (forall i, (i < Sim.count s)%nat ->
     let t := nth i (Sim.types s) 0%Z in
     let t' := nth i (Sim.types s') 0%Z in
     (t = removedIndex -> 0 <= t' < newTypeCount)%Z /\
     (removedIndex < t -> t' = t - 1)%Z /\
     (t < removedIndex -> t' = t)%Z /\
     t' = Sim.remapType removedIndex newTypeCount (rnd i) t) /\
  ((Sim.typeCount s = newTypeCount + 1)%Z -> (removedIndex < Sim.typeCount s)%Z ->
   (forall i, (i < Sim.count s)%nat -> 0 <= nth i (Sim.types s) 0 < Sim.typeCount s)%Z ->
   forall i, (i < Sim.count s)%nat -> (0 <= nth i (Sim.types s') 0 < newTypeCount)%Z).
Proof.
  intros Hr Hri Hn Hlen Hty s'.
  assert (Hnth : forall i, (i < Sim.count s)%nat ->
            nth i (Sim.types s') 0%Z =
            Sim.remapType removedIndex newTypeCount (rnd i) (nth i (Sim.types s) 0%Z)).
  { intros i Hi. unfold s', Sim.removeParticleType. simpl.
    rewrite (fold_set_nth_pointwise
               (fun i t => Sim.remapType removedIndex newTypeCount (rnd i) t))
      by lia.
    apply Nat.ltb_lt in Hi. now rewrite Hi. }
  split; [reflexivity|]. split.
  - intros i Hi. rewrite (Hnth i Hi).
    pose proof (remapType_bounds removedIndex newTypeCount (rnd i)
                  (nth i (Sim.types s) 0%Z) (Hr i) Hri Hn (Hty i Hi)) as B.
    simpl in B. destruct B as (B1 & B2 & B3). auto.
  - intros Etc Hrc Hall i Hi. rewrite (Hnth i Hi).
    pose proof (remapType_bounds removedIndex newTypeCount (rnd i)
                  (nth i (Sim.types s) 0%Z) (Hr i) Hri Hn (Hty i Hi)) as B.
    simpl in B. destruct B as (B1 & B2 & B3).
    pose proof (Hall i Hi).
    destruct (Z.lt_trichotomy (nth i (Sim.types s) 0%Z) removedIndex)
      as [L|[L|L]].
    + rewrite (B3 L). lia.
    + exact (B1 L).
    + rewrite (B2 L). lia.
Qed.

(** Witness for [removeParticleType_remaps]: types [0; 1; 2] of three types,
    type 1 removed, the random draw 0.5. *)
Lemma removeParticleType_remaps_witness :
  let s := Demo.state [10; 20; 30] [10; 20; 30] [0; 0; 0] [0; 0; 0]
                      [0%Z; 1%Z; 2%Z] 3 [[0; 0]; [0; 0]] true in
  Sim.types (Sim.removeParticleType (fun _ => 1 # 2) s 1 2 [[0; 0]; [0; 0]])
    = [0%Z; 1%Z; 1%Z] /\
  (forall i, (i < Sim.count s)%nat ->
     let t := nth i (Sim.types s) 0%Z in
     let t' := nth i (Sim.types
                 (Sim.removeParticleType (fun _ => 1 # 2) s 1 2 [[0; 0]; [0; 0]]))
                 0%Z in
     (t = 1 -> 0 <= t' < 2)%Z /\ (1 < t -> t' = t - 1)%Z /\ (t < 1 -> t' = t)%Z /\
     t' = Sim.remapType 1 2 (1 # 2) t).
Proof.
  intros s. split; [vm_compute; reflexivity|].
  apply (removeParticleType_remaps (fun _ => 1 # 2) s 1 2 [[0; 0]; [0; 0]]).
  - intros _. qcheck.
  - lia.
  - lia.
  - reflexivity.
  - intros i Hi. simpl in Hi.
    destruct i as [|[|[|i]]]; simpl; lia.
Defined.

(** ** The empty simulation *)

(** Claim C9.  [update(dt)] on a simulation with no particles returns at
    once: the state is returned unchanged (no force reset, no grid rebuild,
    no change of positions, velocities or types). *)
Theorem update_empty_noop (sqrt : Q -> Q) (s : Sim.t) (dt : Q) :
  Sim.count s = 0%nat -> Sim.update sqrt s dt = Some s.
Proof. intros H. unfold Sim.update. now rewrite H. Qed.

(** Witness for [update_empty_noop]: a fresh 800 x 600 simulation. *)
Lemma update_empty_noop_witness :
  Sim.new 800 600 = Some Demo.empty /\
  Sim.update sqrtQ Demo.empty (1 # 60) = Some Demo.empty.
Proof.
  split; [vm_compute; reflexivity|].
  apply update_empty_noop. reflexivity.
Defined.

(** ** Mode switching *)

Lemma last_default {A} (l : list A) (d d' : A) :
  l <> [] -> last l d = last l d'.
Proof.
  induction l as [|a [|b l] IH]; intros H; [congruence|reflexivity|].
  simpl in *. apply IH. discriminate.
Qed.

Lemma last_cons {A} (a : A) (l : list A) (d : A) :
  last (a :: l) d = last l a.
Proof.
  destruct l as [|b l]; [reflexivity|].
  change (last (b :: l) d = last (b :: l) a). apply last_default. discriminate.
Qed.

(** Claim C10.  [setBruteForce(b)] changes only the flag;
    [setInteractionRadius(r)] rebuilds the grid (with cell size [r]) only
    when [useBruteForce] is false; so after any run of radius changes made in
    brute-force mode followed by [setBruteForce(false)], the grid (and its
    cell size) is the one held before, while [interactionRadius] is the last
    radius set. *)
Theorem mode_switch_keeps_hash (s : Sim.t) (rs : list Q) :
  Sim.useBruteForce s = true ->
  (forall b, Sim.setBruteForce s b =
     Sim.mk (Sim.width s) (Sim.height s) (Sim.xs s) (Sim.ys s) (Sim.vxs s)
            (Sim.vys s) (Sim.types s) (Sim.count s) (Sim.typeCount s)
            (Sim.interactionMatrix s) (Sim.spatialHash s) (Sim.fxs s)
            (Sim.fys s) b (Sim.interactionRadius s)) /\
  (forall r, Sim.setInteractionRadius s r = Some (Sim.with_radius s r)) /\
  (forall r, Sim.setInteractionRadius (Sim.setBruteForce s false) r =
     let* h := SpatialHash.new r (Sim.width s) (Sim.height s) in
     Some (Sim.with_hash (Sim.with_radius (Sim.setBruteForce s false) r) h)) /\
  exists s', Sim.runCalls s (map Sim.SetInteractionRadius rs ++
                             [Sim.SetBruteForce false]) = Some s' /\
    Sim.spatialHash s' = Sim.spatialHash s /\
    SpatialHash.cellSize (Sim.spatialHash s') =
      SpatialHash.cellSize (Sim.spatialHash s) /\
    Sim.useBruteForce s' = false /\
    Sim.interactionRadius s' = last rs (Sim.interactionRadius s).
Proof.
  intros Hb. split; [reflexivity|]. split.
  { intros r. unfold Sim.setInteractionRadius. simpl. now rewrite Hb. }
  split; [reflexivity|].
  revert s Hb; induction rs as [|r rest IH]; intros s Hb.
  - simpl. eexists; repeat split; reflexivity.
  - simpl. unfold Sim.setInteractionRadius at 1. simpl. rewrite Hb. simpl.
    destruct (IH (Sim.with_radius s r) Hb) as (s' & E & H1 & H2 & H3 & H4).
    exists s'. rewrite E. repeat split; auto.
    rewrite H4. simpl. symmetry. apply last_cons.
Qed.

(** Witness for [mode_switch_keeps_hash]: radius 1000 set in brute-force
    mode on a fresh simulation, then spatial-hash mode switched on; the grid
    keeps cell size 300. *)
Lemma mode_switch_keeps_hash_witness :
  Sim.useBruteForce Demo.empty = true /\
  exists s', Sim.runCalls Demo.empty [Sim.SetInteractionRadius 1000;
                                      Sim.SetBruteForce false] = Some s' /\
    Sim.spatialHash s' = Sim.spatialHash Demo.empty /\
    SpatialHash.cellSize (Sim.spatialHash s') = 300 /\
    Sim.useBruteForce s' = false /\
    Sim.interactionRadius s' = 1000.
Proof.
  split; [reflexivity|].
  destruct (mode_switch_keeps_hash Demo.empty [1000] eq_refl)
    as (_ & _ & _ & s' & E & H1 & H2 & H3 & H4).
  exists s'. repeat split; auto; rewrite H2; reflexivity.
Defined.

(** ** Per-particle loops of the engine *)
Module SimFacts.
Import Sim.

Lemma setParticle_eq s i p :
  setParticle s i p =
  with_particles s (set_nth (xs s) i (fst (fst (fst p))))
                   (set_nth (ys s) i (snd (fst (fst p))))
                   (set_nth (vxs s) i (snd (fst p))) (set_nth (vys s) i (snd p)).
Proof. destruct p as [[[x y] vx] vy]. reflexivity. Qed.

Lemma lanes_setParticle s i p : lanes (setParticle s i p) = lanes s.
Proof. rewrite setParticle_eq. unfold lanes; simpl. now rewrite !length_set_nth. Qed.

Lemma particle_setParticle_same s i p :
  (i < lanes s)%nat -> particle (setParticle s i p) i = p.
Proof.
  intros H. unfold lanes in H. rewrite setParticle_eq. unfold particle; simpl.
  rewrite !nth_set_nth_same by lia.
  destruct p as [[[x y] vx] vy]. reflexivity.
Qed.

Lemma particle_setParticle_other s i j p :
  i <> j -> particle (setParticle s i p) j = particle s j.
Proof.
  intros H. rewrite setParticle_eq. unfold particle; simpl.
  rewrite !nth_set_nth_other by exact H. reflexivity.
Qed.


Lemma frame_setParticle s i p : frame (setParticle s i p) = frame s.
Proof.
  unfold frame. rewrite lanes_setParticle. rewrite setParticle_eq. reflexivity.
Qed.

Section Loop.
Variable f : nat -> Q * Q * Q * Q -> Q * Q * Q * Q.


Lemma frame_loop s : frame (loop f s) = frame s.
Proof.
  unfold loop. apply (fold_invariant (fun s' => frame s' = frame s)).
  - reflexivity.
  - intros s' i E. now rewrite frame_setParticle.
Qed.

Lemma particle_loop s k :
  (count s <= lanes s)%nat ->
  particle (loop f s) k =
  if (k <? count s)%nat then f k (particle s k) else particle s k.
Proof.
  intros H. unfold loop.
  rewrite (fold_lanes t (Q * Q * Q * Q) particle setParticle lanes).
  - simpl. reflexivity.
  - apply particle_setParticle_same.
  - apply particle_setParticle_other.
  - apply lanes_setParticle.
  - simpl. exact H.
Qed.
End Loop.

Lemma integrate_loop sqrt dt s :
  integrate sqrt dt s =
  loop (fun i => integrateOne sqrt (dt * 60) (nth i (fxs s) 0) (nth i (fys s) 0)) s.
Proof. reflexivity. Qed.

Lemma handleBoundaries_loop s :
  handleBoundaries s = loop (fun _ => handleOne (width s) (height s)) s.
Proof. reflexivity. Qed.


Lemma computeForces_kinematics sqrt s s1 :
  computeForces sqrt s = Some s1 -> kinematics s1 = kinematics s.
Proof.
  unfold computeForces. simpl. destruct (useBruteForce s).
  - unfold calculateForcesBruteForce. simpl.
    destruct (foldM _ _ _) as [acc|]; simpl; [|discriminate].
    intros E; inversion E; reflexivity.
  - destruct (SpatialHash.insertAll _ _) as [h|]; simpl; [|discriminate].
    unfold calculateForces. simpl.
    destruct (foldM _ _ _) as [acc|]; simpl; [|discriminate].
    intros E; inversion E; reflexivity.
Qed.

Lemma lanes_kinematics s s1 : kinematics s1 = kinematics s -> lanes s1 = lanes s.
Proof. unfold kinematics, lanes. intros E. inversion E. congruence. Qed.

Lemma particle_kinematics s s1 i :
  kinematics s1 = kinematics s -> particle s1 i = particle s i.
Proof. unfold kinematics, particle. intros E. inversion E. congruence. Qed.

End SimFacts.

Lemma qlt_iff (a b : Q) : JS.qlt a b = true <-> a < b.
Proof.
  unfold JS.qlt. rewrite negb_true_iff. split.
  - intros H. apply Qnot_le_lt. intros H'. apply Qle_bool_iff in H'. congruence.
  - intros H. destruct (Qle_bool b a) eqn:E; [|reflexivity].
    apply Qle_bool_iff in E. lra.
Qed.

Lemma qlt_false (a b : Q) : JS.qlt a b = false <-> b <= a.
Proof.
  unfold JS.qlt. rewrite negb_false_iff. apply Qle_bool_iff.
Qed.

(** The velocity and position update of one particle. *)
Lemma integrateOne_spec (sqrt : Q -> Q) (dts fx fy x y vx vy : Q) :
  let vx2 := (vx + fx * dts) * FRICTION in
  let vy2 := (vy + fy * dts) * FRICTION in
  let sp := sqrt (vx2 * vx2 + vy2 * vy2) in
  exists vx3 vy3,
    Sim.integrateOne sqrt dts fx fy (x, y, vx, vy) =
      (x + vx3 * dts, y + vy3 * dts, vx3, vy3) /\
    (MAX_VELOCITY < sp ->
       vx3 = vx2 * (MAX_VELOCITY / sp) /\ vy3 = vy2 * (MAX_VELOCITY / sp)) /\
    (sp <= MAX_VELOCITY -> vx3 = vx2 /\ vy3 = vy2).
Proof.
  cbv zeta. unfold Sim.integrateOne.
  destruct (JS.qlt MAX_VELOCITY _) eqn:E.
  - apply qlt_iff in E. eexists _, _. split; [reflexivity|].
    split; [auto|]. intros H. lra.
  - apply qlt_false in E. eexists _, _. split; [reflexivity|].
    split; [|auto]. intros H. lra.
Qed.

(** Rescaling by [MAX_VELOCITY / speed] gives magnitude [MAX_VELOCITY] when
    [speed] is the exact norm. *)
Lemma rescale_norm (vx vy sp m : Q) :
  0 < m -> m < sp -> sp * sp == vx * vx + vy * vy ->
  (vx * (m / sp)) * (vx * (m / sp)) + (vy * (m / sp)) * (vy * (m / sp)) == m * m.
Proof.
  intros Hm Hs Hn.
  setoid_replace ((vx * (m / sp)) * (vx * (m / sp)) + (vy * (m / sp)) * (vy * (m / sp)))
    with ((vx * vx + vy * vy) * ((m / sp) * (m / sp))) by ring.
  rewrite <- Hn. field. intros E. rewrite E in Hs. lra.
Qed.

Lemma update_cases sqrt s dt s' :
  (0 < Sim.count s)%nat -> Sim.update sqrt s dt = Some s' ->
  exists s1, Sim.computeForces sqrt s = Some s1 /\
    s' = Sim.handleBoundaries (Sim.integrate sqrt (JS.min dt (1 # 30)) s1).
Proof.
  intros Hc Hu. unfold Sim.update in Hu.
  destruct (Sim.count s =? 0)%nat eqn:E0; [apply Nat.eqb_eq in E0; lia|].
  destruct (Sim.computeForces sqrt s) as [s1|]; simpl in Hu; [|discriminate].
  inversion Hu. eauto.
Qed.

Lemma min_dt (dt : Q) : JS.min dt (1 # 30) <= 1 # 30 /\ (dt <= 1 # 30 -> JS.min dt (1 # 30) = dt).
Proof.
  unfold JS.min. destruct (JS.qlt (1 # 30) dt) eqn:E.
  - apply qlt_iff in E. split; [lra|]. intros H; lra.
  - apply qlt_false in E. auto.
Qed.

(** Particle [i] after the integration of a step whose forces are [s1]'s. *)
Lemma integrate_particle sqrt s s1 dt i :
  (Sim.count s <= Sim.lanes s)%nat -> (i < Sim.count s)%nat ->
  Sim.kinematics s1 = Sim.kinematics s ->
  Sim.particle (Sim.integrate sqrt dt s1) i =
  Sim.integrateOne sqrt (dt * 60) (nth i (Sim.fxs s1) 0) (nth i (Sim.fys s1) 0)
                   (Sim.particle s i).
Proof.
  intros Hl Hi Hk.
  assert (Hc : Sim.count s1 = Sim.count s) by (inversion Hk; reflexivity).
  rewrite SimFacts.integrate_loop, SimFacts.particle_loop.
  - replace ((i <? Sim.count s1)%nat) with true by (symmetry; apply Nat.ltb_lt; lia).
    now rewrite (SimFacts.particle_kinematics s s1 i Hk).
  - rewrite (SimFacts.lanes_kinematics s s1 Hk). lia.
Qed.

(** ** The integration step *)

(** Claim C3.  A step [update(dt)] of a non-empty simulation uses
    [dt' = min(dt, 1/30)] and, for each particle [i], computes from the
    step's forces [fx], [fy]: [v1 = v + f * dt' * 60], [v2 = v1 * 0.98], then
    if the speed [sqrt(|v2|^2)] exceeds [MAX_VELOCITY] rescales [v2] by
    [MAX_VELOCITY / speed] (to magnitude exactly [MAX_VELOCITY] when the
    square root is exact), else keeps it, and finally moves the particle by
    the new velocity times [dt' * 60]; the boundary pass follows. *)
Theorem update_step_order (sqrt : Q -> Q) (s s' : Sim.t) (dt : Q) (i : nat) :
  (Sim.count s <= Sim.lanes s)%nat -> (i < Sim.count s)%nat ->
  Sim.update sqrt s dt = Some s' ->
  let dt' := JS.min dt (1 # 30) in
  dt' <= 1 # 30 /\ (dt <= 1 # 30 -> dt' = dt) /\
  exists s1, Sim.computeForces sqrt s = Some s1 /\
    s' = Sim.handleBoundaries (Sim.integrate sqrt dt' s1) /\
    let '(x, y, vx, vy) := Sim.particle s i in
    let fx := nth i (Sim.fxs s1) 0 in
    let fy := nth i (Sim.fys s1) 0 in
    let vx2 := (vx + fx * (dt' * 60)) * FRICTION in
    let vy2 := (vy + fy * (dt' * 60)) * FRICTION in
    let sp := sqrt (vx2 * vx2 + vy2 * vy2) in
    exists vx3 vy3,
      Sim.particle (Sim.integrate sqrt dt' s1) i =
        (x + vx3 * (dt' * 60), y + vy3 * (dt' * 60), vx3, vy3) /\
      (MAX_VELOCITY < sp ->
         vx3 = vx2 * (MAX_VELOCITY / sp) /\ vy3 = vy2 * (MAX_VELOCITY / sp) /\
         (sp * sp == vx2 * vx2 + vy2 * vy2 ->
            vx3 * vx3 + vy3 * vy3 == MAX_VELOCITY * MAX_VELOCITY)) /\
      (sp <= MAX_VELOCITY -> vx3 = vx2 /\ vy3 = vy2).
Proof.
  intros Hl Hi Hu dt'.
  destruct (min_dt dt) as [M1 M2]. split; [exact M1|]. split; [exact M2|].
  destruct (update_cases sqrt s dt s' ltac:(lia) Hu) as (s1 & Hc & ->).
  exists s1. split; [exact Hc|]. split; [reflexivity|].
  rewrite (integrate_particle sqrt s s1 dt' i Hl Hi
             (SimFacts.computeForces_kinematics sqrt s s1 Hc)).
  destruct (Sim.particle s i) as [[[x y] vx] vy].
  destruct (integrateOne_spec sqrt (dt' * 60) (nth i (Sim.fxs s1) 0)
              (nth i (Sim.fys s1) 0) x y vx vy) as (vx3 & vy3 & E & Hgt & Hle).
  cbv zeta in *. exists vx3, vy3. split; [exact E|]. split; [|exact Hle].
  intros Hs. destruct (Hgt Hs) as [-> ->]. split; [reflexivity|]. split; [reflexivity|].
  intros Hn. apply rescale_norm; [unfold MAX_VELOCITY; lra | exact Hs | exact Hn].
Qed.

(** Witness for [update_step_order]: one particle at (100, 100) moving at
    [vx = 10], a step of 1/60 s; the speed 9.8 after friction is clamped to
    5. *)
Lemma update_step_order_witness :
  let s := Demo.state [100] [100] [10] [0] [0%Z] 1 [[0]] true in
  exists s', Sim.update sqrtQ s (1 # 60) = Some s' /\
  let dt' := JS.min (1 # 60) (1 # 30) in
  dt' <= 1 # 30 /\ ((1 # 60) <= 1 # 30 -> dt' = 1 # 60) /\
  exists s1, Sim.computeForces sqrtQ s = Some s1 /\
    s' = Sim.handleBoundaries (Sim.integrate sqrtQ dt' s1) /\
    let '(x, y, vx, vy) := Sim.particle s 0 in
    let fx := nth 0 (Sim.fxs s1) 0 in
    let fy := nth 0 (Sim.fys s1) 0 in
    let vx2 := (vx + fx * (dt' * 60)) * FRICTION in
    let vy2 := (vy + fy * (dt' * 60)) * FRICTION in
    let sp := sqrtQ (vx2 * vx2 + vy2 * vy2) in
    exists vx3 vy3,
      Sim.particle (Sim.integrate sqrtQ dt' s1) 0 =
        (x + vx3 * (dt' * 60), y + vy3 * (dt' * 60), vx3, vy3) /\
      (MAX_VELOCITY < sp ->
         vx3 = vx2 * (MAX_VELOCITY / sp) /\ vy3 = vy2 * (MAX_VELOCITY / sp) /\
         (sp * sp == vx2 * vx2 + vy2 * vy2 ->
            vx3 * vx3 + vy3 * vy3 == MAX_VELOCITY * MAX_VELOCITY)) /\
      (sp <= MAX_VELOCITY -> vx3 = vx2 /\ vy3 = vy2).
Proof.
  intros s.
  destruct (Sim.update sqrtQ s (1 # 60)) as [s'|] eqn:E;
    [|vm_compute in E; discriminate].
  exists s'. split; [reflexivity|].
  apply (update_step_order sqrtQ s s' (1 # 60) 0); [vm_compute; lia | vm_compute; lia | exact E].
Defined.

(** ** Forces that vanish *)

Lemma foldM_inv {A B} (P : A -> Prop) (f : A -> B -> option A) (l : list B) a r :
  P a -> (forall a b a', In b l -> P a -> f a b = Some a' -> P a') ->
  Sim.foldM f l a = Some r -> P r.
Proof.
  revert a; induction l as [|b l IH]; intros a Ha Hf; simpl.
  - intros E; inversion E; subst; exact Ha.
  - unfold JS.bind. destruct (f a b) as [a'|] eqn:E; [|discriminate].
    intros H. refine (IH a' _ _ H).
    + apply (Hf a b a'); auto. left; reflexivity.
    + intros a0 b0 a1 Hin. apply Hf. right. exact Hin.
Qed.


Lemma zeros_map (l : list Q) : zeros (map (fun _ => 0) l).
Proof.
  intros k. revert l; induction k as [|k IH]; intros [|a l]; simpl; try reflexivity.
  apply IH.
Qed.

Lemma zeros_set_nth (l : list Q) i v : zeros l -> v == 0 -> zeros (set_nth l i v).
Proof.
  intros Hl Hv k. revert l k Hl; induction i as [|i IH]; intros [|a l] [|k] Hl;
    simpl; try reflexivity; try exact Hv; try apply (Hl (S k)); try apply (Hl 0%nat).
  apply IH. intros m. apply (Hl (S m)).
Qed.

Lemma zeros_applyPair i j f acc :
  zeros (fst acc) -> zeros (snd acc) -> fst f == 0 -> snd f == 0 ->
  zeros (fst (Sim.applyPair i j f acc)) /\ zeros (snd (Sim.applyPair i j f acc)).
Proof.
  destruct f as [fx fy], acc as [ax ay]; simpl. intros Hx Hy Hfx Hfy.
  assert (Z1 : zeros (set_nth ax i (nth i ax 0 + fx)))
    by (apply zeros_set_nth; [exact Hx | rewrite (Hx i), Hfx; reflexivity]).
  assert (Z2 : zeros (set_nth ay i (nth i ay 0 + fy)))
    by (apply zeros_set_nth; [exact Hy | rewrite (Hy i), Hfy; reflexivity]).
  split; apply zeros_set_nth; auto.
  - rewrite (Z1 j), Hfx. reflexivity.
  - rewrite (Z2 j), Hfy. reflexivity.
Qed.

(** Indices stored by the grid rebuild. *)
Lemma In_set_nth {A} (l : list A) i v x : In x (set_nth l i v) -> In x l \/ x = v.
Proof.
  revert i; induction l as [|a l IH]; intros [|i]; simpl; auto.
  - intros [<-|H]; auto.
  - intros [<-|H]; auto. destruct (IH i H); auto.
Qed.

Lemma clear_indices n h : SpatialHash.indices_below n (SpatialHash.clear h).
Proof.
  intros c k Hc Hk. simpl in Hc. apply in_map_iff in Hc as (? & <- & _).
  destruct Hk.
Qed.

Lemma cell_In h i cl : SpatialHash.cell h i = Some cl -> In cl (SpatialHash.grid h).
Proof.
  unfold SpatialHash.cell. destruct (i <? 0)%Z; [discriminate|].
  apply nth_error_In.
Qed.

Lemma insert_indices n h k x y h' :
  SpatialHash.indices_below n h -> (k < n)%nat ->
  SpatialHash.insert h k x y = Some h' -> SpatialHash.indices_below n h'.
Proof.
  unfold SpatialHash.insert. intros Hb Hk.
  destruct (SpatialHash.cell h _) as [cl|] eqn:Ec; simpl; [|discriminate].
  intros E; inversion E; subst; clear E.
  intros c k' Hc Hk'. simpl in Hc. apply In_set_nth in Hc as [Hc| ->].
  - eapply Hb; eauto.
  - apply in_app_or in Hk' as [H|[<-|[]]]; [|exact Hk].
    eapply Hb; [eapply cell_In; eauto | exact H].
Qed.

Lemma insertAll_indices n h pts h' :
  SpatialHash.indices_below n h ->
  (forall k p, In (k, p) pts -> (k < n)%nat) ->
  SpatialHash.insertAll h pts = Some h' -> SpatialHash.indices_below n h'.
Proof.
  revert h; induction pts as [|[k [x y]] pts IH]; intros h Hb Hp; simpl.
  - intros E; inversion E; subst; exact Hb.
  - destruct (SpatialHash.insert h k x y) as [h1|] eqn:E; simpl; [|discriminate].
    apply IH.
    + eapply insert_indices; eauto. eapply Hp; left; reflexivity.
    + intros k' p Hin. eapply Hp. right. exact Hin.
Qed.

Lemma collect_indices n h cs l :
  SpatialHash.indices_below n h -> SpatialHash.collect h cs = Some l ->
  forall k, In k l -> (k < n)%nat.
Proof.
  intros Hb. revert l; induction cs as [|[r c] cs IH]; intros l; simpl.
  - intros E; inversion E; subst; intros k [].
  - destruct (_ && _ && _ && _)%Z.
    + destruct (SpatialHash.cell h _) as [cl|] eqn:Ec; simpl; [|discriminate].
      destruct (SpatialHash.collect h cs) as [tl|] eqn:Et; simpl; [|discriminate].
      intros E; inversion E; subst. intros k Hk.
      apply in_app_or in Hk as [Hk|Hk].
      * eapply Hb; [eapply cell_In; eauto | exact Hk].
      * eapply IH; eauto.
    + apply IH.
Qed.

Lemma points_indices s k p : In (k, p) (Sim.points s) -> (k < Sim.count s)%nat.
Proof.
  unfold Sim.points. intros H. apply in_map_iff in H as (i & E & Hi).
  inversion E; subst. apply in_seq in Hi. lia.
Qed.

Lemma pairStep_zeros contrib s i j acc acc' :
  zeros (fst acc) /\ zeros (snd acc) ->
  (forall f, contrib (nth i (Sim.xs s) 0) (nth i (Sim.ys s) 0) (nth i (Sim.types s) 0%Z)
                     (nth j (Sim.xs s) 0) (nth j (Sim.ys s) 0) (nth j (Sim.types s) 0%Z)
             = Some (Some f) -> fst f == 0 /\ snd f == 0) ->
  Sim.pairStep contrib s i j acc = Some acc' -> zeros (fst acc') /\ zeros (snd acc').
Proof.
  intros [H1 H2] Hc. unfold Sim.pairStep, JS.bind.
  destruct (contrib _ _ _ _ _ _) as [[f|]|] eqn:E; try discriminate;
    intros Eq; inversion Eq; subst; clear Eq.
  - destruct (Hc f eq_refl). apply zeros_applyPair; auto.
  - auto.
Qed.

(** If every pair the loops may compute gives a zero force, the step's
    accumulators are zero. *)
Lemma computeForces_zero sqrt s s1 :
  (forall i j f, (i < j < Sim.count s)%nat ->
     (if Sim.useBruteForce s then Sim.bfContribution sqrt (Sim.interactionMatrix s)
      else Sim.shContribution sqrt (Sim.interactionRadius s) (Sim.interactionMatrix s))
       (nth i (Sim.xs s) 0) (nth i (Sim.ys s) 0) (nth i (Sim.types s) 0%Z)
       (nth j (Sim.xs s) 0) (nth j (Sim.ys s) 0) (nth j (Sim.types s) 0%Z)
     = Some (Some f) ->
     fst f == 0 /\ snd f == 0) ->
  Sim.computeForces sqrt s = Some s1 -> zeros (Sim.fxs s1) /\ zeros (Sim.fys s1).
Proof.
  intros Hc. unfold Sim.computeForces. cbn [Sim.useBruteForce Sim.with_forces].
  set (P := fun acc : list Q * list Q => zeros (fst acc) /\ zeros (snd acc)).
  assert (P0 : P (map (fun _ => 0) (Sim.fxs s), map (fun _ => 0) (Sim.fys s)))
    by (split; apply zeros_map).
  destruct (Sim.useBruteForce s) eqn:Hb.
  - unfold Sim.calculateForcesBruteForce, JS.bind.
    destruct (Sim.foldM _ _ _) as [acc|] eqn:Ef; [|discriminate].
    intros E; inversion E; subst; clear E. simpl.
    refine (foldM_inv P _ _ _ _ P0 _ Ef).
    intros a i a' Hi Ha Hin. apply in_seq in Hi.
    refine (foldM_inv P _ _ _ _ Ha _ Hin).
    intros b j b' Hj Hb' Hst. apply in_seq in Hj.
    refine (pairStep_zeros _ _ i j b b' Hb' _ Hst).
    intros f Ef'. apply (Hc i j f); [simpl in *; lia|]. try rewrite Hb; exact Ef'.
  - unfold JS.bind at 1.
    destruct (SpatialHash.insertAll _ _) as [h|] eqn:Eh; [|discriminate].
    assert (Hidx : SpatialHash.indices_below (Sim.count s) h).
    { refine (insertAll_indices _ _ _ _ (clear_indices _ _) _ Eh).
      intros k p Hk. exact (points_indices _ k p Hk). }
    unfold Sim.calculateForces, JS.bind.
    destruct (Sim.foldM _ _ _) as [acc|] eqn:Ef; [|discriminate].
    intros E; inversion E; subst; clear E. simpl.
    refine (foldM_inv P _ _ _ _ P0 _ Ef).
    intros a i a' Hi Ha Hin. apply in_seq in Hi. simpl in Hin.
    destruct (SpatialHash.getNearby h _ _) as [nb|] eqn:En; [|discriminate].
    assert (Hnb : forall k, In k nb -> (k < Sim.count s)%nat)
      by exact (collect_indices _ _ _ _ Hidx En).
    refine (foldM_inv P _ _ _ _ Ha _ Hin).
    intros b j b' Hj Hb' Hst. specialize (Hnb j Hj).
    destruct (j <=? i)%nat eqn:Eji.
    + inversion Hst; subst; exact Hb'.
    + apply Nat.leb_gt in Eji.
      refine (pairStep_zeros _ _ i j b b' Hb' _ Hst).
      intros f Ef'. apply (Hc i j f); [simpl in *; lia|]. try rewrite Hb; exact Ef'.
Qed.

(** ** The boundary pass *)

Lemma boundAxis_spec lo hi p v :
  (p < lo -> Sim.boundAxis lo hi p v = (lo, Qabs v * (8 # 10))) /\
  (lo <= p -> hi < p -> Sim.boundAxis lo hi p v = (hi, - Qabs v * (8 # 10))) /\
  (lo <= p -> p <= hi -> Sim.boundAxis lo hi p v = (p, v)).
Proof.
  unfold Sim.boundAxis.
  destruct (JS.qlt p lo) eqn:E1;
    [apply qlt_iff in E1 | apply qlt_false in E1];
  destruct (JS.qlt hi p) eqn:E2;
    try apply qlt_iff in E2; try apply qlt_false in E2;
  repeat split; intros; first [reflexivity | exfalso; lra].
Qed.

Lemma handleOne_eq w h x y vx vy :
  Sim.handleOne w h (x, y, vx, vy) =
  (fst (Sim.boundAxis PARTICLE_RADIUS (w - PARTICLE_RADIUS) x vx),
   fst (Sim.boundAxis PARTICLE_RADIUS (h - PARTICLE_RADIUS) y vy),
   snd (Sim.boundAxis PARTICLE_RADIUS (w - PARTICLE_RADIUS) x vx),
   snd (Sim.boundAxis PARTICLE_RADIUS (h - PARTICLE_RADIUS) y vy)).
Proof.
  unfold Sim.handleOne.
  destruct (Sim.boundAxis _ _ x vx), (Sim.boundAxis _ _ y vy). reflexivity.
Qed.


Lemma boundAxis_rule lo hi p v :
  axis_rule lo hi p v (fst (Sim.boundAxis lo hi p v)) (snd (Sim.boundAxis lo hi p v)).
Proof.
  destruct (boundAxis_spec lo hi p v) as (H1 & H2 & H3).
  repeat split; intros.
  - now rewrite H1.
  - now rewrite H1.
  - rewrite H1 by assumption. simpl.
    apply Qmult_le_0_compat; [apply Qabs_nonneg | unfold Qle; simpl; lia].
  - now rewrite H2.
  - now rewrite H2.
  - rewrite H2 by assumption. simpl.
    assert (0 <= Qabs v * (8 # 10))
      by (apply Qmult_le_0_compat; [apply Qabs_nonneg | unfold Qle; simpl; lia]).
    lra.
  - now rewrite H3.
  - now rewrite H3.
Qed.

Lemma mul_nonpos_nonneg (a b : Q) : a <= 0 -> 0 <= b -> a * b <= 0.
Proof.
  intros Ha Hb. assert (0 <= (- a) * b) by (apply Qmult_le_0_compat; lra).
  setoid_replace (a * b) with (- ((- a) * b)) by ring. lra.
Qed.

Lemma frame_integrate sqrt dt s :
  Sim.frame (Sim.integrate sqrt dt s) = Sim.frame s.
Proof. rewrite SimFacts.integrate_loop. apply SimFacts.frame_loop. Qed.

(** Particle [i] after the boundary pass. *)
Lemma handleBoundaries_particle s i :
  (Sim.count s <= Sim.lanes s)%nat -> (i < Sim.count s)%nat ->
  Sim.particle (Sim.handleBoundaries s) i =
  Sim.handleOne (Sim.width s) (Sim.height s) (Sim.particle s i).
Proof.
  intros Hl Hi. rewrite SimFacts.handleBoundaries_loop, SimFacts.particle_loop by exact Hl.
  replace ((i <? Sim.count s)%nat) with true by (symmetry; apply Nat.ltb_lt; lia).
  reflexivity.
Qed.

(** The state after the integration of a step: same frame as the input. *)
Lemma update_integrated sqrt s dt s' :
  (0 < Sim.count s)%nat -> Sim.update sqrt s dt = Some s' ->
  exists s1, Sim.computeForces sqrt s = Some s1 /\
    let s2 := Sim.integrate sqrt (JS.min dt (1 # 30)) s1 in
    s' = Sim.handleBoundaries s2 /\
    Sim.width s2 = Sim.width s /\ Sim.height s2 = Sim.height s /\
    Sim.count s2 = Sim.count s /\ Sim.lanes s2 = Sim.lanes s.
Proof.
  intros Hc Hu. destruct (update_cases sqrt s dt s' Hc Hu) as (s1 & Hf & ->).
  exists s1. split; [exact Hf|].
  pose proof (SimFacts.computeForces_kinematics sqrt s s1 Hf) as Hk.
  pose proof (SimFacts.lanes_kinematics s s1 Hk) as Hl.
  pose proof (frame_integrate sqrt (JS.min dt (1 # 30)) s1) as Fr.
  unfold Sim.frame in Fr. inversion Fr as [[Ew Eh Ety Ec Etc Em Esh Efx Efy Eb Er El]].
  unfold Sim.kinematics in Hk. inversion Hk.
  cbv zeta. repeat split; congruence.
Qed.

(** Claim C4.  After a step [update(dt)], each particle's coordinates and
    velocities on each axis follow the boundary rule applied to the
    integrated values (x, vx), those of the state [integrate(min(dt, 1/30))]
    leaves after the force phase: below [PARTICLE_RADIUS] the position becomes
    exactly [PARTICLE_RADIUS] and the velocity [|vx| * 0.8 >= 0]; otherwise
    above [width - PARTICLE_RADIUS] the position becomes exactly that bound
    and the velocity [-|vx| * 0.8 <= 0]; in between both are kept (same for
    y with [height]).  For a simulation holding a single particle, placed at
    [x = PARTICLE_RADIUS - 1] with [vx = -2], a step with [dt >= 0] leaves
    [x = PARTICLE_RADIUS] and [vx >= 0]. *)
Theorem update_boundary_reflection (sqrt : Q -> Q) (s s' : Sim.t) (dt : Q) (i : nat) :
  (Sim.count s <= Sim.lanes s)%nat -> (i < Sim.count s)%nat ->
  Sim.update sqrt s dt = Some s' ->
  (exists s1, Sim.computeForces sqrt s = Some s1 /\
    let s2 := Sim.integrate sqrt (JS.min dt (1 # 30)) s1 in
    s' = Sim.handleBoundaries s2 /\
    let '(x, y, vx, vy) := Sim.particle s2 i in
    let '(x', y', vx', vy') := Sim.particle s' i in
    axis_rule PARTICLE_RADIUS (Sim.width s - PARTICLE_RADIUS) x vx x' vx' /\
    axis_rule PARTICLE_RADIUS (Sim.height s - PARTICLE_RADIUS) y vy y' vy') /\
  (Sim.count s = 1%nat -> 0 <= dt ->
   nth i (Sim.xs s) 0 = PARTICLE_RADIUS - 1 -> nth i (Sim.vxs s) 0 = -2 ->
   nth i (Sim.xs s') 0 = PARTICLE_RADIUS /\ 0 <= nth i (Sim.vxs s') 0).
Proof.
  intros Hl Hi Hu.
  destruct (update_integrated sqrt s dt s' ltac:(lia) Hu)
    as (s1 & Hf & E & Hw & Hh & Hc & Hln).
  set (dt' := JS.min dt (1 # 30)) in *.
  set (s2 := Sim.integrate sqrt dt' s1) in *.
  assert (Hp : Sim.particle s' i =
               Sim.handleOne (Sim.width s) (Sim.height s) (Sim.particle s2 i)).
  { rewrite E, handleBoundaries_particle by lia. now rewrite Hw, Hh. }
  split.
  - exists s1. split; [exact Hf|]. cbv zeta. fold s2. split; [exact E|].
    rewrite Hp. destruct (Sim.particle s2 i) as [[[x y] vx] vy].
    rewrite handleOne_eq. split; apply boundAxis_rule.
  - intros H1 Hdt Hx Hvx.
    assert (Hi0 : i = 0%nat) by lia. subst i.
    pose proof (SimFacts.computeForces_kinematics sqrt s s1 Hf) as Hk.
    destruct (computeForces_zero sqrt s s1 ltac:(intros; lia) Hf) as [Zx _].
    assert (Hp2 := integrate_particle sqrt s s1 dt' 0 Hl Hi Hk). fold s2 in Hp2.
    unfold Sim.particle at 2 in Hp2. rewrite Hx, Hvx in Hp2.
    destruct (integrateOne_spec sqrt (dt' * 60) (nth 0 (Sim.fxs s1) 0)
                (nth 0 (Sim.fys s1) 0) (PARTICLE_RADIUS - 1) (nth 0 (Sim.ys s) 0) (-2)
                (nth 0 (Sim.vys s) 0)) as (vx3 & vy3 & Ei & Hgt & Hle).
    rewrite Ei in Hp2. clear Ei.
    assert (Hdts : 0 <= dt' * 60).
    { unfold dt', JS.min. destruct (JS.qlt (1 # 30) dt); lra. }
    assert (Hvx2 : (-2 + nth 0 (Sim.fxs s1) 0 * (dt' * 60)) * FRICTION <= 0).
    { rewrite (Zx 0%nat). unfold FRICTION. lra. }
    assert (Hv3 : vx3 <= 0).
    { set (sp := sqrt _) in *. destruct (Qlt_le_dec MAX_VELOCITY sp) as [L|L].
      - destruct (Hgt L) as [-> _]. apply mul_nonpos_nonneg; [exact Hvx2|].
        apply Qle_shift_div_l; [unfold MAX_VELOCITY in L; lra | ].
        unfold MAX_VELOCITY; lra.
      - destruct (Hle L) as [-> _]. exact Hvx2. }
    assert (Hx2 : PARTICLE_RADIUS - 1 + vx3 * (dt' * 60) < PARTICLE_RADIUS).
    { pose proof (mul_nonpos_nonneg vx3 (dt' * 60) Hv3 Hdts). lra. }
    rewrite Hp2, handleOne_eq in Hp.
    destruct (boundAxis_rule PARTICLE_RADIUS (Sim.width s - PARTICLE_RADIUS)
                (PARTICLE_RADIUS - 1 + vx3 * (dt' * 60)) vx3) as (R1 & _ & _).
    destruct (R1 Hx2) as (Ex & _ & Ev).
    unfold Sim.particle in Hp. inversion Hp as [[Ex' Ey' Evx' Evy']].
    rewrite Ex', Evx'. split; [exact Ex | exact Ev].
Qed.

(** Witness for [update_boundary_reflection]: a lone particle at (3, 50)
    with [vx = -2] and a step of 1/60 s. *)
Lemma update_boundary_reflection_witness :
  let s := Demo.state [3] [50] [-2] [0] [0%Z] 1 [[0]] true in
  exists s', Sim.update sqrtQ s (1 # 60) = Some s' /\
  (exists s1, Sim.computeForces sqrtQ s = Some s1 /\
    let s2 := Sim.integrate sqrtQ (JS.min (1 # 60) (1 # 30)) s1 in
    s' = Sim.handleBoundaries s2 /\
    let '(x, y, vx, vy) := Sim.particle s2 0 in
    let '(x', y', vx', vy') := Sim.particle s' 0 in
    axis_rule PARTICLE_RADIUS (Sim.width s - PARTICLE_RADIUS) x vx x' vx' /\
    axis_rule PARTICLE_RADIUS (Sim.height s - PARTICLE_RADIUS) y vy y' vy') /\
  (Sim.count s = 1%nat -> 0 <= 1 # 60 ->
   nth 0 (Sim.xs s) 0 = PARTICLE_RADIUS - 1 -> nth 0 (Sim.vxs s) 0 = -2 ->
   nth 0 (Sim.xs s') 0 = PARTICLE_RADIUS /\ 0 <= nth 0 (Sim.vxs s') 0).
Proof.
  intros s.
  destruct (Sim.update sqrtQ s (1 # 60)) as [s'|] eqn:E;
    [|vm_compute in E; discriminate].
  exists s'. split; [reflexivity|].
  apply (update_boundary_reflection sqrtQ s s' (1 # 60) 0);
    [vm_compute; lia | vm_compute; lia | exact E].
Defined.

(** Claim C4: counterexample to the "in particular".  A particle at
    [x = PARTICLE_RADIUS - 1 = 3] with [vx = -2] next to a particle at
    [x = 3.25] of a type attracting itself with strength 5 (brute-force
    mode, a step of 1/60 s) is pulled to [x > PARTICLE_RADIUS], about 5.6. *)
Lemma update_boundary_neighbour_pull :
  let s := Demo.state [3; 13 # 4] [50; 50] [-2; 0] [0; 0] [0%Z; 0%Z] 1 [[5]] true in
  nth 0 (Sim.xs s) 0 = PARTICLE_RADIUS - 1 /\ nth 0 (Sim.vxs s) 0 = -2 /\
  exists s', Sim.update sqrtQ s (1 # 60) = Some s' /\
    PARTICLE_RADIUS < nth 0 (Sim.xs s') 0 /\
    nth 0 (Sim.xs s') 0 == 165084261120000 # 29491200000000.
Proof.
  intros s. split; [reflexivity|]. split; [reflexivity|].
  destruct (Sim.update sqrtQ s (1 # 60)) as [s'|] eqn:E;
    [|vm_compute in E; discriminate].
  exists s'. split; [reflexivity|].
  vm_compute in E. inversion E. subst. split; vm_compute; reflexivity.
Qed.

(** ** Steps without forces *)

Lemma avgAttraction_zero m ti tj a :
  (forall a b q, Sim.entry m a b = Some q -> q == 0) ->
  Sim.avgAttraction m ti tj = Some a -> a == 0.
Proof.
  intros Hm. unfold Sim.avgAttraction, JS.bind.
  destruct (Sim.entry m ti tj) as [q1|] eqn:E1; [|discriminate].
  destruct (Sim.entry m tj ti) as [q2|] eqn:E2; [|discriminate].
  intros E; inversion E; subst. rewrite (Hm _ _ _ E1), (Hm _ _ _ E2). reflexivity.
Qed.

Lemma bfContribution_zero sqrt m xi yi ti xj yj tj f :
  (forall a b q, Sim.entry m a b = Some q -> q == 0) ->
  (let d := (xj - xi) * (xj - xi) + (yj - yi) * (yj - yi) in
   REPULSION_RADIUS * REPULSION_RADIUS <= d \/ d < 1 # 10000) ->
  Sim.bfContribution sqrt m xi yi ti xj yj tj = Some (Some f) ->
  fst f == 0 /\ snd f == 0.
Proof.
  intros Hm Hd. cbv zeta in Hd. unfold Sim.bfContribution. cbv zeta.
  destruct (JS.qlt _ (1 # 10000)) eqn:E1; [discriminate|]. apply qlt_false in E1.
  unfold JS.bind.
  destruct (Sim.avgAttraction m ti tj) as [a|] eqn:Ea; [|discriminate].
  pose proof (avgAttraction_zero m ti tj a Hm Ea) as Ha.
  destruct (JS.qlt _ (REPULSION_RADIUS * REPULSION_RADIUS)) eqn:E2.
  - apply qlt_iff in E2. exfalso. destruct Hd; lra.
  - intros E; inversion E; subst. simpl. rewrite Ha. split; ring.
Qed.

Lemma shContribution_zero sqrt ir m xi yi ti xj yj tj f :
  (forall a b q, Sim.entry m a b = Some q -> q == 0) ->
  (let d := (xj - xi) * (xj - xi) + (yj - yi) * (yj - yi) in
   REPULSION_RADIUS * REPULSION_RADIUS <= d \/ d < 1 # 10000) ->
  Sim.shContribution sqrt ir m xi yi ti xj yj tj = Some (Some f) ->
  fst f == 0 /\ snd f == 0.
Proof.
  intros Hm Hd. cbv zeta in Hd. unfold Sim.shContribution. cbv zeta.
  destruct (JS.qlt (ir * ir) _ || JS.qlt _ (1 # 10000)) eqn:E1; [discriminate|].
  apply orb_false_iff in E1 as [_ E1]. apply qlt_false in E1.
  unfold JS.bind.
  destruct (Sim.avgAttraction m ti tj) as [a|] eqn:Ea; [|discriminate].
  pose proof (avgAttraction_zero m ti tj a Hm Ea) as Ha.
  destruct (JS.qlt _ (REPULSION_RADIUS * REPULSION_RADIUS)) eqn:E2.
  - apply qlt_iff in E2. exfalso. destruct Hd; lra.
  - intros E; inversion E; subst. simpl. rewrite Ha. split; ring.
Qed.

Lemma integrateOne_rest sqrt dts fx fy x y vx vy :
  fx == 0 -> fy == 0 -> vx == 0 -> vy == 0 ->
  let '(x', y', vx', vy') := Sim.integrateOne sqrt dts fx fy (x, y, vx, vy) in
  x' == x /\ y' == y /\ vx' == 0 /\ vy' == 0.
Proof.
  intros Hfx Hfy Hvx Hvy.
  destruct (integrateOne_spec sqrt dts fx fy x y vx vy) as (vx3 & vy3 & E & Hgt & Hle).
  rewrite E. cbv zeta in *.
  assert (Z1 : (vx + fx * dts) * FRICTION == 0) by (rewrite Hvx, Hfx; ring).
  assert (Z2 : (vy + fy * dts) * FRICTION == 0) by (rewrite Hvy, Hfy; ring).
  assert (Hv : vx3 == 0 /\ vy3 == 0).
  { destruct (Qlt_le_dec MAX_VELOCITY
                (sqrt ((vx + fx * dts) * FRICTION * ((vx + fx * dts) * FRICTION) +
                       (vy + fy * dts) * FRICTION * ((vy + fy * dts) * FRICTION)))) as [L|L].
    - destruct (Hgt L) as [-> ->].
      assert (M0 : forall a b : Q, a == 0 -> a * b == 0)
        by (intros a b Ha; rewrite Ha; ring).
      split; apply M0; assumption.
    - destruct (Hle L) as [-> ->]. auto. }
  destruct Hv as [V1 V2]. rewrite V1, V2. repeat split; try ring; reflexivity.
Qed.

(** Claim C8 (amended).  With an all-zero interaction matrix, every
    particle at rest and inside [[PARTICLE_RADIUS, dimension -
    PARTICLE_RADIUS]] on both axes, and every pair of particles either at
    least [REPULSION_RADIUS] apart or closer than the [1e-4] squared-distance
    guard, a step [update(dt)] leaves every position and velocity at its
    value. *)
Theorem update_zero_matrix_rest (sqrt : Q -> Q) (s s' : Sim.t) (dt : Q) :
  (Sim.count s <= Sim.lanes s)%nat ->
  (forall a b q, Sim.entry (Sim.interactionMatrix s) a b = Some q -> q == 0) ->
  (forall i, (i < Sim.count s)%nat ->
     nth i (Sim.vxs s) 0 == 0 /\ nth i (Sim.vys s) 0 == 0) ->
  (forall i, (i < Sim.count s)%nat ->
     PARTICLE_RADIUS <= nth i (Sim.xs s) 0 <= Sim.width s - PARTICLE_RADIUS /\
     PARTICLE_RADIUS <= nth i (Sim.ys s) 0 <= Sim.height s - PARTICLE_RADIUS) ->
  (forall i j, (i < j < Sim.count s)%nat ->
     let dx := nth j (Sim.xs s) 0 - nth i (Sim.xs s) 0 in
     let dy := nth j (Sim.ys s) 0 - nth i (Sim.ys s) 0 in
     REPULSION_RADIUS * REPULSION_RADIUS <= dx * dx + dy * dy \/
     dx * dx + dy * dy < 1 # 10000) ->
  Sim.update sqrt s dt = Some s' ->
  forall i, (i < Sim.count s)%nat ->
    nth i (Sim.xs s') 0 == nth i (Sim.xs s) 0 /\
    nth i (Sim.ys s') 0 == nth i (Sim.ys s) 0 /\
    nth i (Sim.vxs s') 0 == nth i (Sim.vxs s) 0 /\
    nth i (Sim.vys s') 0 == nth i (Sim.vys s) 0.
Proof.
  intros Hl Hm Hv Hb Hsep Hu i Hi.
  destruct (update_integrated sqrt s dt s' ltac:(lia) Hu)
    as (s1 & Hf & E & Hw & Hh & Hc & Hln).
  set (dt' := JS.min dt (1 # 30)) in *.
  set (s2 := Sim.integrate sqrt dt' s1) in *.
  pose proof (SimFacts.computeForces_kinematics sqrt s s1 Hf) as Hk.
  destruct (computeForces_zero sqrt s s1) as [Zx Zy]; [|exact Hf|].
  { intros i' j f Hij. destruct (Sim.useBruteForce s).
    - apply bfContribution_zero; [exact Hm | exact (Hsep i' j Hij)].
    - apply shContribution_zero; [exact Hm | exact (Hsep i' j Hij)]. }
  assert (Hp : Sim.particle s' i =
               Sim.handleOne (Sim.width s) (Sim.height s) (Sim.particle s2 i)).
  { rewrite E, handleBoundaries_particle by lia. now rewrite Hw, Hh. }
  assert (Hp2 := integrate_particle sqrt s s1 dt' i Hl Hi Hk). fold s2 in Hp2.
  rewrite Hp2 in Hp. clear Hp2.
  destruct (Hv i Hi) as [Hvx Hvy]. destruct (Hb i Hi) as [Bx By].
  unfold Sim.particle at 2 in Hp.
  pose proof (integrateOne_rest sqrt (dt' * 60) _ _ (nth i (Sim.xs s) 0)
                (nth i (Sim.ys s) 0) _ _ (Zx i) (Zy i) Hvx Hvy) as R.
  destruct (Sim.integrateOne _ _ _ _ _) as [[[x2 y2] vx2] vy2].
  destruct R as (R1 & R2 & R3 & R4).
  rewrite handleOne_eq in Hp.
  destruct (boundAxis_spec PARTICLE_RADIUS (Sim.width s - PARTICLE_RADIUS) x2 vx2)
    as (_ & _ & Ax).
  destruct (boundAxis_spec PARTICLE_RADIUS (Sim.height s - PARTICLE_RADIUS) y2 vy2)
    as (_ & _ & Ay).
  rewrite Ax, Ay in Hp by lra. simpl in Hp.
  unfold Sim.particle in Hp. inversion Hp as [[Ex Ey Evx Evy]].
  rewrite Ex, Ey, Evx, Evy. repeat split; try assumption.
  - rewrite R3, Hvx. reflexivity.
  - rewrite R4, Hvy. reflexivity.
Qed.

Lemma entry_zero (m : list (list Q)) :
  Forall (Forall (fun q => q == 0)) m ->
  forall a b q, Sim.entry m a b = Some q -> q == 0.
Proof.
  intros Hm a b q. unfold Sim.entry, JS.bind.
  destruct (_ || _)%Z; [discriminate|].
  destruct (nth_error m (Z.to_nat a)) as [row|] eqn:Er; [|discriminate].
  intros Eq. apply nth_error_In in Er, Eq.
  rewrite Forall_forall in Hm. specialize (Hm row Er).
  rewrite Forall_forall in Hm. exact (Hm q Eq).
Qed.

(** Witness for [update_zero_matrix_rest]: two particles at rest 100 apart,
    zero matrix, a step of 1/60 s. *)
Lemma update_zero_matrix_rest_witness :
  let s := Demo.state [100; 200] [100; 100] [0; 0] [0; 0] [0%Z; 0%Z] 1 [[0]] true in
  exists s', Sim.update sqrtQ s (1 # 60) = Some s' /\
  forall i, (i < Sim.count s)%nat ->
    nth i (Sim.xs s') 0 == nth i (Sim.xs s) 0 /\
    nth i (Sim.ys s') 0 == nth i (Sim.ys s) 0 /\
    nth i (Sim.vxs s') 0 == nth i (Sim.vxs s) 0 /\
    nth i (Sim.vys s') 0 == nth i (Sim.vys s) 0.
Proof.
  intros s.
  destruct (Sim.update sqrtQ s (1 # 60)) as [s'|] eqn:E;
    [|vm_compute in E; discriminate].
  exists s'. split; [reflexivity|].
  apply (update_zero_matrix_rest sqrtQ s s' (1 # 60)).
  - vm_compute; lia.
  - apply entry_zero. repeat constructor.
  - intros i Hi. vm_compute in Hi. destruct i as [|[|i]]; [qcheck | qcheck | lia].
  - intros i Hi. vm_compute in Hi. destruct i as [|[|i]]; [qcheck | qcheck | lia].
  - intros i j Hij. vm_compute in Hij. cbv zeta.
    destruct i as [|i]; [|lia]. destruct j as [|[|j]]; [lia | | lia].
    left. qcheck.
  - exact E.
Defined.

(** Claim C8: counterexample.  Two particles at rest 4 apart (closer than
    [REPULSION_RADIUS = 8]) inside the world, zero matrix, a step of 1/60 s:
    the close-range repulsion, which does not depend on the matrix, moves
    particle 0 to [x = 99.8775] with [vx = -0.1225]. *)
Lemma update_zero_matrix_repulsion :
  let s := Demo.state [100; 104] [100; 100] [0; 0] [0; 0] [0%Z; 0%Z] 1 [[0]] true in
  exists s', Sim.update sqrtQ s (1 # 60) = Some s' /\
    nth 0 (Sim.xs s') 0 == 399510 # 4000 /\ nth 0 (Sim.vxs s') 0 == -(1225 # 10000) /\
    ~ (nth 0 (Sim.xs s') 0 == nth 0 (Sim.xs s) 0).
Proof.
  intros s.
  destruct (Sim.update sqrtQ s (1 # 60)) as [s'|] eqn:E;
    [|vm_compute in E; discriminate].
  exists s'. split; [reflexivity|].
  vm_compute in E. inversion E. subst. qcheck.
Qed.

(** ** The brute-force force law *)

(** Claim C6 (as the code has it).  The brute-force pair body skips exactly
    the pairs with squared distance below [1e-4]; any other pair, however far,
    gets the force [M * (dx / dist, dy / dist)], where [M] is
    [avg * FORCE_SCALE * (REPULSION_RADIUS / dist)^2] with
    [avg = (m[ti][tj] + m[tj][ti]) / 2], minus
    [REPULSION_STRENGTH * (1 - dist / REPULSION_RADIUS)^2] when
    [dist < REPULSION_RADIUS] ([dist] an exact non-negative square root).
    The falloff exponent is the constant 2. *)
Theorem bfContribution_law (sqrt : Q -> Q) (m : list (list Q)) (xi yi : Q) (ti : Z)
        (xj yj : Q) (tj : Z) :
  let dx := xj - xi in
  let dy := yj - yi in
  let d2 := dx * dx + dy * dy in
  let dist := sqrt d2 in
  (d2 < 1 # 10000 -> Sim.bfContribution sqrt m xi yi ti xj yj tj = Some None) /\
  (1 # 10000 <= d2 -> forall q1 q2,
     Sim.entry m ti tj = Some q1 -> Sim.entry m tj ti = Some q2 ->
     let base := (q1 + q2) / 2 * FORCE_SCALE *
                 ((REPULSION_RADIUS / dist) * (REPULSION_RADIUS / dist)) in
     exists M, Sim.bfContribution sqrt m xi yi ti xj yj tj =
               Some (Some (M * (dx / dist), M * (dy / dist))) /\
       (0 <= dist -> dist * dist == d2 ->
          (dist < REPULSION_RADIUS ->
             M == base - REPULSION_STRENGTH * ((1 - dist / REPULSION_RADIUS) *
                                              (1 - dist / REPULSION_RADIUS))) /\
          (REPULSION_RADIUS <= dist -> M == base))).
Proof.
  cbv zeta. unfold Sim.bfContribution. cbv zeta. split.
  - intros H. replace (JS.qlt _ _) with true by (symmetry; apply qlt_iff; exact H).
    reflexivity.
  - intros H q1 q2 E1 E2.
    replace (JS.qlt _ (1 # 10000)) with false by (symmetry; apply qlt_false; exact H).
    unfold Sim.avgAttraction, JS.bind. rewrite E1, E2.
    set (d2 := (xj - xi) * (xj - xi) + (yj - yi) * (yj - yi)) in *.
    set (dist := sqrt d2) in *.
    destruct (JS.qlt d2 (REPULSION_RADIUS * REPULSION_RADIUS)) eqn:E3.
    + apply qlt_iff in E3. eexists. split; [reflexivity|].
      intros Hd Hs. split; [intros; ring|].
      intros L. exfalso. unfold REPULSION_RADIUS, PARTICLE_RADIUS in *.
      assert (8 * 8 <= dist * dist) by nra. lra.
    + apply qlt_false in E3. eexists. split; [reflexivity|].
      intros Hd Hs. split; [|intros; ring].
      intros L. exfalso. unfold REPULSION_RADIUS, PARTICLE_RADIUS in *.
      assert (dist * dist < 8 * 8) by nra. lra.
Qed.

(** A use of [bfContribution_law]: the pair (0, 0), (3, 4) of type 0 under
    the matrix [[1]]. *)
Lemma bfContribution_law_witness :
  exists M, Sim.bfContribution sqrtQ [[1]] 0 0 0 3 4 0 =
            Some (Some (M * (3 / 5), M * (4 / 5))) /\
    M == 1 * FORCE_SCALE * ((REPULSION_RADIUS / 5) * (REPULSION_RADIUS / 5)) -
         REPULSION_STRENGTH * ((1 - 5 / REPULSION_RADIUS) * (1 - 5 / REPULSION_RADIUS)).
Proof.
  destruct (bfContribution_law sqrtQ [[1]] 0 0 0 3 4 0) as [_ H].
  destruct (H ltac:(qcheck) 1 1 eq_refl eq_refl) as (M & E & HM).
  exists M. split; [exact E|].
  destruct (HM ltac:(qcheck) ltac:(qcheck)) as [HM1 _].
  rewrite (HM1 ltac:(qcheck)). vm_compute. reflexivity.
Defined.

(** ** A pair the spatial-hash step misses *)

(** Claim C2 (the failing input).  After the start-up calls of [staleRun]
    the engine is in spatial-hash mode with [interactionRadius = 1000] but a
    grid of cell size 300; particles 0 at (10, 10) and 1 at (700, 10) are
    690 apart: the pair passes both distance guards and its force is
    non-zero, yet [calculateForces] never visits it (particle 1 is three
    cells away) and both accumulators stay zero, while brute-force mode
    computes the pair. *)
Theorem stale_hash_misses_pair :
  exists s, Demo.staleRun = Some s /\
    Sim.useBruteForce s = false /\ Sim.interactionRadius s = 1000 /\
    SpatialHash.cellSize (Sim.spatialHash s) = 300 /\ Sim.count s = 2%nat /\
    nth 0 (Sim.xs s) 0 == 10 /\ nth 0 (Sim.ys s) 0 == 10 /\
    nth 1 (Sim.xs s) 0 == 700 /\ nth 1 (Sim.ys s) 0 == 10 /\
    (exists f, Sim.shContribution sqrtQ (Sim.interactionRadius s)
                 (Sim.interactionMatrix s)
                 (nth 0 (Sim.xs s) 0) (nth 0 (Sim.ys s) 0) (nth 0 (Sim.types s) 0%Z)
                 (nth 1 (Sim.xs s) 0) (nth 1 (Sim.ys s) 0) (nth 1 (Sim.types s) 0%Z)
               = Some (Some f) /\ 0 < fst f) /\
    (exists s1, Sim.computeForces sqrtQ s = Some s1 /\
       Sim.fxs s1 = [0; 0] /\ Sim.fys s1 = [0; 0]) /\
    (exists s1, Sim.computeForces sqrtQ (Sim.setBruteForce s true) = Some s1 /\
       0 < nth 0 (Sim.fxs s1) 0 /\ nth 1 (Sim.fxs s1) 0 < 0).
Proof.
  destruct Demo.staleRun as [s|] eqn:E; [|vm_compute in E; discriminate].
  exists s. split; [reflexivity|].
  vm_compute in E. inversion E. subst. clear E.
  repeat split; try reflexivity.
  - eexists. split; [vm_compute; reflexivity|]. vm_compute. reflexivity.
  - eexists. split; [vm_compute; reflexivity|]. split; vm_compute; reflexivity.
  - eexists. split; [vm_compute; reflexivity|]. split; vm_compute; reflexivity.
Qed.

(** ** Initial placement *)

Lemma near_of_close (dx dy r : Q) :
  0 < r -> dx * dx + dy * dy < r * r -> Qabs dx <= r /\ Qabs dy <= r.
Proof.
  intros Hr H. assert (0 <= dx * dx) by nra. assert (0 <= dy * dy) by nra.
  split; apply Qabs_Qle_condition; split; nra.
Qed.

Lemma candidate_cell_range (w u : Q) :
  0 < w -> 0 <= u < 1 ->
  (-1 <= Qfloor ((Sim.padding + u * (w - 2 * Sim.padding)) / 4) <= Qceiling (w / 4))%Z.
Proof.
  unfold Sim.padding, PARTICLE_RADIUS. intros Hw Hu.
  set (x := 4 + u * (w - 2 * 4)).
  assert (Hlo : -1 <= x / 4).
  { unfold x. destruct (Qlt_le_dec w 8).
    - assert (u * (w - 2 * 4) >= (w - 8)) by nra.
      apply Qle_shift_div_l; lra.
    - assert (0 <= u * (w - 2 * 4)) by nra. apply Qle_shift_div_l; lra. }
  split.
  - change (-1)%Z with (Qfloor (-1)). apply Qfloor_resp_le. exact Hlo.
  - destruct (Qlt_le_dec w 8).
    + assert (x <= 4) by (unfold x; nra).
      assert (Qfloor (x / 4) <= Qfloor 1)%Z
        by (apply Qfloor_resp_le; apply Qle_shift_div_r; lra).
      change (Qfloor 1) with 1%Z in H0.
      pose proof (ceiling_pos (w / 4) (div_pos w 4 ltac:(lra) Hw)). lia.
    + assert (x <= w) by (unfold x; nra).
      apply floor_le_ceiling. apply div_mono; lra.
Qed.

Section PlacementProof.
Variables (rnd : nat -> Q) (w h : Q) (n : nat) (tc : Z).
Hypotheses (Hw : 0 < w) (Hh : 0 < h) (Hr : forall k, 0 <= rnd k < 1).



(** A candidate not flagged by [collides] keeps its distance from every
    placed particle. *)
Lemma candidate_far st x y nb k :
  placement_inv w h n st ->
  (-1 <= Qfloor (x / 4) <= Qceiling (w / 4))%Z ->
  (-1 <= Qfloor (y / 4) <= Qceiling (h / 4))%Z ->
  SpatialHash.getNearby (Sim.phash st) x y = Some nb ->
  Sim.collides (Sim.pxs st) (Sim.pys st) x y nb = false ->
  (k < Sim.placed st)%nat ->
  Sim.minDist * Sim.minDist <=
    (x - nth k (Sim.pxs st) 0) * (x - nth k (Sim.pxs st) 0) +
    (y - nth k (Sim.pys st) 0) * (y - nth k (Sim.pys st) 0).
Proof.
  intros (W & Ecs & Ecols & Erows & _ & _ & _ & Hmem & _) Hx Hy G C Hk.
  destruct (Qlt_le_dec
              ((x - nth k (Sim.pxs st) 0) * (x - nth k (Sim.pxs st) 0) +
               (y - nth k (Sim.pys st) 0) * (y - nth k (Sim.pys st) 0))
              (Sim.minDist * Sim.minDist)) as [L|L]; [|exact L].
  exfalso.
  destruct (near_of_close _ _ Sim.minDist ltac:(unfold Sim.minDist, PARTICLE_RADIUS; lra) L)
    as [Dx Dy].
  assert (In k nb).
  { eapply HashFacts.getNearby_sound; [exact W | | | | | exact (Hmem k Hk) | exact G].
    - rewrite Ecs, Ecols. exact Hx.
    - rewrite Ecs, Erows. exact Hy.
    - rewrite Ecs. exact Dx.
    - rewrite Ecs. exact Dy. }
  assert (Hc : Sim.collides (Sim.pxs st) (Sim.pys st) x y nb = true).
  { unfold Sim.collides. apply existsb_exists. exists k. split; [assumption|].
    apply qlt_iff. exact L. }
  congruence.
Qed.

Lemma placeLoop_inv fuel st st' :
  placement_inv w h n st -> Sim.placeLoop rnd w h n tc fuel st = Some st' ->
  placement_inv w h n st'.
Proof.
  revert st; induction fuel as [|fuel IH]; intros st Hi; cbn [Sim.placeLoop].
  { intros E; inversion E; subst; exact Hi. }
  destruct (Sim.placed st <? n)%nat eqn:Ep; [|intros E; inversion E; subst; exact Hi].
  apply Nat.ltb_lt in Ep.
  set (a := Sim.attempts st).
  set (x := Sim.padding + rnd (2 * a)%nat * (w - 2 * Sim.padding)).
  set (y := Sim.padding + rnd (2 * a + 1)%nat * (h - 2 * Sim.padding)).
  unfold JS.bind at 1.
  destruct (SpatialHash.getNearby (Sim.phash st) x y) as [nb|] eqn:G;
    [|intros E; simpl in E; discriminate].
  destruct (Sim.collides (Sim.pxs st) (Sim.pys st) x y nb) eqn:C.
  { apply IH. exact Hi. }
  unfold JS.bind.
  destruct (SpatialHash.insert (Sim.phash st) (Sim.placed st) x y) as [h'|] eqn:Ei;
    [|intros E; simpl in E; discriminate].
  apply IH.
  pose proof Hi as (W & Ecs & Ecols & Erows & Hp & Lx & Ly & Hmem & Hsp).
  destruct (HashFacts.insert_shape _ _ _ _ _ Ei) as (S1 & S2 & S3 & _).
  assert (Far : forall k, (k < Sim.placed st)%nat ->
            Sim.minDist * Sim.minDist <=
              (x - nth k (Sim.pxs st) 0) * (x - nth k (Sim.pxs st) 0) +
              (y - nth k (Sim.pys st) 0) * (y - nth k (Sim.pys st) 0)).
  { intros k Hk. eapply candidate_far; eauto.
    - apply candidate_cell_range; auto.
    - apply candidate_cell_range; auto. }
  set (p := Sim.placed st) in *.
  assert (Nx : forall k, nth k (set_nth (Sim.pxs st) p x) 0 =
                         if (k =? p)%nat then x else nth k (Sim.pxs st) 0).
  { intros k. destruct (k =? p)%nat eqn:E.
    - apply Nat.eqb_eq in E; subst. apply nth_set_nth_same. lia.
    - apply Nat.eqb_neq in E. apply nth_set_nth_other. auto. }
  assert (Ny : forall k, nth k (set_nth (Sim.pys st) p y) 0 =
                         if (k =? p)%nat then y else nth k (Sim.pys st) 0).
  { intros k. destruct (k =? p)%nat eqn:E.
    - apply Nat.eqb_eq in E; subst. apply nth_set_nth_same. lia.
    - apply Nat.eqb_neq in E. apply nth_set_nth_other. auto. }
  unfold placement_inv; simpl.
  split; [eapply HashFacts.insert_wf; eauto|].
  rewrite S1, S2, S3. split; [exact Ecs|]. split; [exact Ecols|]. split; [exact Erows|].
  split; [lia|]. rewrite !length_set_nth. split; [exact Lx|]. split; [exact Ly|].
  split.
  - intros k Hk. rewrite Nx, Ny. destruct (k =? p)%nat eqn:E.
    + apply Nat.eqb_eq in E. rewrite E. eapply HashFacts.insert_mem_new. exact Ei.
    + apply Nat.eqb_neq in E. eapply HashFacts.insert_mem_old; [exact Ei|].
      apply Hmem. lia.
  - intros i j Hi' Hj' Hij. rewrite !Nx, !Ny.
    destruct (Nat.eqb_spec i p); destruct (Nat.eqb_spec j p).
    + exfalso. lia.
    + apply Far. lia.
    + setoid_replace ((nth i (Sim.pxs st) 0 - x) * (nth i (Sim.pxs st) 0 - x) +
                      (nth i (Sim.pys st) 0 - y) * (nth i (Sim.pys st) 0 - y))
        with ((x - nth i (Sim.pxs st) 0) * (x - nth i (Sim.pxs st) 0) +
              (y - nth i (Sim.pys st) 0) * (y - nth i (Sim.pys st) 0)) by ring.
      apply Far. lia.
    + apply Hsp; lia.
Qed.

End PlacementProof.

Lemma placementRun_inv rnd w h n tc st :
  0 < w -> 0 < h -> (forall k, 0 <= rnd k < 1) ->
  Sim.placementRun rnd w h n tc = Some st -> placement_inv w h n st.
Proof.
  intros Hw Hh Hr. unfold Sim.placementRun, JS.bind.
  destruct (SpatialHash.new Sim.minDist w h) as [h0|] eqn:N; [|discriminate].
  destruct (HashFacts.new_wf Sim.minDist w h h0 ltac:(unfold Sim.minDist, PARTICLE_RADIUS; lra)
              Hw Hh N) as (W0 & Ecs & Ecols & Erows).
  apply placeLoop_inv; auto.
  unfold placement_inv; simpl. rewrite !repeat_length.
  split; [exact W0|]. split; [exact Ecs|]. split; [exact Ecols|].
  split; [exact Erows|]. split; [lia|]. split; [reflexivity|]. split; [reflexivity|].
  split.
  - intros k Hk. lia.
  - intros i j Hi. lia.
Qed.

Lemma fallback_complete rnd w h n tc st :
  Sim.placed st = n ->
  Sim.fallback rnd w h n tc st = (Sim.pxs st, Sim.pys st, Sim.ptypes st).
Proof. intros E. unfold Sim.fallback. now rewrite E, Nat.sub_diag. Qed.

(** Extra X18.  In a world of positive width and height, with
    [Math.random()] draws in [[0, 1)], a run of [initialize(n, ...)] whose
    rejection-sampling loop places all [n] particles within its [100 * n]
    attempts gives the particles pairwise center distances of at least
    [minDist = PARTICLE_RADIUS] (4), the rejection threshold and the cell
    size of the placement grid. *)
Theorem initialize_spacing (rnd : nat -> Q) (s s' : Sim.t) (n : nat) (tc : Z)
        (m : list (list Q)) (st : Sim.placement) :
  0 < Sim.width s -> 0 < Sim.height s -> (forall k, 0 <= rnd k < 1) ->
  Sim.placementRun rnd (Sim.width s) (Sim.height s) n tc = Some st ->
  Sim.placed st = n ->
  Sim.initialize rnd s n tc m = Some s' ->
  Sim.count s' = n /\ Sim.xs s' = Sim.pxs st /\ Sim.ys s' = Sim.pys st /\
  forall i j, (i < n)%nat -> (j < n)%nat -> i <> j ->
    Sim.minDist * Sim.minDist <=
      (nth i (Sim.xs s') 0 - nth j (Sim.xs s') 0) *
      (nth i (Sim.xs s') 0 - nth j (Sim.xs s') 0) +
      (nth i (Sim.ys s') 0 - nth j (Sim.ys s') 0) *
      (nth i (Sim.ys s') 0 - nth j (Sim.ys s') 0).
Proof.
  intros Hw Hh Hr Hrun Hn Hi.
  pose proof (placementRun_inv _ _ _ _ _ _ Hw Hh Hr Hrun) as Inv.
  unfold Sim.initialize, Sim.placeParticlesNoOverlap, JS.bind in Hi.
  rewrite Hrun, (fallback_complete _ _ _ _ _ _ Hn) in Hi.
  inversion Hi; subst s'. simpl.
  split; [reflexivity|]. split; [reflexivity|]. split; [reflexivity|].
  destruct Inv as (_ & _ & _ & _ & _ & _ & _ & _ & Hsp).
  rewrite Hn in Hsp. exact Hsp.
Qed.

(** Witness for [initialize_spacing]: two particles placed at (8, 8) and
    (30, 30) in a 40 x 40 world. *)
Lemma initialize_spacing_witness :
  exists st s',
    Sim.placementRun Demo.rnd_far 40 40 2 1 = Some st /\ Sim.placed st = 2%nat /\
    Sim.initialize Demo.rnd_far Demo.empty40 2 1 [[1]] = Some s' /\
    Sim.count s' = 2%nat /\ Sim.xs s' = Sim.pxs st /\ Sim.ys s' = Sim.pys st /\
    forall i j, (i < 2)%nat -> (j < 2)%nat -> i <> j ->
      Sim.minDist * Sim.minDist <=
        (nth i (Sim.xs s') 0 - nth j (Sim.xs s') 0) *
        (nth i (Sim.xs s') 0 - nth j (Sim.xs s') 0) +
        (nth i (Sim.ys s') 0 - nth j (Sim.ys s') 0) *
        (nth i (Sim.ys s') 0 - nth j (Sim.ys s') 0).
Proof.
  destruct (Sim.placementRun Demo.rnd_far 40 40 2 1) as [st|] eqn:Er;
    [|vm_compute in Er; discriminate].
  destruct (Sim.initialize Demo.rnd_far Demo.empty40 2 1 [[1]]) as [s'|] eqn:Ei;
    [|vm_compute in Ei; discriminate].
  assert (Hp : Sim.placed st = 2%nat) by (vm_compute in Er; inversion Er; reflexivity).
  exists st, s'. split; [reflexivity|]. split; [exact Hp|]. split; [reflexivity|].
  apply (initialize_spacing Demo.rnd_far Demo.empty40 s' 2 1 [[1]] st).
  - qcheck.
  - qcheck.
  - intros k. destruct k as [|[|[|[|k]]]]; qcheck.
  - exact Er.
  - exact Hp.
  - exact Ei.
Defined.

(** Claim C5: code bug.  Two particles drawn at (10, 10) and (15, 10) in a
    40 x 40 world are accepted by the loop (5 >= 4 = [minDist]) though
    5 < 2.5 * PARTICLE_RADIUS = 10, and even 5 < REPULSION_RADIUS = 8, the
    distance at which two particles' edges touch: the placement documented
    as ensuring no overlaps leaves two overlapping particles. *)
Lemma initialize_spacing_below_2_5R :
  exists st s',
    Sim.placementRun Demo.rnd_close 40 40 2 1 = Some st /\ Sim.placed st = 2%nat /\
    Sim.initialize Demo.rnd_close Demo.empty40 2 1 [[1]] = Some s' /\
    nth 0 (Sim.xs s') 0 == 10 /\ nth 0 (Sim.ys s') 0 == 10 /\
    nth 1 (Sim.xs s') 0 == 15 /\ nth 1 (Sim.ys s') 0 == 10 /\
    (nth 0 (Sim.xs s') 0 - nth 1 (Sim.xs s') 0) *
    (nth 0 (Sim.xs s') 0 - nth 1 (Sim.xs s') 0) +
    (nth 0 (Sim.ys s') 0 - nth 1 (Sim.ys s') 0) *
    (nth 0 (Sim.ys s') 0 - nth 1 (Sim.ys s') 0)
      < (5 # 2) * PARTICLE_RADIUS * ((5 # 2) * PARTICLE_RADIUS).
Proof.
  destruct (Sim.placementRun Demo.rnd_close 40 40 2 1) as [st|] eqn:Er;
    [|vm_compute in Er; discriminate].
  destruct (Sim.initialize Demo.rnd_close Demo.empty40 2 1 [[1]]) as [s'|] eqn:Ei;
    [|vm_compute in Ei; discriminate].
  exists st, s'. split; [reflexivity|].
  vm_compute in Er. inversion Er. subst st. split; [reflexivity|].
  split; [reflexivity|].
  vm_compute in Ei. inversion Ei. subst s'. qcheck.
Qed.

(** * Further properties of the code *)

(** ** Monadic loops *)

Lemma foldM_total {A B} (f : A -> B -> option A) (l : list B) a :
  (forall a b, In b l -> exists a', f a b = Some a') ->
  exists r, Sim.foldM f l a = Some r.
Proof.
  revert a; induction l as [|b l IH]; intros a Hf; simpl; [eauto|].
  destruct (Hf a b (or_introl eq_refl)) as [a' E]. rewrite E. simpl.
  apply IH. intros a0 b0 Hb. apply Hf. right. exact Hb.
Qed.

Lemma mapM_total {A B} (f : A -> option B) (l : list A) :
  (forall a, In a l -> exists b, f a = Some b) -> exists r, JS.mapM f l = Some r.
Proof.
  induction l as [|a l IH]; intros Hf; simpl; [eauto|].
  destruct (Hf a (or_introl eq_refl)) as [b E]. rewrite E.
  destruct IH as [r R]; [intros a0 Ha0; apply Hf; right; exact Ha0|].
  rewrite R. eauto.
Qed.

Lemma mapM_nth {A B} (f : A -> option B) (l : list A) r :
  JS.mapM f l = Some r ->
  length r = length l /\ forall k a, nth_error l k = Some a -> nth_error r k = f a.
Proof.
  revert r; induction l as [|a l IH]; intros r E; simpl in E.
  - inversion E; subst. split; [reflexivity|]. intros [|k] a' H; discriminate.
  - destruct (f a) as [b|] eqn:Fa; [|discriminate].
    destruct (JS.mapM f l) as [bs|] eqn:Fl; [|discriminate].
    inversion E; subst. destruct (IH bs eq_refl) as [L N].
    split; [simpl; congruence|].
    intros [|k] a' H; simpl in H |- *.
    + inversion H; subst. congruence.
    + apply N. exact H.
Qed.

(** ** The spatial hash *)

Lemma clear_wf h : SpatialHash.wf h -> SpatialHash.wf (SpatialHash.clear h).
Proof.
  intros (Hc & Hcols & Hrows & Hlen). unfold SpatialHash.wf; simpl.
  rewrite length_map. auto.
Qed.

Lemma clear_cell h i cl : SpatialHash.cell (SpatialHash.clear h) i = Some cl -> cl = [].
Proof.
  intros C. apply cell_In in C. simpl in C. apply in_map_iff in C as (? & <- & _).
  reflexivity.
Qed.

Lemma collect_clear h cs :
  SpatialHash.wf h -> SpatialHash.collect (SpatialHash.clear h) cs = Some [].
Proof.
  intros W. pose proof (clear_wf h W) as W'. pose proof W' as (_ & Hcols & Hrows & _).
  induction cs as [|[r c] rest IH]; cbn [SpatialHash.collect]; [reflexivity|].
  fold (SpatialHash.inRange (SpatialHash.clear h) r c).
  destruct (SpatialHash.inRange (SpatialHash.clear h) r c) eqn:R; [|exact IH].
  apply HashFacts.inRange_iff in R.
  destruct (HashFacts.cell_inrange (SpatialHash.clear h)
              (r * SpatialHash.cols (SpatialHash.clear h) + c) W') as [cl C]; [nia|].
  rewrite C. simpl. rewrite IH. simpl. rewrite (clear_cell _ _ _ C). reflexivity.
Qed.

Lemma concat_set_nth_snoc (g : list (list nat)) i c k :
  nth_error g i = Some c ->
  Permutation (concat (set_nth g i (c ++ [k]))) (k :: concat g).
Proof.
  revert i; induction g as [|a g IH]; intros [|i] E; simpl in E |- *; try discriminate.
  - inversion E; subst. rewrite <- app_assoc. simpl.
    apply Permutation_sym, Permutation_middle.
  - transitivity (a ++ k :: concat g).
    + apply Permutation_app_head. apply IH. exact E.
    + apply Permutation_sym, Permutation_middle.
Qed.

(** Extra X1.  [clear()] keeps the shape of a well-formed grid, leaves no
    index stored in it, and [getNearby] then returns an empty array at every
    position. *)
Theorem clear_getNearby_empty (h : SpatialHash.t) (x y : Q) :
  SpatialHash.wf h ->
  SpatialHash.wf (SpatialHash.clear h) /\ contents (SpatialHash.clear h) = [] /\
  SpatialHash.getNearby (SpatialHash.clear h) x y = Some [].
Proof.
  intros W. split; [apply clear_wf, W|]. split.
  - unfold contents; simpl. induction (SpatialHash.grid h); simpl; auto.
  - apply collect_clear, W.
Qed.

Lemma clear_getNearby_empty_witness :
  SpatialHash.wf Demo.hash800x600 /\
  SpatialHash.wf (SpatialHash.clear Demo.hash800x600) /\
  contents (SpatialHash.clear Demo.hash800x600) = [] /\
  SpatialHash.getNearby (SpatialHash.clear Demo.hash800x600) 1000 (-7) = Some [].
Proof.
  assert (W : SpatialHash.wf Demo.hash800x600) by (unfold SpatialHash.wf; simpl; qcheck).
  split; [exact W|]. exact (clear_getNearby_empty Demo.hash800x600 1000 (-7) W).
Defined.

(** Extra X2.  On a well-formed grid, [insert(k, x, y)] never throws, for
    any position (also outside the world, where the cell is clamped); the
    grid stays well formed, [k] is stored in the cell of (x, y), and the
    stored indices are exactly the old ones plus [k]. *)
Theorem insert_adds_index (h : SpatialHash.t) (k : nat) (x y : Q) :
  SpatialHash.wf h ->
  exists h', SpatialHash.insert h k x y = Some h' /\ SpatialHash.wf h' /\
    SpatialHash.mem h' k x y /\ Permutation (contents h') (k :: contents h).
Proof.
  intros W. destruct (HashFacts.insert_total h k x y W) as [h' E].
  exists h'. split; [exact E|]. split; [eapply HashFacts.insert_wf; eauto|].
  split; [eapply HashFacts.insert_mem_new; eauto|].
  unfold SpatialHash.insert in E.
  destruct (SpatialHash.cell h (SpatialHash.getCellIndex h x y)) as [c|] eqn:C;
    [|discriminate].
  simpl in E. inversion E; subst; clear E. unfold contents; simpl.
  apply concat_set_nth_snoc. unfold SpatialHash.cell in C.
  destruct (SpatialHash.getCellIndex h x y <? 0)%Z; [discriminate|]. exact C.
Qed.

Lemma insert_adds_index_witness :
  SpatialHash.wf Demo.hash800x600 /\
  exists h', SpatialHash.insert Demo.hash800x600 7 (-50) 900 = Some h' /\
    SpatialHash.wf h' /\ SpatialHash.mem h' 7 (-50) 900 /\
    Permutation (contents h') (7%nat :: contents Demo.hash800x600).
Proof.
  assert (W : SpatialHash.wf Demo.hash800x600) by (unfold SpatialHash.wf; simpl; qcheck).
  split; [exact W|]. exact (insert_adds_index Demo.hash800x600 7 (-50) 900 W).
Defined.

Lemma readPoints_ok x y is :
  (forall i, In i is -> (i < length x)%nat /\ (i < length y)%nat) ->
  SpatialHash.readPoints x y is = Some (map (fun i => (i, (nth i x 0, nth i y 0))) is).
Proof.
  induction is as [|i is IH]; intros H; simpl; [reflexivity|].
  destruct (H i (or_introl eq_refl)) as [Hx Hy].
  rewrite (nth_error_nth' x 0 Hx), (nth_error_nth' y 0 Hy). simpl.
  rewrite IH by (intros j Hj; apply H; right; exact Hj). reflexivity.
Qed.

Lemma readPoints_fail x y is i :
  In i is -> (length x <= i \/ length y <= i)%nat ->
  SpatialHash.readPoints x y is = None.
Proof.
  induction is as [|j is IH]; intros Hi Hl; [destruct Hi|]. simpl.
  destruct Hi as [E|Hi]; [subst j|].
  - destruct Hl as [Hl|Hl].
    + rewrite (proj2 (nth_error_None x i) Hl). reflexivity.
    + destruct (nth_error x i); simpl; [|reflexivity].
      rewrite (proj2 (nth_error_None y i) Hl). reflexivity.
  - destruct (nth_error x j); simpl; [|reflexivity].
    destruct (nth_error y j); simpl; [|reflexivity].
    rewrite (IH Hi Hl). reflexivity.
Qed.

Lemma insertAll_total h pts :
  SpatialHash.wf h -> exists h', SpatialHash.insertAll h pts = Some h'.
Proof.
  revert h; induction pts as [|[k [x y]] rest IH]; intros h W; simpl; [eauto|].
  destruct (HashFacts.insert_total h k x y W) as [h1 E]. rewrite E. simpl.
  apply IH. eapply HashFacts.insert_wf; eauto.
Qed.

(** Extra X3.  [getAllNearby(x, y, count)] on a grid of the shape the
    constructor builds (positive sizes, [ceil(width / cellSize)] columns and
    [ceil(height / cellSize)] rows) and arrays holding [count] entries never
    throws: it returns one array per particle, each holding only indices
    below [count], and the array of a particle lying in the world rectangle
    holds the particle's own index.  With an array shorter than [count] it
    throws. *)
Theorem getAllNearby_spec (h : SpatialHash.t) (x y : list Q) (count : nat) :
  SpatialHash.wf h -> 0 < SpatialHash.width h -> 0 < SpatialHash.height h ->
  SpatialHash.cols h = Qceiling (SpatialHash.width h / SpatialHash.cellSize h) ->
  SpatialHash.rows h = Qceiling (SpatialHash.height h / SpatialHash.cellSize h) ->
  ((count <= length x)%nat -> (count <= length y)%nat ->
   exists h' result, SpatialHash.getAllNearby h x y count = Some (h', result) /\
     SpatialHash.wf h' /\ length result = count /\
     forall i l, nth_error result i = Some l ->
       (forall k, In k l -> (k < count)%nat) /\
       (0 <= nth i x 0 <= SpatialHash.width h -> 0 <= nth i y 0 <= SpatialHash.height h ->
        In i l)) /\
  ((length x < count \/ length y < count)%nat ->
   SpatialHash.getAllNearby h x y count = None).
Proof.
  intros W Hw Hh Ecols Erows. split.
  - intros Lx Ly.
    set (pts := map (fun i => (i, (nth i x 0, nth i y 0))) (seq 0 count)).
    assert (Rp : SpatialHash.readPoints x y (seq 0 count) = Some pts).
    { apply readPoints_ok. intros i Hi. apply in_seq in Hi. lia. }
    pose proof (clear_wf h W) as W0.
    destruct (insertAll_total _ pts W0) as [h' Ins].
    pose proof (HashFacts.insertAll_wf _ _ _ W0 Ins) as W'.
    destruct (HashFacts.insertAll_shape _ _ _ Ins) as (S1 & S2 & S3 & _).
    simpl in S1, S2, S3.
    destruct (mapM_total (fun p => SpatialHash.getNearby h' (fst (snd p)) (snd (snd p))) pts)
      as [res Res].
    { intros p _. apply HashFacts.getNearby_total. exact W'. }
    exists h', res. unfold SpatialHash.getAllNearby. rewrite Rp. simpl.
    rewrite Ins. simpl. rewrite Res. simpl.
    split; [reflexivity|]. split; [exact W'|].
    destruct (mapM_nth _ _ _ Res) as [Lr Nr].
    split; [unfold pts in Lr; rewrite length_map, length_seq in Lr; exact Lr|].
    intros i l Hl.
    assert (Hi : (i < count)%nat).
    { assert (H : (i < length res)%nat) by (apply nth_error_Some; congruence).
      rewrite Lr in H. unfold pts in H. rewrite length_map, length_seq in H. exact H. }
    assert (Pi : nth_error pts i = Some (i, (nth i x 0, nth i y 0))).
    { unfold pts. rewrite nth_error_map, nth_error_seq.
      replace (i <? count)%nat with true by (symmetry; apply Nat.ltb_lt; exact Hi).
      reflexivity. }
    rewrite (Nr i _ Pi) in Hl. simpl in Hl.
    split.
    + refine (collect_indices count h' _ l _ Hl).
      refine (insertAll_indices _ _ _ _ (clear_indices _ _) _ Ins).
      intros k p Hk. unfold pts in Hk. apply in_map_iff in Hk as (j & E & Hj).
      inversion E; subst. apply in_seq in Hj. lia.
    + intros Hx Hy. pose proof W as (Hc & _).
      eapply HashFacts.getNearby_sound; [exact W' | | | | |
        eapply HashFacts.insertAll_mem; [exact Ins | exact (nth_error_In pts i Pi)]
        | exact Hl].
      * rewrite S1, S2, Ecols. apply HashFacts.world_cell_range; auto.
      * rewrite S1, S3, Erows. apply HashFacts.world_cell_range; auto.
      * rewrite S1. setoid_replace (nth i x 0 - nth i x 0) with 0 by ring.
        simpl. lra.
      * rewrite S1. setoid_replace (nth i y 0 - nth i y 0) with 0 by ring.
        simpl. lra.
  - intros Hl. unfold SpatialHash.getAllNearby.
    rewrite (readPoints_fail x y (seq 0 count) (Nat.min (length x) (length y))).
    + reflexivity.
    + apply in_seq. lia.
    + lia.
Qed.

Lemma getAllNearby_spec_witness :
  SpatialHash.wf Demo.hash800x600 /\
  ((2 <= length [10; 20])%nat -> (2 <= length [10; 500])%nat ->
   exists h' result,
     SpatialHash.getAllNearby Demo.hash800x600 [10; 20] [10; 500] 2 = Some (h', result) /\
     SpatialHash.wf h' /\ length result = 2%nat /\
     forall i l, nth_error result i = Some l ->
       (forall k, In k l -> (k < 2)%nat) /\
       (0 <= nth i [10; 20] 0 <= SpatialHash.width Demo.hash800x600 ->
        0 <= nth i [10; 500] 0 <= SpatialHash.height Demo.hash800x600 -> In i l)) /\
  ((length [10; 20] < 2 \/ length [10; 500] < 2)%nat ->
   SpatialHash.getAllNearby Demo.hash800x600 [10; 20] [10; 500] 2 = None).
Proof.
  assert (W : SpatialHash.wf Demo.hash800x600) by (unfold SpatialHash.wf; simpl; qcheck).
  split; [exact W|].
  apply (getAllNearby_spec Demo.hash800x600 [10; 20] [10; 500] 2 W); qcheck.
Defined.

(** ** Resizing the world *)

Lemma clampTo_cases lo hi v :
  (v < hi /\ lo < v /\ Sim.clampTo lo hi v = v) \/
  (hi <= v /\ lo < hi /\ Sim.clampTo lo hi v = hi) \/
  (((v < hi /\ v <= lo) \/ (hi <= v /\ hi <= lo)) /\ Sim.clampTo lo hi v = lo).
Proof.
  unfold Sim.clampTo, JS.max, JS.min.
  destruct (JS.qlt v hi) eqn:E1; [apply qlt_iff in E1 | apply qlt_false in E1].
  - destruct (JS.qlt lo v) eqn:E2; [apply qlt_iff in E2 | apply qlt_false in E2]; tauto.
  - destruct (JS.qlt lo hi) eqn:E2; [apply qlt_iff in E2 | apply qlt_false in E2]; tauto.
Qed.




Lemma clampTo_compat lo hi u v : u == v -> Sim.clampTo lo hi u == Sim.clampTo lo hi v.
Proof.
  destruct (clampTo_cases lo hi u) as [(? & ? & ->)|[(? & ? & ->)|(? & ->)]];
  destruct (clampTo_cases lo hi v) as [(? & ? & ->)|[(? & ? & ->)|(? & ->)]]; lra.
Qed.

Lemma clampTo_idem lo hi v :
  Sim.clampTo lo hi (Sim.clampTo lo hi v) == Sim.clampTo lo hi v.
Proof.
  set (c := Sim.clampTo lo hi v).
  assert (Hc : (v < hi /\ lo < v /\ c = v) \/ (hi <= v /\ lo < hi /\ c = hi) \/
               (((v < hi /\ v <= lo) \/ (hi <= v /\ hi <= lo)) /\ c = lo))
    by exact (clampTo_cases lo hi v).
  clearbody c.
  destruct (clampTo_cases lo hi c) as [(? & ? & ->)|[(? & ? & ->)|(? & ->)]];
  destruct Hc as [(? & ? & ->)|[(? & ? & ->)|(? & ->)]];
  repeat match goal with H : _ \/ _ |- _ => destruct H end; lra.
Qed.

Lemma new_total cs w h :
  0 < cs -> 0 < w -> 0 < h -> exists h0, SpatialHash.new cs w h = Some h0.
Proof.
  intros Hc Hw Hh. unfold SpatialHash.new, SpatialHash.alloc.
  destruct (Qeq_bool cs 0) eqn:Ez; [apply Qeq_bool_iff in Ez; lra|].
  pose proof (ceiling_pos _ (div_pos w cs Hc Hw)).
  pose proof (ceiling_pos _ (div_pos h cs Hc Hh)).
  destruct (Qceiling (w / cs) * Qceiling (h / cs) <? 0)%Z eqn:En.
  - apply Z.ltb_lt in En. nia.
  - simpl. eauto.
Qed.


(** The state [resize] produces. *)
Lemma resize_cases s w h s' :
  (Sim.count s <= Sim.lanes s)%nat ->
  Sim.resize s w h = Some s' ->
  exists sh, SpatialHash.new (SpatialHash.cellSize (Sim.spatialHash s)) w h = Some sh /\
    ((Sim.count s = 0)%nat \/ (~ Sim.width s == 0 /\ ~ Sim.height s == 0)) /\
    Sim.width s' = w /\ Sim.height s' = h /\ Sim.spatialHash s' = sh /\
    Sim.count s' = Sim.count s /\ Sim.types s' = Sim.types s /\
    Sim.typeCount s' = Sim.typeCount s /\
    Sim.interactionMatrix s' = Sim.interactionMatrix s /\
    Sim.useBruteForce s' = Sim.useBruteForce s /\
    Sim.interactionRadius s' = Sim.interactionRadius s /\
    Sim.lanes s' = Sim.lanes s /\
    forall i, Sim.particle s' i =
      if (i <? Sim.count s)%nat then
        let '(x, y, vx, vy) := Sim.particle s i in
        (Sim.clampTo PARTICLE_RADIUS (w - PARTICLE_RADIUS) (x * (w / Sim.width s)),
         Sim.clampTo PARTICLE_RADIUS (h - PARTICLE_RADIUS) (y * (h / Sim.height s)),
         vx, vy)
      else Sim.particle s i.
Proof.
  intros Hl E. unfold Sim.resize, SpatialHash.resize, JS.bind in E.
  destruct (SpatialHash.new _ w h) as [sh|] eqn:N; [|discriminate].
  destruct ((0 <? Sim.count s)%nat && (Qeq_bool (Sim.width s) 0 || Qeq_bool (Sim.height s) 0))
    eqn:Z0; [discriminate|].
  inversion E; subst s'; clear E. exists sh. split; [reflexivity|]. split.
  { destruct (Nat.eq_dec (Sim.count s) 0) as [C|C]; [left; exact C|right].
    apply andb_false_iff in Z0 as [Z0|Z0].
    - apply Nat.ltb_ge in Z0. lia.
    - apply orb_false_iff in Z0 as [Z1 Z2]. split; intros Hq.
      + apply Qeq_bool_iff in Hq. congruence.
      + apply Qeq_bool_iff in Hq. congruence. }
  match goal with |- context [Sim.loop ?f ?s1] =>
    pose proof (SimFacts.frame_loop f s1) as Fr;
    pose proof (SimFacts.particle_loop f s1) as Pl end.
  unfold Sim.frame in Fr; simpl in Fr.
  injection Fr as Ew Eh Ety Ec Etc Em Esh Efx Efy Eb Er El.
  repeat split; try assumption.
  all: try (intros i; rewrite Pl by (simpl; exact Hl); simpl;
            unfold Sim.particle; simpl; reflexivity).
  all: try (rewrite El; reflexivity).
Qed.


Lemma resize_total s w h :
  0 < SpatialHash.cellSize (Sim.spatialHash s) ->
  2 * PARTICLE_RADIUS <= w -> 2 * PARTICLE_RADIUS <= h ->
  ~ Sim.width s == 0 -> ~ Sim.height s == 0 -> exists s', Sim.resize s w h = Some s'.
Proof.
  intros Hc Hw Hh Hw0 Hh0. unfold PARTICLE_RADIUS in Hw, Hh.
  destruct (new_total _ w h Hc ltac:(lra) ltac:(lra)) as [sh N].
  unfold Sim.resize, SpatialHash.resize, JS.bind. rewrite N.
  destruct (Qeq_bool (Sim.width s) 0) eqn:E1; [apply Qeq_bool_iff in E1; contradiction|].
  destruct (Qeq_bool (Sim.height s) 0) eqn:E2; [apply Qeq_bool_iff in E2; contradiction|].
  rewrite andb_false_r. eauto.
Qed.

(** Extra X5.  Resizing to the size the world already has changes nothing
    more: after [resize(w, h)], a second [resize(w, h)] leaves every
    particle's position (up to the equality of numbers) and velocity as they
    are.  This is for non-zero old dimensions and a positive target size
    (at a zero dimension the scale factor is [Infinity] or [NaN]) whose
    grid fits in an array. *)
Theorem resize_idempotent (s s1 s2 : Sim.t) (w h : Q) :
  (Sim.count s <= Sim.lanes s)%nat ->
  ~ Sim.width s == 0 -> ~ Sim.height s == 0 -> 0 < w -> 0 < h ->
  gridFits (SpatialHash.cellSize (Sim.spatialHash s)) w h ->
  Sim.resize s w h = Some s1 -> Sim.resize s1 w h = Some s2 ->
  Sim.width s2 = w /\ Sim.height s2 = h /\ Sim.count s2 = Sim.count s1 /\
  forall i, nth i (Sim.xs s2) 0 == nth i (Sim.xs s1) 0 /\
            nth i (Sim.ys s2) 0 == nth i (Sim.ys s1) 0 /\
            nth i (Sim.vxs s2) 0 = nth i (Sim.vxs s1) 0 /\
            nth i (Sim.vys s2) 0 = nth i (Sim.vys s1) 0.
Proof.
  intros Hl _ _ _ _ _ E1 E2.
  destruct (resize_cases s w h s1 Hl E1)
    as (sh1 & _ & _ & Ew1 & Eh1 & _ & Ec1 & _ & _ & _ & _ & _ & El1 & Hp1).
  destruct (resize_cases s1 w h s2 ltac:(rewrite El1, Ec1; exact Hl) E2)
    as (sh2 & _ & Hnz & Ew2 & Eh2 & _ & Ec2 & _ & _ & _ & _ & _ & _ & Hp2).
  rewrite Ew1, Eh1 in Hnz.
  split; [exact Ew2|]. split; [exact Eh2|]. split; [exact Ec2|].
  intros i. pose proof (Hp1 i) as P1. pose proof (Hp2 i) as P2.
  rewrite Ew1, Eh1, Ec1 in P2.
  unfold Sim.particle in P1, P2.
  destruct (i <? Sim.count s)%nat eqn:Ei.
  - apply Nat.ltb_lt in Ei.
    destruct Hnz as [C|[Hw Hh]]; [lia|].
    injection P1 as X1 Y1 VX1 VY1. injection P2 as X2 Y2 VX2 VY2.
    rewrite X2, Y2, VX2, VY2. split; [|split; [|split; reflexivity]].
    + rewrite X1. etransitivity; [apply clampTo_compat|apply clampTo_idem].
      field. exact Hw.
    + rewrite Y1. etransitivity; [apply clampTo_compat|apply clampTo_idem].
      field. exact Hh.
  - injection P2 as X2 Y2 VX2 VY2. rewrite X2, Y2, VX2, VY2.
    repeat split; reflexivity.
Qed.


Lemma resize_idempotent_witness :
  exists s1 s2,
    (Sim.count Demo.pair <= Sim.lanes Demo.pair)%nat /\
    gridFits (SpatialHash.cellSize (Sim.spatialHash Demo.pair)) 400 300 /\
    Sim.resize Demo.pair 400 300 = Some s1 /\ Sim.resize s1 400 300 = Some s2 /\
    Sim.width s2 = 400 /\ Sim.height s2 = 300 /\ Sim.count s2 = Sim.count s1 /\
    forall i, nth i (Sim.xs s2) 0 == nth i (Sim.xs s1) 0 /\
              nth i (Sim.ys s2) 0 == nth i (Sim.ys s1) 0 /\
              nth i (Sim.vxs s2) 0 = nth i (Sim.vxs s1) 0 /\
              nth i (Sim.vys s2) 0 = nth i (Sim.vys s1) 0.
Proof.
  destruct (Sim.resize Demo.pair 400 300) as [s1|] eqn:E1;
    [|vm_compute in E1; discriminate].
  destruct (Sim.resize s1 400 300) as [s2|] eqn:E2.
  2: { vm_compute in E1. inversion E1; subst s1. vm_compute in E2. discriminate. }
  assert (H : (Sim.count Demo.pair <= Sim.lanes Demo.pair)%nat) by (vm_compute; lia).
  assert (G : gridFits (SpatialHash.cellSize (Sim.spatialHash Demo.pair)) 400 300)
    by (unfold gridFits; vm_compute; discriminate).
  exists s1, s2. split; [exact H|]. split; [exact G|]. split; [reflexivity|].
  split; [exact E2|].
  exact (resize_idempotent Demo.pair s1 s2 400 300 H ltac:(qcheck) ltac:(qcheck)
           ltac:(qcheck) ltac:(qcheck) G E1 E2).
Defined.

(** ** What a step keeps *)

Lemma boundAxis_in lo hi p v :
  lo <= hi -> lo <= fst (Sim.boundAxis lo hi p v) <= hi.
Proof.
  intros H. destruct (boundAxis_spec lo hi p v) as (H1 & H2 & H3).
  destruct (Qlt_le_dec p lo) as [L|L]; [rewrite H1 by exact L; simpl; lra|].
  destruct (Qlt_le_dec hi p) as [G|G].
  - rewrite H2 by assumption. simpl. lra.
  - rewrite H3 by assumption. simpl. lra.
Qed.

Lemma Qabs_sq (v : Q) : Qabs v * Qabs v == v * v.
Proof.
  destruct (Qlt_le_dec v 0) as [L|L].
  - rewrite Qabs_neg by lra. ring.
  - rewrite Qabs_pos by exact L. reflexivity.
Qed.

Lemma boundAxis_vel lo hi p v :
  snd (Sim.boundAxis lo hi p v) * snd (Sim.boundAxis lo hi p v) <= v * v.
Proof.
  destruct (boundAxis_spec lo hi p v) as (H1 & H2 & H3).
  assert (Hs : 0 <= v * v) by nra.
  assert (E : (Qabs v * (8 # 10)) * (Qabs v * (8 # 10)) == (16 # 25) * (v * v)).
  { transitivity ((16 # 25) * (Qabs v * Qabs v)); [ring|]. rewrite Qabs_sq. reflexivity. }
  destruct (Qlt_le_dec p lo) as [L|L]; [rewrite H1 by exact L; simpl; lra|].
  destruct (Qlt_le_dec hi p) as [G|G].
  - rewrite H2 by assumption. simpl.
    setoid_replace (- Qabs v * (8 # 10) * (- Qabs v * (8 # 10)))
      with ((Qabs v * (8 # 10)) * (Qabs v * (8 # 10))) by ring. lra.
  - rewrite H3 by assumption. simpl. lra.
Qed.

(** Particle [i] after a step, from the state the force phase left. *)
Lemma update_particle sqrt s dt s' i :
  (Sim.count s <= Sim.lanes s)%nat -> (i < Sim.count s)%nat ->
  Sim.update sqrt s dt = Some s' ->
  exists s1, Sim.computeForces sqrt s = Some s1 /\
    Sim.particle s' i =
    Sim.handleOne (Sim.width s) (Sim.height s)
      (Sim.integrateOne sqrt (JS.min dt (1 # 30) * 60)
         (nth i (Sim.fxs s1) 0) (nth i (Sim.fys s1) 0) (Sim.particle s i)).
Proof.
  intros Hl Hi Hu.
  destruct (update_integrated sqrt s dt s' ltac:(lia) Hu)
    as (s1 & Hf & Es' & Ew & Eh & Ec & El).
  exists s1. split; [exact Hf|]. rewrite Es'.
  rewrite handleBoundaries_particle by (rewrite ?Ec, ?El; lia).
  rewrite Ew, Eh. f_equal.
  apply integrate_particle; auto.
  exact (SimFacts.computeForces_kinematics sqrt s s1 Hf).
Qed.

(** Extra X6.  In a world at least [2 * PARTICLE_RADIUS] wide and high,
    every particle lies in [[R, width - R] x [R, height - R]]
    ([R = PARTICLE_RADIUS]) after a step [update(dt)], whatever the forces,
    velocities and [dt]. *)
Theorem update_in_box (sqrt : Q -> Q) (s s' : Sim.t) (dt : Q) :
  2 * PARTICLE_RADIUS <= Sim.width s -> 2 * PARTICLE_RADIUS <= Sim.height s ->
  (Sim.count s <= Sim.lanes s)%nat ->
  Sim.update sqrt s dt = Some s' ->
  forall i, (i < Sim.count s)%nat ->
    inBox PARTICLE_RADIUS (Sim.width s) (Sim.height s)
          (nth i (Sim.xs s') 0) (nth i (Sim.ys s') 0).
Proof.
  intros Hw Hh Hl Hu i Hi.
  destruct (update_particle sqrt s dt s' i Hl Hi Hu) as (s1 & _ & P).
  unfold Sim.particle at 1 in P.
  destruct (Sim.integrateOne _ _ _ _ _) as [[[x y] vx] vy].
  rewrite handleOne_eq in P. injection P as Ex Ey _ _.
  rewrite Ex, Ey. unfold inBox.
  split; apply boundAxis_in; lra.
Qed.

Lemma sqrtUp_spec (q : Q) : 0 <= q -> 0 <= sqrtUp q /\ q <= sqrtUp q * sqrtUp q.
Proof.
  destruct q as [n d]. unfold sqrtUp, Qle; simpl. intros Hq.
  rewrite Z.mul_1_r in Hq.
  pose proof (Z.sqrt_nonneg (n * Z.pos d)).
  pose proof (Z.sqrt_spec (n * Z.pos d) ltac:(nia)) as [_ S].
  unfold Z.succ in S.
  split; [nia|].
  rewrite Pos2Z.inj_mul. nia.
Qed.

(** Extra X7.  With a square root that is non-negative and never below the
    exact root (as [Math.sqrt] on exact numbers), every particle's speed
    after a step [update(dt)] is at most [MAX_VELOCITY]: the clamp of
    [integrate] bounds it and the bounce of [handleBoundaries] only damps
    it. *)
Theorem update_speed_bound (sqrt : Q -> Q) (s s' : Sim.t) (dt : Q) :
  (forall q, 0 <= q -> 0 <= sqrt q /\ q <= sqrt q * sqrt q) ->
  (Sim.count s <= Sim.lanes s)%nat ->
  Sim.update sqrt s dt = Some s' ->
  forall i, (i < Sim.count s)%nat ->
    nth i (Sim.vxs s') 0 * nth i (Sim.vxs s') 0 +
    nth i (Sim.vys s') 0 * nth i (Sim.vys s') 0 <= MAX_VELOCITY * MAX_VELOCITY.
Proof.
  intros Hsq Hl Hu i Hi.
  destruct (update_particle sqrt s dt s' i Hl Hi Hu) as (s1 & _ & P).
  unfold Sim.particle at 1 in P.
  destruct (Sim.particle s i) as [[[x y] vx] vy].
  destruct (integrateOne_spec sqrt (JS.min dt (1 # 30) * 60)
              (nth i (Sim.fxs s1) 0) (nth i (Sim.fys s1) 0) x y vx vy)
    as (vx3 & vy3 & E & Cbig & Csmall).
  rewrite E, handleOne_eq in P. injection P as _ _ Evx Evy.
  rewrite Evx, Evy.
  pose proof (boundAxis_vel PARTICLE_RADIUS (Sim.width s - PARTICLE_RADIUS)
                (x + vx3 * (JS.min dt (1 # 30) * 60)) vx3) as Bx.
  pose proof (boundAxis_vel PARTICLE_RADIUS (Sim.height s - PARTICLE_RADIUS)
                (y + vy3 * (JS.min dt (1 # 30) * 60)) vy3) as By.
  enough (vx3 * vx3 + vy3 * vy3 <= MAX_VELOCITY * MAX_VELOCITY) by lra.
  set (vx2 := (vx + nth i (Sim.fxs s1) 0 * (JS.min dt (1 # 30) * 60)) * FRICTION) in *.
  set (vy2 := (vy + nth i (Sim.fys s1) 0 * (JS.min dt (1 # 30) * 60)) * FRICTION) in *.
  set (q := vx2 * vx2 + vy2 * vy2) in *.
  set (sp := sqrt q) in *.
  assert (Hq : 0 <= q) by (unfold q; nra).
  destruct (Hsq q Hq) as [Hsp Hqs]. fold sp in Hsp, Hqs.
  unfold MAX_VELOCITY in *.
  destruct (Qlt_le_dec 5 sp) as [L|L].
  - destruct (Cbig L) as [-> ->].
    set (t := 5 / sp).
    assert (Ht : t * sp == 5) by (unfold t; field; lra).
    assert (Ht0 : 0 <= t * t) by nra.
    setoid_replace (vx2 * t * (vx2 * t) + vy2 * t * (vy2 * t)) with (q * (t * t))
      by (unfold q; ring).
    setoid_replace (5 * 5) with ((t * sp) * (t * sp)) by (rewrite Ht; reflexivity).
    setoid_replace ((t * sp) * (t * sp)) with ((sp * sp) * (t * t)) by ring.
    apply Qmult_le_compat_r; [exact Hqs | exact Ht0].
  - destruct (Csmall L) as [-> ->]. fold q. nra.
Qed.

Lemma update_in_box_witness :
  exists s', Sim.update sqrtUp Demo.pair (1 # 60) = Some s' /\
    forall i, (i < Sim.count Demo.pair)%nat ->
      inBox PARTICLE_RADIUS (Sim.width Demo.pair) (Sim.height Demo.pair)
            (nth i (Sim.xs s') 0) (nth i (Sim.ys s') 0).
Proof.
  destruct (Sim.update sqrtUp Demo.pair (1 # 60)) as [s'|] eqn:E;
    [|vm_compute in E; discriminate].
  assert (H1 : 2 * PARTICLE_RADIUS <= Sim.width Demo.pair) by qcheck.
  assert (H2 : 2 * PARTICLE_RADIUS <= Sim.height Demo.pair) by qcheck.
  assert (H3 : (Sim.count Demo.pair <= Sim.lanes Demo.pair)%nat) by (vm_compute; lia).
  exists s'. split; [reflexivity|].
  exact (update_in_box sqrtUp Demo.pair s' (1 # 60) H1 H2 H3 E).
Defined.

Lemma update_speed_bound_witness :
  exists s', Sim.update sqrtUp Demo.pair (1 # 60) = Some s' /\
    forall i, (i < Sim.count Demo.pair)%nat ->
      nth i (Sim.vxs s') 0 * nth i (Sim.vxs s') 0 +
      nth i (Sim.vys s') 0 * nth i (Sim.vys s') 0 <= MAX_VELOCITY * MAX_VELOCITY.
Proof.
  destruct (Sim.update sqrtUp Demo.pair (1 # 60)) as [s'|] eqn:E;
    [|vm_compute in E; discriminate].
  assert (H3 : (Sim.count Demo.pair <= Sim.lanes Demo.pair)%nat) by (vm_compute; lia).
  exists s'. split; [reflexivity|].
  exact (update_speed_bound sqrtUp Demo.pair s' (1 # 60) sqrtUp_spec H3 E).
Defined.

(** ** The force phase: balance and totality *)

Lemma sumQ_set_nth (l : list Q) i v :
  (i < length l)%nat -> sumQ (set_nth l i v) == sumQ l - nth i l 0 + v.
Proof.
  revert i; induction l as [|a l IH]; intros [|i] Hi; simpl in *; try lia.
  - unfold sumQ; simpl. ring.
  - unfold sumQ in *; simpl. rewrite IH by lia. ring.
Qed.

Lemma sumQ_zeros (l : list Q) : sumQ (map (fun _ => 0) l) == 0.
Proof. induction l as [|a l IH]; unfold sumQ in *; simpl; [reflexivity|]. rewrite IH. reflexivity. Qed.

Lemma applyPair_balanced Lx Ly i j f acc :
  (i < Lx)%nat -> (j < Lx)%nat -> (i < Ly)%nat -> (j < Ly)%nat ->
  balanced Lx Ly acc -> balanced Lx Ly (Sim.applyPair i j f acc).
Proof.
  destruct f as [fx fy], acc as [ax ay]. unfold balanced; simpl.
  intros Hi Hj Hi' Hj' (Lax & Lay & Sx & Sy).
  rewrite !length_set_nth. split; [exact Lax|]. split; [exact Lay|].
  split.
  - rewrite sumQ_set_nth by (rewrite length_set_nth; lia).
    rewrite sumQ_set_nth by lia. rewrite Sx. ring.
  - rewrite sumQ_set_nth by (rewrite length_set_nth; lia).
    rewrite sumQ_set_nth by lia. rewrite Sy. ring.
Qed.

Lemma pairStep_balanced contrib s Lx Ly i j acc acc' :
  (i < Lx)%nat -> (j < Lx)%nat -> (i < Ly)%nat -> (j < Ly)%nat ->
  balanced Lx Ly acc -> Sim.pairStep contrib s i j acc = Some acc' ->
  balanced Lx Ly acc'.
Proof.
  intros Hi Hj Hi' Hj' B. unfold Sim.pairStep, JS.bind.
  destruct (contrib _ _ _ _ _ _) as [[f|]|]; try discriminate;
    intros E; inversion E; subst; clear E.
  - apply applyPair_balanced; assumption.
  - exact B.
Qed.

Lemma computeForces_balanced sqrt s s1 :
  (Sim.count s <= length (Sim.fxs s))%nat -> (Sim.count s <= length (Sim.fys s))%nat ->
  Sim.computeForces sqrt s = Some s1 ->
  balanced (length (Sim.fxs s)) (length (Sim.fys s)) (Sim.fxs s1, Sim.fys s1).
Proof.
  intros Lx Ly. unfold Sim.computeForces. cbn [Sim.useBruteForce Sim.with_forces].
  set (P := balanced (length (Sim.fxs s)) (length (Sim.fys s))).
  assert (P0 : P (map (fun _ => 0) (Sim.fxs s), map (fun _ => 0) (Sim.fys s))).
  { unfold P, balanced; simpl. rewrite !length_map, !sumQ_zeros.
    repeat split; reflexivity. }
  destruct (Sim.useBruteForce s) eqn:Hb.
  - unfold Sim.calculateForcesBruteForce, JS.bind.
    destruct (Sim.foldM _ _ _) as [acc|] eqn:Ef; [|discriminate].
    intros E; inversion E; subst; clear E. simpl. destruct acc as [ax ay].
    refine (foldM_inv P _ _ _ _ P0 _ Ef).
    intros a i a' Hi Ha Hin. apply in_seq in Hi.
    refine (foldM_inv P _ _ _ _ Ha _ Hin).
    intros b j b' Hj Hb' Hst. apply in_seq in Hj. simpl in Hi, Hj.
    refine (pairStep_balanced _ _ _ _ i j b b' _ _ _ _ Hb' Hst); lia.
  - unfold JS.bind at 1.
    destruct (SpatialHash.insertAll _ _) as [h|] eqn:Eh; [|discriminate].
    assert (Hidx : SpatialHash.indices_below (Sim.count s) h).
    { refine (insertAll_indices _ _ _ _ (clear_indices _ _) _ Eh).
      intros k p Hk. exact (points_indices _ k p Hk). }
    unfold Sim.calculateForces, JS.bind.
    destruct (Sim.foldM _ _ _) as [acc|] eqn:Ef; [|discriminate].
    intros E; inversion E; subst; clear E. simpl. destruct acc as [ax ay].
    refine (foldM_inv P _ _ _ _ P0 _ Ef).
    intros a i a' Hi Ha Hin. apply in_seq in Hi. simpl in Hin, Hi.
    destruct (SpatialHash.getNearby h _ _) as [nb|] eqn:En; [|discriminate].
    assert (Hnb : forall k, In k nb -> (k < Sim.count s)%nat)
      by exact (collect_indices _ _ _ _ Hidx En).
    refine (foldM_inv P _ _ _ _ Ha _ Hin).
    intros b j b' Hj Hb' Hst. specialize (Hnb j Hj).
    destruct (j <=? i)%nat.
    + inversion Hst; subst; exact Hb'.
    + refine (pairStep_balanced _ _ _ _ i j b b' _ _ _ _ Hb' Hst); lia.
Qed.

Lemma frame_forces s s' :
  Sim.frame s' = Sim.frame s -> Sim.fxs s' = Sim.fxs s /\ Sim.fys s' = Sim.fys s.
Proof. unfold Sim.frame. intros E. injection E. auto. Qed.

(** Extra X8.  When the force arrays have a slot for every particle, the
    forces a step [update(dt)] of a non-empty simulation leaves in [fx] and
    [fy] each sum to zero: every pair adds a force to one particle and
    subtracts it from the other. *)
Theorem update_forces_balance (sqrt : Q -> Q) (s s' : Sim.t) (dt : Q) :
  (0 < Sim.count s)%nat ->
  (Sim.count s <= length (Sim.fxs s))%nat -> (Sim.count s <= length (Sim.fys s))%nat ->
  Sim.update sqrt s dt = Some s' ->
  sumQ (Sim.fxs s') == 0 /\ sumQ (Sim.fys s') == 0.
Proof.
  intros Hc Lx Ly Hu.
  destruct (update_cases sqrt s dt s' Hc Hu) as (s1 & Hf & ->).
  destruct (computeForces_balanced sqrt s s1 Lx Ly Hf) as (_ & _ & Sx & Sy).
  pose proof (frame_integrate sqrt (JS.min dt (1 # 30)) s1) as F1.
  rewrite SimFacts.handleBoundaries_loop.
  pose proof (SimFacts.frame_loop
     (fun _ => Sim.handleOne (Sim.width (Sim.integrate sqrt (JS.min dt (1 # 30)) s1))
                             (Sim.height (Sim.integrate sqrt (JS.min dt (1 # 30)) s1)))
     (Sim.integrate sqrt (JS.min dt (1 # 30)) s1)) as F2.
  destruct (frame_forces _ _ F1) as [X1 Y1].
  destruct (frame_forces _ _ F2) as [X2 Y2].
  rewrite X2, Y2, X1, Y1. split; assumption.
Qed.

Lemma update_forces_balance_witness :
  exists s', Sim.update sqrtUp Demo.pair (1 # 60) = Some s' /\
    sumQ (Sim.fxs s') == 0 /\ sumQ (Sim.fys s') == 0.
Proof.
  destruct (Sim.update sqrtUp Demo.pair (1 # 60)) as [s'|] eqn:E;
    [|vm_compute in E; discriminate].
  assert (H1 : (0 < Sim.count Demo.pair)%nat) by (vm_compute; lia).
  assert (H2 : (Sim.count Demo.pair <= length (Sim.fxs Demo.pair))%nat) by (vm_compute; lia).
  assert (H3 : (Sim.count Demo.pair <= length (Sim.fys Demo.pair))%nat) by (vm_compute; lia).
  exists s'. split; [reflexivity|].
  exact (update_forces_balance sqrtUp Demo.pair s' (1 # 60) H1 H2 H3 E).
Defined.

Lemma entry_total m tc a b :
  square tc m -> (0 <= a < tc)%Z -> (0 <= b < tc)%Z ->
  exists v, Sim.entry m a b = Some v.
Proof.
  intros [Lm Lr] Ha Hb. unfold Sim.entry.
  replace ((a <? 0) || (b <? 0))%Z with false
    by (symmetry; apply orb_false_iff; split; apply Z.ltb_ge; lia).
  destruct (nth_error m (Z.to_nat a)) as [row|] eqn:Er.
  - simpl. apply nth_error_In in Er as Hin. apply Lr in Hin.
    destruct (nth_error row (Z.to_nat b)) as [v|] eqn:Ev; [eauto|].
    apply nth_error_None in Ev. lia.
  - apply nth_error_None in Er. lia.
Qed.

Lemma avgAttraction_total m tc a b :
  square tc m -> (0 <= a < tc)%Z -> (0 <= b < tc)%Z ->
  exists v, Sim.avgAttraction m a b = Some v.
Proof.
  intros Sq Ha Hb. unfold Sim.avgAttraction.
  destruct (entry_total m tc a b Sq Ha Hb) as [u Eu]. rewrite Eu. simpl.
  destruct (entry_total m tc b a Sq Hb Ha) as [v Ev]. rewrite Ev. simpl. eauto.
Qed.

Lemma bfContribution_total sqrt m tc xi yi ti xj yj tj :
  square tc m -> (0 <= ti < tc)%Z -> (0 <= tj < tc)%Z ->
  exists c, Sim.bfContribution sqrt m xi yi ti xj yj tj = Some c.
Proof.
  intros Sq Hi Hj. destruct (avgAttraction_total m tc ti tj Sq Hi Hj) as [a Ea].
  unfold Sim.bfContribution. destruct (JS.qlt _ _); [eauto|].
  rewrite Ea. simpl. eauto.
Qed.

Lemma shContribution_total sqrt ir m tc xi yi ti xj yj tj :
  square tc m -> (0 <= ti < tc)%Z -> (0 <= tj < tc)%Z ->
  exists c, Sim.shContribution sqrt ir m xi yi ti xj yj tj = Some c.
Proof.
  intros Sq Hi Hj. destruct (avgAttraction_total m tc ti tj Sq Hi Hj) as [a Ea].
  unfold Sim.shContribution. destruct (_ || _); [eauto|].
  rewrite Ea. simpl. eauto.
Qed.

Lemma pairStep_total contrib s i j acc :
  (exists c, contrib (nth i (Sim.xs s) 0) (nth i (Sim.ys s) 0) (nth i (Sim.types s) 0%Z)
                     (nth j (Sim.xs s) 0) (nth j (Sim.ys s) 0) (nth j (Sim.types s) 0%Z)
             = Some c) ->
  exists acc', Sim.pairStep contrib s i j acc = Some acc'.
Proof.
  intros [c Ec]. unfold Sim.pairStep. rewrite Ec. simpl.
  destruct c; eauto.
Qed.

(** Extra X9.  A step [update(dt)] never throws when every particle's type
    lies in [[0, typeCount)], the interaction matrix is [typeCount] x
    [typeCount], and, in spatial-hash mode, the grid has the shape its
    constructor gives it. *)
Theorem update_total (sqrt : Q -> Q) (s : Sim.t) (dt : Q) :
  (forall i, (i < Sim.count s)%nat -> (0 <= nth i (Sim.types s) 0 < Sim.typeCount s)%Z) ->
  square (Sim.typeCount s) (Sim.interactionMatrix s) ->
  (Sim.useBruteForce s = false -> SpatialHash.wf (Sim.spatialHash s)) ->
  exists s', Sim.update sqrt s dt = Some s'.
Proof.
  intros Ht Sq Hw. unfold Sim.update.
  destruct (Sim.count s =? 0)%nat; [eauto|].
  enough (exists s1, Sim.computeForces sqrt s = Some s1) as [s1 ->] by (simpl; eauto).
  unfold Sim.computeForces. cbn [Sim.useBruteForce Sim.with_forces].
  destruct (Sim.useBruteForce s) eqn:Hb.
  - unfold Sim.calculateForcesBruteForce. cbn [Sim.count Sim.interactionMatrix].
    match goal with |- context [Sim.foldM ?f (seq 0 ?n) ?a] =>
      destruct (foldM_total f (seq 0 n) a) as [acc Ea] end.
    + intros a i Hi. apply in_seq in Hi. cbn [Sim.count Sim.with_forces] in Hi.
      apply foldM_total. intros b j Hj. apply in_seq in Hj.
      cbn [Sim.count Sim.with_forces] in Hj.
      apply pairStep_total.
      cbn [Sim.xs Sim.ys Sim.types Sim.interactionMatrix Sim.with_forces].
      apply (bfContribution_total _ _ (Sim.typeCount s)); [exact Sq | apply Ht; lia ..].
    + rewrite Ea. simpl. eauto.
  - destruct (insertAll_total (SpatialHash.clear (Sim.spatialHash s))
                (Sim.points (Sim.with_forces s (map (fun _ => 0) (Sim.fxs s),
                                                map (fun _ => 0) (Sim.fys s)))))
      as [h Eh]; [apply clear_wf, Hw; reflexivity|].
    cbn [Sim.spatialHash Sim.with_forces] in Eh |- *. rewrite Eh. simpl.
    assert (W : SpatialHash.wf h)
      by exact (HashFacts.insertAll_wf _ _ _ (clear_wf _ (Hw eq_refl)) Eh).
    assert (Hidx : SpatialHash.indices_below (Sim.count s) h).
    { refine (insertAll_indices _ _ _ _ (clear_indices _ _) _ Eh).
      intros k p Hk. exact (points_indices _ k p Hk). }
    unfold Sim.calculateForces. cbn [Sim.count Sim.spatialHash Sim.with_hash].
    match goal with |- context [Sim.foldM ?f (seq 0 ?n) ?a] =>
      destruct (foldM_total f (seq 0 n) a) as [acc Ea] end.
    + intros a i Hi. apply in_seq in Hi.
      cbn [Sim.count Sim.with_forces Sim.with_hash] in Hi.
      destruct (HashFacts.getNearby_total h
                  (nth i (Sim.xs s) 0) (nth i (Sim.ys s) 0) W) as [nb En].
      cbn [Sim.xs Sim.ys Sim.with_hash Sim.with_forces]. rewrite En. simpl.
      apply foldM_total. intros b j Hj.
      pose proof (collect_indices _ _ _ _ Hidx En j Hj) as Hjc.
      destruct (j <=? i)%nat; [eauto|].
      apply pairStep_total. cbn [Sim.xs Sim.ys Sim.types Sim.with_hash Sim.with_forces
                                 Sim.interactionRadius Sim.interactionMatrix].
      apply (shContribution_total _ _ _ (Sim.typeCount s)); [exact Sq | apply Ht; lia ..].
    + rewrite Ea. simpl. eauto.
Qed.

Lemma update_total_witness :
  exists s', Sim.update sqrtUp
               (Demo.state [10; 790] [10; 590] [1; 2] [3; -4] [0%Z; 1%Z] 2
                           [[1; 2]; [-1; 0]] false) (1 # 60) = Some s'.
Proof.
  set (s := Demo.state [10; 790] [10; 590] [1; 2] [3; -4] [0%Z; 1%Z] 2
                       [[1; 2]; [-1; 0]] false).
  assert (Ht : forall i, (i < Sim.count s)%nat ->
                 (0 <= nth i (Sim.types s) 0 < Sim.typeCount s)%Z).
  { intros i Hi. cbn in Hi. destruct i as [|[|i]]; cbn; lia. }
  assert (Sq : square (Sim.typeCount s) (Sim.interactionMatrix s)).
  { split; [reflexivity|]. intros row Hr. cbn in Hr.
    destruct Hr as [<-|[<-|[]]]; reflexivity. }
  assert (Hw : Sim.useBruteForce s = false -> SpatialHash.wf (Sim.spatialHash s)).
  { intros _. unfold SpatialHash.wf; simpl; qcheck. }
  exact (update_total sqrtUp s (1 # 60) Ht Sq Hw).
Defined.

(** ** Initialization: layout *)









(** ** Removing a particle type from the editor *)

Lemma filter_all {A} (f : A -> bool) (l : list A) :
  (forall x, In x l -> f x = true) -> filter f l = l.
Proof.
  induction l as [|a l IH]; intros H; simpl; [reflexivity|].
  rewrite (H a (or_introl eq_refl)). f_equal. apply IH. intros x Hx. apply H. right. exact Hx.
Qed.

Lemma nth_error_seq_lt a n p : (p < n)%nat -> nth_error (seq a n) p = Some (a + p)%nat.
Proof.
  revert a p; induction n as [|n IH]; intros a [|p] Hp; simpl; try lia.
  - f_equal. lia.
  - rewrite IH by lia. f_equal. lia.
Qed.

(** The index of the old type at position [p] of the types kept. *)
Lemma kept_nth (tc k : Z) (p : nat) :
  (0 <= k < tc)%Z -> (p < Z.to_nat (tc - 1))%nat ->
  let kept := filter (fun i => negb (i =? k)%Z) (JS.zseq tc) in
  length kept = Z.to_nat (tc - 1) /\
  nth_error kept p = Some (if (Z.of_nat p <? k)%Z then Z.of_nat p else Z.of_nat p + 1)%Z.
Proof.
  intros Hk Hp. cbv zeta. unfold JS.zseq.
  replace (Z.to_nat tc) with (Z.to_nat k + (1 + (Z.to_nat tc - Z.to_nat k - 1)))%nat by lia.
  rewrite !seq_app, !map_app, !filter_app. simpl.
  replace (Z.of_nat (Z.to_nat k) =? k)%Z with true
    by (symmetry; apply Z.eqb_eq; lia). simpl.
  rewrite !filter_all.
  2: { intros x Hx. apply in_map_iff in Hx as (y & <- & Hy). apply in_seq in Hy.
       apply negb_true_iff, Z.eqb_neq. lia. }
  2: { intros x Hx. apply in_map_iff in Hx as (y & <- & Hy). apply in_seq in Hy.
       apply negb_true_iff, Z.eqb_neq. lia. }
  rewrite length_app, !length_map, !length_seq. split; [lia|].
  destruct (Z.ltb_spec (Z.of_nat p) k) as [L|L].
  - rewrite nth_error_app1 by (rewrite length_map, length_seq; lia).
    rewrite nth_error_map, nth_error_seq_lt by lia. simpl. reflexivity.
  - rewrite nth_error_app2 by (rewrite length_map, length_seq; lia).
    rewrite length_map, length_seq, nth_error_map, nth_error_seq_lt by lia.
    simpl. f_equal. lia.
Qed.

Lemma kept_range (tc k x : Z) :
  In x (filter (fun i => negb (i =? k)%Z) (JS.zseq tc)) -> (0 <= x < tc)%Z /\ x <> k.
Proof.
  intros H. apply filter_In in H as [H E]. apply negb_true_iff, Z.eqb_neq in E.
  unfold JS.zseq in H. apply in_map_iff in H as (y & <- & Hy). apply in_seq in Hy.
  lia.
Qed.

(** The editor's removal: the new matrix is the old one without row and
    column [k]. *)
Lemma ui_remove_matrix tc m k :
  (2 < tc)%Z -> (0 <= k < tc)%Z -> square tc m ->
  exists m', UI.removeParticleType tc m k = Some (Some (tc - 1, m'))%Z /\
    square (tc - 1) m' /\
    forall a b, (0 <= a < tc - 1)%Z -> (0 <= b < tc - 1)%Z ->
      Sim.entry m' a b =
      Sim.entry m (if (a <? k)%Z then a else a + 1) (if (b <? k)%Z then b else b + 1).
Proof.
  intros Htc Hk Sq. unfold UI.removeParticleType.
  replace (tc <=? 2)%Z with false by (symmetry; apply Z.leb_gt; lia).
  replace ((k <? 0) || (tc <=? k))%Z with false
    by (symmetry; apply orb_false_iff; split; [apply Z.ltb_ge | apply Z.leb_gt]; lia).
  set (kept := filter (fun i => negb (i =? k)%Z) (JS.zseq tc)).
  set (g := fun i => JS.mapM (fun j => Sim.entry m i j) kept).
  assert (Hg : forall i, In i kept -> exists row, g i = Some row).
  { intros i Hi. apply mapM_total. intros j Hj.
    destruct (kept_range _ _ _ Hi), (kept_range _ _ _ Hj).
    exact (entry_total m tc i j Sq ltac:(lia) ltac:(lia)). }
  destruct (mapM_total g kept Hg) as [m' Em]. rewrite Em. simpl.
  exists m'. split; [reflexivity|].
  destruct (mapM_nth g kept m' Em) as [Lm Nm].
  assert (Lk : length kept = Z.to_nat (tc - 1))
    by exact (proj1 (kept_nth tc k 0 Hk ltac:(lia))).
  assert (Rows : forall p row, nth_error m' p = Some row ->
             exists i, nth_error kept p = Some i /\ g i = Some row).
  { intros p row Hp.
    assert (Hlt : (p < length kept)%nat)
      by (rewrite <- Lm; apply nth_error_Some; congruence).
    destruct (nth_error kept p) as [i|] eqn:Ei.
    - exists i. split; [reflexivity|]. rewrite <- (Nm p i Ei). exact Hp.
    - apply nth_error_None in Ei. lia. }
  split.
  - split; [congruence|]. intros row Hr.
    apply In_nth_error in Hr as [p Hp].
    destruct (Rows p row Hp) as (i & _ & Gi).
    destruct (mapM_nth _ _ _ Gi) as [Lr _]. congruence.
  - intros a b Ha Hb.
    destruct (kept_nth tc k (Z.to_nat a) Hk ltac:(lia)) as [_ Ka].
    destruct (kept_nth tc k (Z.to_nat b) Hk ltac:(lia)) as [_ Kb].
    fold kept in Ka, Kb. rewrite Z2Nat.id in Ka, Kb by lia.
    destruct (mapM_total g kept Hg) as [m'' _].
    assert (Ia : In (if (a <? k)%Z then a else a + 1)%Z kept) by (eapply nth_error_In; eauto).
    destruct (Hg _ Ia) as [row Gr].
    pose proof (Nm _ _ Ka) as Ra. rewrite Gr in Ra.
    destruct (mapM_nth _ _ _ Gr) as [_ Nr].
    pose proof (Nr _ _ Kb) as Rb.
    unfold Sim.entry at 1.
    replace ((a <? 0) || (b <? 0))%Z with false
      by (symmetry; apply orb_false_iff; split; apply Z.ltb_ge; lia).
    rewrite Ra. simpl. exact Rb.
Qed.

(** Extra X11.  Clicking the dot of type [k] (with [2 < typeCount <= 256],
    [0 <= k < typeCount], a [typeCount] x [typeCount] matrix, every
    particle's type in [[0, typeCount)] and random draws in [[0, 1)]) runs the
    editor's [removeParticleType] and the engine's [removeParticleType]
    through [handleTypeRemoved]: the engine gets [typeCount - 1] types and a
    [(typeCount - 1)]-square matrix, every particle a type in
    [[0, typeCount - 1)], and any two particles whose types survive interact
    through the same matrix entry as before. *)
Theorem removeTypeClick_keeps_interactions (rnd : nat -> Q) (s : Sim.t) (tc : Z)
        (m : list (list Q)) (k : Z) :
  (forall i, 0 <= rnd i < 1) ->
  (2 < tc <= 256)%Z -> (0 <= k < tc)%Z -> square tc m ->
  length (Sim.types s) = Sim.count s ->
  (forall i, (i < Sim.count s)%nat -> 0 <= nth i (Sim.types s) 0 < tc)%Z ->
  exists m' s', UI.removeTypeClick rnd s tc m k = Some (Some (tc - 1, m', s'))%Z /\
    Sim.typeCount s' = (tc - 1)%Z /\ Sim.interactionMatrix s' = m' /\
    square (tc - 1) m' /\
    (forall i, (i < Sim.count s)%nat -> 0 <= nth i (Sim.types s') 0 < tc - 1)%Z /\
    forall i j, (i < Sim.count s)%nat -> (j < Sim.count s)%nat ->
      nth i (Sim.types s) 0%Z <> k -> nth j (Sim.types s) 0%Z <> k ->
      Sim.entry m' (nth i (Sim.types s') 0%Z) (nth j (Sim.types s') 0%Z) =
      Sim.entry m (nth i (Sim.types s) 0%Z) (nth j (Sim.types s) 0%Z).
Proof.
  intros Hr Htc Hk Sq Hlen Hty.
  destruct (ui_remove_matrix tc m k ltac:(lia) Hk Sq) as (m' & Eu & Sq' & Hm').
  set (s' := Sim.removeParticleType rnd s k (tc - 1) m').
  exists m', s'.
  split; [unfold UI.removeTypeClick; rewrite Eu; reflexivity|].
  split; [reflexivity|]. split; [reflexivity|].
  split; [exact Sq'|].
  assert (Hnth : forall i, (i < Sim.count s)%nat ->
            nth i (Sim.types s') 0%Z =
            Sim.remapType k (tc - 1) (rnd i) (nth i (Sim.types s) 0%Z)).
  { intros i Hi. unfold s', Sim.removeParticleType. simpl.
    rewrite (fold_set_nth_pointwise
               (fun i t => Sim.remapType k (tc - 1) (rnd i) t)) by lia.
    apply Nat.ltb_lt in Hi. now rewrite Hi. }
  assert (B : forall i, (i < Sim.count s)%nat ->
            let t := nth i (Sim.types s) 0%Z in
            let t' := nth i (Sim.types s') 0%Z in
            (t = k -> 0 <= t' < tc - 1)%Z /\ (k < t -> t' = t - 1)%Z /\
            (t < k -> t' = t)%Z).
  { intros i Hi. cbv zeta. rewrite (Hnth i Hi).
    pose proof (Hty i Hi).
    exact (remapType_bounds k (tc - 1) (rnd i) (nth i (Sim.types s) 0%Z) (Hr i) ltac:(lia) ltac:(lia) ltac:(lia)). }
  split.
  - intros i Hi. destruct (B i Hi) as (B1 & B2 & B3). pose proof (Hty i Hi).
    destruct (Z.lt_total (nth i (Sim.types s) 0%Z) k) as [L|[E|G]].
    + rewrite (B3 L). lia.
    + exact (B1 E).
    + rewrite (B2 G). lia.
  - assert (Back : forall i, (i < Sim.count s)%nat -> nth i (Sim.types s) 0%Z <> k ->
              (0 <= nth i (Sim.types s') 0 < tc - 1)%Z /\
              (if (nth i (Sim.types s') 0%Z <? k)%Z then nth i (Sim.types s') 0%Z
               else nth i (Sim.types s') 0%Z + 1)%Z = nth i (Sim.types s) 0%Z).
    { intros i Hi Hne. destruct (B i Hi) as (_ & B2 & B3). pose proof (Hty i Hi).
      destruct (Z.lt_total (nth i (Sim.types s) 0%Z) k) as [L|[E|G]]; [|contradiction|].
      - rewrite (B3 L). split; [lia|]. destruct (Z.ltb_spec (nth i (Sim.types s) 0%Z) k); lia.
      - rewrite (B2 G). split; [lia|]. destruct (Z.ltb_spec (nth i (Sim.types s) 0%Z - 1) k); lia. }
    intros i j Hi Hj Hni Hnj.
    destruct (Back i Hi Hni) as [Ri Ei]. destruct (Back j Hj Hnj) as [Rj Ej].
    rewrite (Hm' _ _ Ri Rj), Ei, Ej. reflexivity.
Qed.

Lemma removeTypeClick_keeps_interactions_witness :
  exists m' s',
    UI.removeTypeClick (fun _ => 0) Demo.pair3 3 [[1; 2; 3]; [4; 5; 6]; [7; 8; 9]] 1
      = Some (Some (2, m', s'))%Z /\
    forall i j, (i < 3)%nat -> (j < 3)%nat ->
      nth i (Sim.types Demo.pair3) 0%Z <> 1%Z -> nth j (Sim.types Demo.pair3) 0%Z <> 1%Z ->
      Sim.entry m' (nth i (Sim.types s') 0%Z) (nth j (Sim.types s') 0%Z) =
      Sim.entry [[1; 2; 3]; [4; 5; 6]; [7; 8; 9]]
                (nth i (Sim.types Demo.pair3) 0%Z) (nth j (Sim.types Demo.pair3) 0%Z).
Proof.
  assert (Hr : forall i : nat, 0 <= (fun _ => 0) i < 1) by (intros i; qcheck).
  assert (Htc : (2 < 3 <= 256)%Z) by lia.
  assert (Hk : (0 <= 1 < 3)%Z) by lia.
  assert (Sq : square 3 [[1; 2; 3]; [4; 5; 6]; [7; 8; 9]]).
  { split; [reflexivity|]. intros row Hrow. simpl in Hrow.
    destruct Hrow as [<-|[<-|[<-|[]]]]; reflexivity. }
  assert (Hlen : length (Sim.types Demo.pair3) = Sim.count Demo.pair3) by reflexivity.
  assert (Hty : forall i, (i < Sim.count Demo.pair3)%nat ->
                  (0 <= nth i (Sim.types Demo.pair3) 0 < 3)%Z).
  { intros i Hi. cbn in Hi. destruct i as [|[|[|i]]]; cbn; lia. }
  destruct (removeTypeClick_keeps_interactions (fun _ => 0) Demo.pair3 3
              [[1; 2; 3]; [4; 5; 6]; [7; 8; 9]] 1 Hr Htc Hk Sq Hlen Hty)
    as (m' & s' & E & _ & _ & _ & _ & P).
  exists m', s'. split; [exact E|]. exact P.
Defined.

(** ** Adding a particle type in the editor *)

Lemma foldM_seq {A} (P : nat -> A -> Prop) (f : A -> Z -> option A) s n a :
  P s a ->
  (forall i a, (s <= i < s + n)%nat -> P i a ->
     exists a', f a (Z.of_nat i) = Some a' /\ P (S i) a') ->
  exists r, Sim.foldM f (map Z.of_nat (seq s n)) a = Some r /\ P (s + n)%nat r.
Proof.
  revert s a; induction n as [|n IH]; intros s a Ha Hf.
  - exists a. rewrite Nat.add_0_r. split; [reflexivity|exact Ha].
  - destruct (Hf s a ltac:(lia) Ha) as (a' & E & Ha'). simpl. rewrite E. simpl.
    destruct (IH (S s) a' Ha') as (r & Er & Pr).
    + intros i b Hi Hb. apply Hf; [lia|exact Hb].
    + exists r. split; [exact Er|]. replace (s + S n)%nat with (S s + n)%nat by lia. exact Pr.
Qed.

Lemma randomValue_range r : 0 <= r < 1 -> MATRIX_MIN <= UI.randomValue r <= MATRIX_MAX.
Proof.
  intros [R0 R1]. unfold UI.randomValue, UI.round, MATRIX_MIN, MATRIX_MAX.
  set (x := (-5 + r * (5 - -5)) * 10 + (1 # 2)).
  set (z := Qfloor x).
  pose proof (Qfloor_le x) as F1. pose proof (Qlt_floor x) as F2. fold z in F1, F2.
  rewrite inject_Z_plus in F2.
  assert (Hz1 : inject_Z z < inject_Z 51) by (unfold x in F1; change (inject_Z 51) with (51 # 1); nra).
  assert (Hz2 : inject_Z (-51) < inject_Z z)
    by (unfold x in F2; change (inject_Z 1) with (1 # 1) in F2; change (inject_Z (-51)) with (-51 # 1); nra).
  rewrite <- Zlt_Qlt in Hz1, Hz2.
  assert (L1 : inject_Z (-50) <= inject_Z z) by (rewrite <- Zle_Qle; lia).
  assert (L2 : inject_Z z <= inject_Z 50) by (rewrite <- Zle_Qle; lia).
  change (inject_Z (-50)) with (-50 # 1) in L1. change (inject_Z 50) with (50 # 1) in L2.
  split.
  - apply (Qmult_le_r _ _ 10); [reflexivity|].
    setoid_replace (inject_Z z / 10 * 10) with (inject_Z z) by (field; discriminate).
    lra.
  - apply (Qmult_le_r _ _ 10); [reflexivity|].
    setoid_replace (inject_Z z / 10 * 10) with (inject_Z z) by (field; discriminate).
    lra.
Qed.

Lemma nth_snoc {A} (l : list A) (x d : A) q :
  nth q (l ++ [x]) d = if (q <? length l)%nat then nth q l d
                       else if (q =? length l)%nat then x else d.
Proof.
  destruct (Nat.ltb_spec q (length l)) as [L|L].
  - apply app_nth1. exact L.
  - rewrite app_nth2 by exact L.
    destruct (Nat.eqb_spec q (length l)) as [->|N].
    + rewrite Nat.sub_diag. reflexivity.
    + destruct (q - length l)%nat as [|p] eqn:E; [lia|]. simpl. destruct p; reflexivity.
Qed.

Lemma addRow_spec rnd tc m i rows k :
  (forall k, 0 <= rnd k < 1) -> (0 <= tc)%Z -> square tc m -> (0 <= i < tc + 1)%Z ->
  exists row k', UI.addRow rnd tc m (tc + 1) (rows, k) i = Some (rows ++ [row], k') /\
    length row = Z.to_nat (tc + 1) /\
    forall q, (q < Z.to_nat (tc + 1))%nat -> addedCell tc m i (Z.of_nat q) (nth q row 0).
Proof.
  intros Hr Htc Sq Hi.
  set (P := fun (q : nat) (acc : list Q * nat) =>
              length (fst acc) = q /\
              forall q', (q' < q)%nat -> addedCell tc m i (Z.of_nat q') (nth q' (fst acc) 0)).
  destruct (foldM_seq P (UI.addCell rnd tc m i) 0 (Z.to_nat (tc + 1)) ([], k))
    as ([row k'] & E & Lr & Cr).
  - split; [reflexivity|]. intros q' Hq; lia.
  - intros q [row k0] Hq [Lq Cq]. simpl in Lq, Cq. unfold UI.addCell.
    destruct ((i <? tc) && (Z.of_nat q <? tc))%Z eqn:B.
    + apply andb_true_iff in B as [B1 B2]. apply Z.ltb_lt in B1, B2.
      destruct (entry_total m tc i (Z.of_nat q) Sq ltac:(lia) ltac:(lia)) as [v Ev].
      rewrite Ev. simpl. eexists. split; [reflexivity|]. unfold P; cbn [fst].
      rewrite length_app. simpl. split; [lia|].
      intros q' Hq'. rewrite nth_snoc, Lq.
      destruct (Nat.ltb_spec q' q); [apply Cq; lia|].
      replace (q' =? q)%nat with true by (symmetry; apply Nat.eqb_eq; lia).
      replace q' with q by lia. split; [intros _; exact Ev | intros N; exfalso; lia].
    + eexists. split; [reflexivity|]. unfold P; cbn [fst].
      rewrite length_app. simpl. split; [lia|].
      intros q' Hq'. rewrite nth_snoc, Lq.
      destruct (Nat.ltb_spec q' q); [apply Cq; lia|].
      replace (q' =? q)%nat with true by (symmetry; apply Nat.eqb_eq; lia).
      replace q' with q by lia. split.
      * intros [B1 B2]. apply andb_false_iff in B as [B|B]; apply Z.ltb_ge in B; lia.
      * intros _. apply randomValue_range, Hr.
  - exists row, k'. unfold UI.addRow, JS.zseq. rewrite E. simpl.
    split; [reflexivity|]. split; [exact Lr|]. intros q Hq. apply Cr. exact Hq.
Qed.

(** Extra X12.  [addParticleType()] below [maxTypes = 8] types, on a
    [typeCount] x [typeCount] matrix with random draws in [[0, 1)], passes a
    [(typeCount + 1)]-square matrix that keeps every old entry and holds in
    each cell of the new row and column a value in
    [[MATRIX_MIN, MATRIX_MAX]]. *)
Theorem addParticleType_expands (rnd : nat -> Q) (tc : Z) (m : list (list Q)) :
  (forall k, 0 <= rnd k < 1) -> (0 <= tc < 8)%Z -> square tc m ->
  exists m', UI.addParticleType rnd tc m = Some (Some (tc + 1, m'))%Z /\
    square (tc + 1) m' /\
    forall a b, (0 <= a < tc + 1)%Z -> (0 <= b < tc + 1)%Z ->
      exists v, Sim.entry m' a b = Some v /\ addedCell tc m a b v.
Proof.
  intros Hr Htc Sq.
  set (P := fun (p : nat) (acc : list (list Q) * nat) =>
              length (fst acc) = p /\
              forall p', (p' < p)%nat ->
                length (nth p' (fst acc) []) = Z.to_nat (tc + 1) /\
                forall q, (q < Z.to_nat (tc + 1))%nat ->
                  addedCell tc m (Z.of_nat p') (Z.of_nat q) (nth q (nth p' (fst acc) []) 0)).
  destruct (foldM_seq P (UI.addRow rnd tc m (tc + 1)) 0 (Z.to_nat (tc + 1)) ([], 0%nat))
    as ([rows k] & E & Lr & Cr).
  - split; [reflexivity|]. intros p' Hp; lia.
  - intros p [rows k] Hp [Lp Cp]. simpl in Lp, Cp.
    destruct (addRow_spec rnd tc m (Z.of_nat p) rows k Hr ltac:(lia) Sq ltac:(lia))
      as (row & k' & Er & Lrow & Crow).
    exists (rows ++ [row], k'). split; [exact Er|]. unfold P; cbn [fst].
    rewrite length_app. simpl. split; [lia|].
    intros p' Hp'. rewrite nth_snoc, Lp.
    destruct (Nat.ltb_spec p' p); [apply Cp; lia|].
    replace (p' =? p)%nat with true by (symmetry; apply Nat.eqb_eq; lia).
    replace p' with p by lia. split; [exact Lrow | exact Crow].
  - simpl in Lr, Cr. exists rows. unfold UI.addParticleType, JS.zseq. cbv zeta.
    replace (8 <=? tc)%Z with false by (symmetry; apply Z.leb_gt; lia).
    rewrite E. simpl.
    split; [reflexivity|]. split.
    + split; [exact Lr|]. intros row Hrow.
      apply In_nth_error in Hrow as [p Hp].
      assert (Hlt : (p < length rows)%nat) by (apply nth_error_Some; congruence).
      rewrite (nth_error_nth' rows [] Hlt) in Hp. inversion Hp; subst row.
      apply Cr. lia.
    + intros a b Ha Hb.
      destruct (Cr (Z.to_nat a) ltac:(lia)) as [La Ca].
      exists (nth (Z.to_nat b) (nth (Z.to_nat a) rows []) 0). split.
      * unfold Sim.entry.
        replace ((a <? 0) || (b <? 0))%Z with false
          by (symmetry; apply orb_false_iff; split; apply Z.ltb_ge; lia).
        rewrite (nth_error_nth' rows []) by lia. simpl.
        apply nth_error_nth'. lia.
      * pose proof (Ca (Z.to_nat b) ltac:(lia)) as C.
        rewrite !Z2Nat.id in C by lia. exact C.
Qed.

Lemma addParticleType_expands_witness :
  exists m', UI.addParticleType (fun _ => 1 # 2) 2 [[1; 2]; [-1; 0]] = Some (Some (3, m'))%Z /\
    square 3 m' /\
    forall a b, (0 <= a < 3)%Z -> (0 <= b < 3)%Z ->
      exists v, Sim.entry m' a b = Some v /\ addedCell 2 [[1; 2]; [-1; 0]] a b v.
Proof.
  assert (Hr : forall k : nat, 0 <= (fun _ => 1 # 2) k < 1) by (intros k; qcheck).
  assert (Htc : (0 <= 2 < 8)%Z) by lia.
  assert (Sq : square 2 [[1; 2]; [-1; 0]]).
  { split; [reflexivity|]. intros row Hrow. simpl in Hrow.
    destruct Hrow as [<-|[<-|[]]]; reflexivity. }
  exact (addParticleType_expands (fun _ => 1 # 2) 2 [[1; 2]; [-1; 0]] Hr Htc Sq).
Defined.

(** ** How far a step moves a particle *)

Lemma integrateOne_speed (sqrt : Q -> Q) (dts fx fy x y vx vy : Q) :
  (forall q, 0 <= q -> 0 <= sqrt q /\ q <= sqrt q * sqrt q) ->
  exists vx3 vy3,
    Sim.integrateOne sqrt dts fx fy (x, y, vx, vy) =
      (x + vx3 * dts, y + vy3 * dts, vx3, vy3) /\
    vx3 * vx3 + vy3 * vy3 <= MAX_VELOCITY * MAX_VELOCITY.
Proof.
  intros Hsq.
  destruct (integrateOne_spec sqrt dts fx fy x y vx vy) as (vx3 & vy3 & E & Cbig & Csmall).
  exists vx3, vy3. split; [exact E|].
  set (vx2 := (vx + fx * dts) * FRICTION) in *.
  set (vy2 := (vy + fy * dts) * FRICTION) in *.
  set (q := vx2 * vx2 + vy2 * vy2) in *.
  set (sp := sqrt q) in *.
  assert (Hq : 0 <= q) by (unfold q; nra).
  destruct (Hsq q Hq) as [Hsp Hqs]. fold sp in Hsp, Hqs.
  unfold MAX_VELOCITY in *.
  destruct (Qlt_le_dec 5 sp) as [L|L].
  - destruct (Cbig L) as [-> ->].
    set (t := 5 / sp).
    assert (Ht : t * sp == 5) by (unfold t; field; lra).
    assert (Ht0 : 0 <= t * t) by nra.
    setoid_replace (vx2 * t * (vx2 * t) + vy2 * t * (vy2 * t)) with (q * (t * t))
      by (unfold q; ring).
    setoid_replace (5 * 5) with ((t * sp) * (t * sp)) by (rewrite Ht; reflexivity).
    setoid_replace ((t * sp) * (t * sp)) with ((sp * sp) * (t * t)) by ring.
    apply Qmult_le_compat_r; [exact Hqs | exact Ht0].
  - destruct (Csmall L) as [-> ->]. fold q. nra.
Qed.

(** The bounce never moves a position further from a point of [[lo, hi]]
    than the integrated position was. *)
Lemma boundAxis_near lo hi p v x :
  lo <= x <= hi ->
  (fst (Sim.boundAxis lo hi p v) - x) * (fst (Sim.boundAxis lo hi p v) - x) <=
  (p - x) * (p - x).
Proof.
  intros Hx. destruct (boundAxis_spec lo hi p v) as (H1 & H2 & H3).
  destruct (Qlt_le_dec p lo) as [L|L]; [rewrite H1 by exact L; simpl; nra|].
  destruct (Qlt_le_dec hi p) as [G|G].
  - rewrite H2 by assumption. simpl. nra.
  - rewrite H3 by assumption. simpl. lra.
Qed.

(** Extra X13.  With a square root that is non-negative and never below the
    exact root, a particle lying in [[R, width - R] x [R, height - R]]
    moves in a step [update(dt)] by at most [MAX_VELOCITY * min(dt, 1/30) * 60]
    (Euclidean distance, compared as squares): [dt] is clamped, the speed is
    clamped, and the bounce only pulls the particle back toward the box. *)
Theorem update_displacement_bound (sqrt : Q -> Q) (s s' : Sim.t) (dt : Q) :
  (forall q, 0 <= q -> 0 <= sqrt q /\ q <= sqrt q * sqrt q) ->
  (Sim.count s <= Sim.lanes s)%nat ->
  Sim.update sqrt s dt = Some s' ->
  forall i, (i < Sim.count s)%nat ->
    inBox PARTICLE_RADIUS (Sim.width s) (Sim.height s)
          (nth i (Sim.xs s) 0) (nth i (Sim.ys s) 0) ->
    (nth i (Sim.xs s') 0 - nth i (Sim.xs s) 0) * (nth i (Sim.xs s') 0 - nth i (Sim.xs s) 0) +
    (nth i (Sim.ys s') 0 - nth i (Sim.ys s) 0) * (nth i (Sim.ys s') 0 - nth i (Sim.ys s) 0)
    <= (MAX_VELOCITY * (JS.min dt (1 # 30) * 60)) * (MAX_VELOCITY * (JS.min dt (1 # 30) * 60)).
Proof.
  intros Hsq Hl Hu i Hi [Bx By].
  destruct (update_particle sqrt s dt s' i Hl Hi Hu) as (s1 & _ & P).
  unfold Sim.particle at 1 in P. unfold Sim.particle in P.
  set (x := nth i (Sim.xs s) 0) in *. set (y := nth i (Sim.ys s) 0) in *.
  set (dts := JS.min dt (1 # 30) * 60) in *.
  destruct (integrateOne_speed sqrt dts (nth i (Sim.fxs s1) 0) (nth i (Sim.fys s1) 0)
              x y (nth i (Sim.vxs s) 0) (nth i (Sim.vys s) 0) Hsq)
    as (vx3 & vy3 & E & Sp).
  rewrite E, handleOne_eq in P. injection P as Ex Ey _ _.
  rewrite Ex, Ey.
  pose proof (boundAxis_near PARTICLE_RADIUS (Sim.width s - PARTICLE_RADIUS)
                (x + vx3 * dts) vx3 x Bx) as Nx.
  pose proof (boundAxis_near PARTICLE_RADIUS (Sim.height s - PARTICLE_RADIUS)
                (y + vy3 * dts) vy3 y By) as Ny.
  setoid_replace ((x + vx3 * dts - x) * (x + vx3 * dts - x)) with (vx3 * vx3 * (dts * dts))
    in Nx by ring.
  setoid_replace ((y + vy3 * dts - y) * (y + vy3 * dts - y)) with (vy3 * vy3 * (dts * dts))
    in Ny by ring.
  assert (D : 0 <= dts * dts) by nra.
  setoid_replace (MAX_VELOCITY * dts * (MAX_VELOCITY * dts))
    with (MAX_VELOCITY * MAX_VELOCITY * (dts * dts)) by ring.
  assert ((vx3 * vx3 + vy3 * vy3) * (dts * dts) <= MAX_VELOCITY * MAX_VELOCITY * (dts * dts))
    by (apply Qmult_le_compat_r; assumption).
  lra.
Qed.

Lemma update_displacement_bound_witness :
  exists s', Sim.update sqrtUp Demo.pair (1 # 60) = Some s' /\
    forall i, (i < Sim.count Demo.pair)%nat ->
      inBox PARTICLE_RADIUS (Sim.width Demo.pair) (Sim.height Demo.pair)
            (nth i (Sim.xs Demo.pair) 0) (nth i (Sim.ys Demo.pair) 0) ->
      (nth i (Sim.xs s') 0 - nth i (Sim.xs Demo.pair) 0) *
      (nth i (Sim.xs s') 0 - nth i (Sim.xs Demo.pair) 0) +
      (nth i (Sim.ys s') 0 - nth i (Sim.ys Demo.pair) 0) *
      (nth i (Sim.ys s') 0 - nth i (Sim.ys Demo.pair) 0)
      <= (MAX_VELOCITY * (JS.min (1 # 60) (1 # 30) * 60)) *
         (MAX_VELOCITY * (JS.min (1 # 60) (1 # 30) * 60)).
Proof.
  destruct (Sim.update sqrtUp Demo.pair (1 # 60)) as [s'|] eqn:E;
    [|vm_compute in E; discriminate].
  assert (H3 : (Sim.count Demo.pair <= Sim.lanes Demo.pair)%nat) by (vm_compute; lia).
  exists s'. split; [reflexivity|].
  exact (update_displacement_bound sqrtUp Demo.pair s' (1 # 60) sqrtUp_spec H3 E).
Defined.

(** ** Configuration calls *)

(** Extra X14.  On a simulation of positive width and height whose grid is
    well formed, any sequence of [setBruteForce(b)] and
    [setInteractionRadius(r)] calls with positive radii, each giving a grid
    of at most [2^32 - 1] cells, never throws, keeps the grid well formed,
    and changes neither the particles nor the dimensions, types, type count
    or matrix. *)
Theorem config_calls_keep_grid (s : Sim.t) (cs : list Sim.call) :
  0 < Sim.width s -> 0 < Sim.height s -> SpatialHash.wf (Sim.spatialHash s) ->
  (forall r, In (Sim.SetInteractionRadius r) cs ->
     0 < r /\ gridFits r (Sim.width s) (Sim.height s)) ->
  exists s', Sim.runCalls s cs = Some s' /\
    SpatialHash.wf (Sim.spatialHash s') /\
    Sim.kinematics s' = Sim.kinematics s /\
    Sim.typeCount s' = Sim.typeCount s.
Proof.
  revert s; induction cs as [|c cs IH]; intros s Hw Hh W Hr.
  { exists s. simpl. auto. }
  assert (Step : exists s1, Sim.runCall s c = Some s1 /\
            0 < Sim.width s1 /\ 0 < Sim.height s1 /\ SpatialHash.wf (Sim.spatialHash s1) /\
            Sim.kinematics s1 = Sim.kinematics s /\ Sim.typeCount s1 = Sim.typeCount s).
  { destruct c as [b|r].
    - exists (Sim.setBruteForce s b). simpl. auto 7.
    - assert (Hr0 : 0 < r) by (exact (proj1 (Hr r (or_introl eq_refl)))).
      simpl. unfold Sim.setInteractionRadius. cbn [Sim.useBruteForce Sim.with_radius].
      destruct (Sim.useBruteForce s); simpl.
      + eexists. split; [reflexivity|]. simpl. auto 7.
      + destruct (new_total r (Sim.width s) (Sim.height s) Hr0 Hw Hh) as [h0 N].
        cbn [Sim.width Sim.height Sim.with_radius]. rewrite N. simpl.
        eexists. split; [reflexivity|]. simpl.
        destruct (HashFacts.new_wf r _ _ h0 Hr0 Hw Hh N) as (W0 & _).
        auto 7. }
  destruct Step as (s1 & E1 & Hw1 & Hh1 & W1 & K1 & T1).
  assert (Ew1 : Sim.width s1 = Sim.width s /\ Sim.height s1 = Sim.height s)
    by (unfold Sim.kinematics in K1; injection K1; auto).
  destruct (IH s1 Hw1 Hh1 W1) as (s' & E & W' & K' & T').
  { intros r Hin. destruct Ew1 as [-> ->]. apply Hr. right. exact Hin. }
  exists s'. simpl. rewrite E1. simpl. split; [exact E|].
  split; [exact W'|]. split; congruence.
Qed.

Lemma config_calls_keep_grid_witness :
  exists s', Sim.runCalls Demo.pair [Sim.SetBruteForce false; Sim.SetInteractionRadius 100;
                                     Sim.SetBruteForce true] = Some s' /\
    SpatialHash.wf (Sim.spatialHash s') /\
    Sim.kinematics s' = Sim.kinematics Demo.pair /\
    Sim.typeCount s' = Sim.typeCount Demo.pair.
Proof.
  assert (Hw : 0 < Sim.width Demo.pair) by qcheck.
  assert (Hh : 0 < Sim.height Demo.pair) by qcheck.
  assert (W : SpatialHash.wf (Sim.spatialHash Demo.pair))
    by (unfold SpatialHash.wf; simpl; qcheck).
  assert (Hr : forall r, In (Sim.SetInteractionRadius r)
                 [Sim.SetBruteForce false; Sim.SetInteractionRadius 100;
                  Sim.SetBruteForce true] ->
                 0 < r /\ gridFits r (Sim.width Demo.pair) (Sim.height Demo.pair)).
  { intros r Hin. simpl in Hin.
    destruct Hin as [E|[E|[E|[]]]]; inversion E; subst;
      (split; [qcheck | unfold gridFits; vm_compute; discriminate]). }
  exact (config_calls_keep_grid Demo.pair _ Hw Hh W Hr).
Defined.

(** ** The boundary pass on its own *)

Lemma boundAxis_idem lo hi p v :
  lo <= hi ->
  Sim.boundAxis lo hi (fst (Sim.boundAxis lo hi p v)) (snd (Sim.boundAxis lo hi p v)) =
  Sim.boundAxis lo hi p v.
Proof.
  intros H. pose proof (boundAxis_in lo hi p v H) as [L U].
  destruct (Sim.boundAxis lo hi p v) as [p' v'] eqn:E. simpl in *.
  unfold Sim.boundAxis at 1.
  replace (JS.qlt p' lo) with false by (symmetry; apply qlt_false; exact L).
  replace (JS.qlt hi p') with false by (symmetry; apply qlt_false; exact U).
  reflexivity.
Qed.

Lemma handleOne_idem w h p :
  2 * PARTICLE_RADIUS <= w -> 2 * PARTICLE_RADIUS <= h ->
  Sim.handleOne w h (Sim.handleOne w h p) = Sim.handleOne w h p.
Proof.
  intros Hw Hh. destruct p as [[[x y] vx] vy].
  rewrite handleOne_eq.
  rewrite handleOne_eq.
  rewrite !boundAxis_idem by (unfold PARTICLE_RADIUS in *; lra).
  reflexivity.
Qed.

(** Extra X15.  In a world at least [2 * PARTICLE_RADIUS] wide and high,
    [handleBoundaries()] is idempotent: a second pass leaves every
    particle's position and velocity exactly as the first pass left them. *)
Theorem handleBoundaries_idempotent (s : Sim.t) :
  2 * PARTICLE_RADIUS <= Sim.width s -> 2 * PARTICLE_RADIUS <= Sim.height s ->
  (Sim.count s <= Sim.lanes s)%nat ->
  forall i, Sim.particle (Sim.handleBoundaries (Sim.handleBoundaries s)) i =
            Sim.particle (Sim.handleBoundaries s) i.
Proof.
  intros Hw Hh Hl i.
  pose proof (SimFacts.frame_loop (fun _ => Sim.handleOne (Sim.width s) (Sim.height s)) s) as F.
  rewrite <- SimFacts.handleBoundaries_loop in F.
  unfold Sim.frame in F.
  injection F as Ew Eh _ Ec _ _ _ _ _ _ _ El.
  rewrite (SimFacts.handleBoundaries_loop (Sim.handleBoundaries s)).
  rewrite SimFacts.particle_loop by (rewrite Ec, El; exact Hl).
  rewrite Ew, Eh, Ec.
  destruct (i <? Sim.count s)%nat eqn:Ei; [|reflexivity].
  rewrite SimFacts.handleBoundaries_loop, SimFacts.particle_loop by exact Hl.
  rewrite Ei. apply handleOne_idem; assumption.
Qed.

Lemma handleBoundaries_idempotent_witness :
  Sim.particle (Sim.handleBoundaries (Sim.handleBoundaries Demo.pair)) 1 =
  Sim.particle (Sim.handleBoundaries Demo.pair) 1.
Proof.
  assert (Hw : 2 * PARTICLE_RADIUS <= Sim.width Demo.pair) by qcheck.
  assert (Hh : 2 * PARTICLE_RADIUS <= Sim.height Demo.pair) by qcheck.
  assert (Hl : (Sim.count Demo.pair <= Sim.lanes Demo.pair)%nat) by (vm_compute; lia).
  exact (handleBoundaries_idempotent Demo.pair Hw Hh Hl 1).
Defined.

(** ** What a step leaves alone *)

Lemma computeForces_config sqrt s s1 :
  Sim.computeForces sqrt s = Some s1 ->
  Sim.typeCount s1 = Sim.typeCount s /\ Sim.useBruteForce s1 = Sim.useBruteForce s /\
  Sim.interactionRadius s1 = Sim.interactionRadius s.
Proof.
  unfold Sim.computeForces. simpl. destruct (Sim.useBruteForce s) eqn:B.
  - unfold Sim.calculateForcesBruteForce. simpl.
    destruct (Sim.foldM _ _ _) as [acc|]; simpl; [|discriminate].
    intros E; injection E as <-; destruct acc; cbn; rewrite ?B; repeat split.
  - destruct (SpatialHash.insertAll _ _) as [h|]; simpl; [|discriminate].
    unfold Sim.calculateForces. simpl.
    destruct (Sim.foldM _ _ _) as [acc|]; simpl; [|discriminate].
    intros E; injection E as <-; destruct acc; cbn; rewrite ?B; repeat split.
Qed.

(** Extra X16.  A step [update(dt)] never changes the world's dimensions,
    the particle count, any particle's type, the type count, the
    interaction matrix, the brute-force flag, the interaction radius or the
    length of the shortest of the four position and velocity arrays. *)
Theorem update_keeps_config (sqrt : Q -> Q) (s s' : Sim.t) (dt : Q) :
  Sim.update sqrt s dt = Some s' ->
  Sim.width s' = Sim.width s /\ Sim.height s' = Sim.height s /\
  Sim.count s' = Sim.count s /\ Sim.types s' = Sim.types s /\
  Sim.typeCount s' = Sim.typeCount s /\
  Sim.interactionMatrix s' = Sim.interactionMatrix s /\
  Sim.useBruteForce s' = Sim.useBruteForce s /\
  Sim.interactionRadius s' = Sim.interactionRadius s /\
  Sim.lanes s' = Sim.lanes s.
Proof.
  intros Hu. destruct (Nat.eq_dec (Sim.count s) 0) as [C|C].
  { unfold Sim.update in Hu. rewrite C in Hu. simpl in Hu. inversion Hu; subst.
    repeat split; reflexivity. }
  destruct (update_cases sqrt s dt s' ltac:(lia) Hu) as (s1 & Hf & ->).
  pose proof (SimFacts.computeForces_kinematics sqrt s s1 Hf) as K.
  pose proof (SimFacts.lanes_kinematics s s1 K) as L.
  destruct (computeForces_config sqrt s s1 Hf) as (T & B & R).
  unfold Sim.kinematics in K. injection K as Kw Kh _ _ _ _ Kt Kc Km.
  set (s2 := Sim.integrate sqrt (JS.min dt (1 # 30)) s1).
  pose proof (frame_integrate sqrt (JS.min dt (1 # 30)) s1) as F1. fold s2 in F1.
  pose proof (SimFacts.frame_loop (fun _ => Sim.handleOne (Sim.width s2) (Sim.height s2)) s2)
    as F2.
  rewrite <- SimFacts.handleBoundaries_loop in F2.
  unfold Sim.frame in F1, F2.
  injection F1 as W1 H1 Ty1 C1 Tc1 M1 _ _ _ B1 R1 L1.
  injection F2 as W2 H2 Ty2 C2 Tc2 M2 _ _ _ B2 R2 L2.
  repeat split; congruence.
Qed.

Lemma update_keeps_config_witness :
  exists s', Sim.update sqrtUp Demo.pair (1 # 60) = Some s' /\
    Sim.types s' = Sim.types Demo.pair /\ Sim.lanes s' = Sim.lanes Demo.pair.
Proof.
  destruct (Sim.update sqrtUp Demo.pair (1 # 60)) as [s'|] eqn:E;
    [|vm_compute in E; discriminate].
  exists s'. split; [reflexivity|].
  destruct (update_keeps_config sqrtUp Demo.pair s' (1 # 60) E)
    as (_ & _ & _ & T & _ & _ & _ & _ & L).
  split; assumption.
Defined.
